(** * schemec.gencpp: the C++ back end of the CPS Scheme compiler

    A shallow embedding of [src/schemec/gencpp.py]: the primitive
    registry, the free-variable ("hole") analysis, the lambda lifter, the
    expression lowerer [to_cpp] and the halt continuation, followed by the
    properties of the specification that can be settled on them.

    Python text is modelled by [string]; a Python exception by a value of
    [pyerror]; Python sets by stdpp's [gset] (whose [elements] is a fixed
    but unspecified enumeration, like iterating a Python set inside one
    process); Python dictionaries by [gmap] or, for the [OrderedDict] of
    the lifter, by an association list in insertion order. *)

From Stdlib Require Import Ascii String.
From stdpp Require Import base strings list gmap pretty.

#[local] Set Warnings "-register-all".



(** ** Text helpers *)

(** The double quote and the line feed, which cannot be written inside a
    literal. [bs] is the backslash of the emitted C++ escapes. *)
Definition dq : string := String "034"%char EmptyString.
Definition nl : string := String "010"%char EmptyString.
Definition bs : string := String "092"%char EmptyString.

(** [sep.join(xs)] *)
Fixpoint join (sep : string) (xs : list string) : string :=
  match xs with
  | [] => ""
  | [x] => x
  | x :: xs' => x +:+ sep +:+ join sep xs'
  end.

(** Truth value of a text: the empty string is falsy. *)
Definition nonempty (s : string) : bool :=
  match s with EmptyString => false | _ => true end.

(** ** Exceptions and results *)

Inductive pyerror : Type :=
| RuntimeError (msg : string)
| KeyError (key : string)
| TypeError
| ValueError
| IndexError
| AttributeError.

Inductive result (A : Type) : Type :=
| Ok (a : A)
| Raise (e : pyerror).
Arguments Ok {A} a.
Arguments Raise {A} e.

Definition rbind {A B} (m : result A) (k : A -> result B) : result B :=
  match m with
  | Ok a => k a
  | Raise e => Raise e
  end.

(** ** Primitive registry *)

Definition NUM : string := "NUM".
Definition LAM : string := "LAM".
Definition STR : string := "STR".
Definition TYPES : list string := [NUM; LAM; STR].

(** A Python [dict] with text keys, written as the literal lists it. *)
Fixpoint dict_get (d : list (string * string)) (k : string) : option string :=
  match d with
  | [] => None
  | (k', v) :: d' => if String.eqb k k' then Some v else dict_get d' k
  end.

Definition dict_has (d : list (string * string)) (k : string) : bool :=
  match dict_get d k with Some _ => true | None => false end.

Module NumPrimOps.

Definition binary_fmt (dst lhs op rhs : string) : string :=
  dst +:+ "->num = " +:+ lhs +:+ "->num " +:+ op +:+ " " +:+ rhs +:+ "->num;".

Definition binary_ops : list (string * string) :=
  [("+", "+"); ("-", "-"); ("*", "*"); ("=", "==")].

Definition unary_fmt (dst lhs op : string) : string :=
  dst +:+ "->num = " +:+ lhs +:+ "->num " +:+ op +:+ ";".

Definition unary_ops : list (string * string) :=
  [("zero?", "== 0")].

Definition unimplemented_msg (op : string) : string :=
  "unimplemented primitive number operation: " +:+ op.

(** [__call__(op, dst, lhs, rhs=None)], applied as [f(op, dst, *args)]:
    one operand leaves [rhs] at [None], two bind both, any other count
    is rejected by the call itself. A [KeyError] of the table lookup is
    turned into a [RuntimeError]. *)
Definition call (op dst : string) (args : list string) : result (string * string) :=
  match args with
  | [lhs] =>
      match dict_get unary_ops op with
      | Some o => Ok (NUM, unary_fmt dst lhs o)
      | None => Raise (RuntimeError (unimplemented_msg op))
      end
  | [lhs; rhs] =>
      match dict_get binary_ops op with
      | Some o => Ok (NUM, binary_fmt dst lhs o rhs)
      | None => Raise (RuntimeError (unimplemented_msg op))
      end
  | _ => Raise TypeError
  end.

Definition contains (key : string) : bool :=
  dict_has binary_ops key || dict_has unary_ops key.

(** [__getitem__(key)]: the C++ operator of [key], the binary table
    first. *)
Definition getitem (key : string) : result string :=
  if dict_has binary_ops key then
    match dict_get binary_ops key with
    | Some o => Ok o
    | None => Raise (KeyError key)
    end
  else if dict_has unary_ops key then
    match dict_get unary_ops key with
    | Some o => Ok o
    | None => Raise (KeyError key)
    end
  else Raise (KeyError key).

End NumPrimOps.

Module StrPrimOps.

(** The two templates, as functions of [dst], [lhs] and [rhs]. *)
Definition string_append_fmt (dst lhs rhs : string) : string :=
  dst +:+ "->str = std::shared_ptr<std::string>(" +:+ lhs +:+ "->str);" +:+ nl +:+
  dst +:+ "->str.append(" +:+ rhs +:+ "->str);".

Definition string_eq_fmt (dst lhs rhs : string) : string :=
  dst +:+ "->num = " +:+ lhs +:+ "->str.compare(" +:+ rhs +:+ "->str) != 0;".

Definition binary_ops : list (string * (string -> string -> string -> string)) :=
  [("string-append", string_append_fmt); ("string=?", string_eq_fmt)].

Fixpoint lookup_op (d : list (string * (string -> string -> string -> string)))
    (k : string) : option (string -> string -> string -> string) :=
  match d with
  | [] => None
  | (k', v) :: d' => if String.eqb k k' then Some v else lookup_op d' k
  end.

Definition unimplemented_msg (op : string) : string :=
  "unimplemented primitive operation: " +:+ op.

(** [__call__(op, dst, lhs, rhs=None)]: every entry is binary, and every
    result is tagged [STR]. *)
Definition call (op dst : string) (args : list string) : result (string * string) :=
  match args with
  | [lhs] => Raise (RuntimeError (unimplemented_msg op))
  | [lhs; rhs] =>
      match lookup_op binary_ops op with
      | Some fmt => Ok (STR, fmt dst lhs rhs)
      | None => Raise (RuntimeError (unimplemented_msg op))
      end
  | _ => Raise TypeError
  end.

Definition contains (key : string) : bool :=
  match lookup_op binary_ops key with Some _ => true | None => false end.

(** [__getitem__(key)]: the template of [key]. *)
Definition getitem (key : string)
    : result (string -> string -> string -> string) :=
  if contains key then
    match lookup_op binary_ops key with
    | Some fmt => Ok fmt
    | None => Raise (KeyError key)
    end
  else Raise (KeyError key).

End StrPrimOps.

Definition is_primop (op : string) : bool :=
  if NumPrimOps.contains op || StrPrimOps.contains op then true else false.

Definition gen_primop (op dst : string) (args : list string) : result (string * string) :=
  if NumPrimOps.contains op then NumPrimOps.call op dst args
  else if StrPrimOps.contains op then StrPrimOps.call op dst args
  else Raise (KeyError op).

(** ** Expression trees

    Modelled from the spec: [schemec.types] (the node classes, their [map]
    method and [gensym]) is not part of the shown source. The node kinds
    and their fields are those of the data model: a Lambda carries its
    globally unique name (its identity as a dictionary key), its ordered
    formal parameters and one body; a recursive-binding block an ordered
    list of (bound identifier, value) pairs and a body. [Cpp] is an
    already lowered fragment placed in a tree, as [halt] does. *)

Inductive kind : Type :=
| KVarExp | KNumExp | KBoolExp | KStrExp | KVoidExp | KLamExp | KAppExp
| KIfExp | KLetRecExp | KBeginExp | KSetExp | KSetThenExp | KCppCode.

Global Instance kind_eq_dec : EqDecision kind.
Proof. solve_decision. Defined.

(** [str(type(exp))] *)
Definition class_repr (k : kind) : string :=
  match k with
  | KVarExp => "<class 'schemec.types.VarExp'>"
  | KNumExp => "<class 'schemec.types.NumExp'>"
  | KBoolExp => "<class 'schemec.types.BoolExp'>"
  | KStrExp => "<class 'schemec.types.StrExp'>"
  | KVoidExp => "<class 'schemec.types.VoidExp'>"
  | KLamExp => "<class 'schemec.types.LamExp'>"
  | KAppExp => "<class 'schemec.types.AppExp'>"
  | KIfExp => "<class 'schemec.types.IfExp'>"
  | KLetRecExp => "<class 'schemec.types.LetRecExp'>"
  | KBeginExp => "<class 'schemec.types.BeginExp'>"
  | KSetExp => "<class 'schemec.types.SetExp'>"
  | KSetThenExp => "<class 'schemec.types.SetThenExp'>"
  | KCppCode => "<class 'schemec.gencpp.CppCode'>"
  end.

Definition unimplemented {A} (k : kind) : result A :=
  Raise (RuntimeError ("unimplemented expression type: " +:+ class_repr k)).

(** [class CppCode]: the kind of the node it was lowered from, the value
    identifier, and the ordered (declaration, operation) pairs. *)
Record CppCode : Type := mkCppCode {
  typ : kind;
  code : string;
  decls : list (string * string)
}.

(** Modelled from the spec: a formal parameter of a Lambda. The data
    model makes it an identifier, the Variable node [VarExp(name)];
    [halt] is built with the lowered Variable fragment
    [CppCode(VarExp, name, [])] in that place. *)
Inductive param : Type :=
| ParamVar (name : string)
| ParamCpp (c : CppCode).

(** [str(arg)] of a formal parameter: the name of the Variable node
    (modelled from the spec), the [code] of the fragment ([__str__] of
    [CppCode]). *)
Definition param_str (a : param) : string :=
  match a with
  | ParamVar x => x
  | ParamCpp c => code c
  end.

(** The names that subtracting [set(exp.argExps)] takes out of a set of
    Variable nodes: those of the parameters that are Variable nodes. A
    [CppCode] object defines no equality, so it equals no member of such
    a set. *)
Fixpoint param_vars (args : list param) : list string :=
  match args with
  | [] => []
  | ParamVar x :: args' => x :: param_vars args'
  | ParamCpp _ :: args' => param_vars args'
  end.

#[local] Unset Elimination Schemes.
Inductive exp : Type :=
| VarExp (name : string)
| NumExp (val : Z)
| BoolExp (val : bool)
| StrExp (val : string)
| VoidExp
| LamExp (name : string) (argExps : list param) (bodyExp : exp)
| AppExp (funcExp : exp) (argExps : list exp)
| IfExp (condExp thenExp elseExp : exp)
| LetRecExp (bindings : list (string * exp)) (bodyExp : exp)
| BeginExp (exps : list exp)
| SetExp (varExp : string) (valExp : exp)
| SetThenExp (varExp : string) (valExp thenExp : exp)
| Cpp (c : CppCode).
#[local] Set Elimination Schemes.

(** [type(exp)] *)
Definition type_of (e : exp) : kind :=
  match e with
  | VarExp _ => KVarExp
  | NumExp _ => KNumExp
  | BoolExp _ => KBoolExp
  | StrExp _ => KStrExp
  | VoidExp => KVoidExp
  | LamExp _ _ _ => KLamExp
  | AppExp _ _ => KAppExp
  | IfExp _ _ _ => KIfExp
  | LetRecExp _ _ => KLetRecExp
  | BeginExp _ => KBeginExp
  | SetExp _ _ => KSetExp
  | SetThenExp _ _ _ => KSetThenExp
  | Cpp _ => KCppCode
  end.

(** Modelled from the spec: the [map] method of the node classes, one
    post-order traversal in evaluation order: the children of a node are
    rebuilt first (callee before arguments, bindings before the body),
    then the visitor is applied to the node made of the rebuilt children.
    [CppCode.map] is in the source: [f(self)]. The visitor threads its
    state [S] (the Python visitors mutate captured variables) and may
    raise. *)
Section Map.
Context {S : Type}.
Variable f : exp -> S -> result (exp * S).

Fixpoint map_exp (e : exp) (s : S) : result (exp * S) :=
  let map_list :=
    fix map_list (es : list exp) (s : S) : result (list exp * S) :=
      match es with
      | [] => Ok ([], s)
      | e1 :: es' =>
          rbind (map_exp e1 s) (fun '(e1', s1) =>
          rbind (map_list es' s1) (fun '(es'', s2) =>
          Ok (e1' :: es'', s2)))
      end in
  let map_bindings :=
    fix map_bindings (bs : list (string * exp)) (s : S)
        : result (list (string * exp) * S) :=
      match bs with
      | [] => Ok ([], s)
      | (x, e1) :: bs' =>
          rbind (map_exp e1 s) (fun '(e1', s1) =>
          rbind (map_bindings bs' s1) (fun '(bs'', s2) =>
          Ok ((x, e1') :: bs'', s2)))
      end in
  match e with
  | VarExp _ | NumExp _ | BoolExp _ | StrExp _ | VoidExp | Cpp _ => f e s
  | LamExp n args body =>
      rbind (map_exp body s) (fun '(body', s1) =>
      f (LamExp n args body') s1)
  | AppExp fn args =>
      rbind (map_exp fn s) (fun '(fn', s1) =>
      rbind (map_list args s1) (fun '(args', s2) =>
      f (AppExp fn' args') s2))
  | IfExp c t e' =>
      rbind (map_exp c s) (fun '(c', s1) =>
      rbind (map_exp t s1) (fun '(t', s2) =>
      rbind (map_exp e' s2) (fun '(e'', s3) =>
      f (IfExp c' t' e'') s3)))
  | LetRecExp bs body =>
      rbind (map_bindings bs s) (fun '(bs', s1) =>
      rbind (map_exp body s1) (fun '(body', s2) =>
      f (LetRecExp bs' body') s2))
  | BeginExp es =>
      rbind (map_list es s) (fun '(es', s1) =>
      f (BeginExp es') s1)
  | SetExp x v =>
      rbind (map_exp v s) (fun '(v', s1) =>
      f (SetExp x v') s1)
  | SetThenExp x v t =>
      rbind (map_exp v s) (fun '(v', s1) =>
      rbind (map_exp t s1) (fun '(t', s2) =>
      f (SetThenExp x v' t') s2))
  end.

(** The two list traversals, named. *)
Fixpoint map_list (es : list exp) (s : S) : result (list exp * S) :=
  match es with
  | [] => Ok ([], s)
  | e1 :: es' =>
      rbind (map_exp e1 s) (fun '(e1', s1) =>
      rbind (map_list es' s1) (fun '(es'', s2) =>
      Ok (e1' :: es'', s2)))
  end.

Fixpoint map_bindings (bs : list (string * exp)) (s : S)
    : result (list (string * exp) * S) :=
  match bs with
  | [] => Ok ([], s)
  | (x, e1) :: bs' =>
      rbind (map_exp e1 s) (fun '(e1', s1) =>
      rbind (map_bindings bs' s1) (fun '(bs'', s2) =>
      Ok ((x, e1') :: bs'', s2)))
  end.
End Map.

(** ** Free-variable analysis *)

(** The state of one [compute_holes] run: the running set [holes] shared
    by the whole traversal and the dictionary [holes_dict], keyed by
    Lambda identity. *)
Definition holes_state : Type := gset string * gmap string (list string).

Definition find_holes (e : exp) (st : holes_state) : result (exp * holes_state) :=
  let '(holes, holes_dict) := st in
  match e with
  | LamExp n args _ =>
      Ok (e, (holes ∖ list_to_set (param_vars args),
              <[n := elements (holes ∖ list_to_set (param_vars args))]> holes_dict))
  | VarExp x =>
      if negb (is_primop x) then Ok (e, ({[x]} ∪ holes, holes_dict))
      else Ok (e, st)
  | _ => Ok (e, st)
  end.

Definition compute_holes (rootExp : exp) : result (gmap string (list string)) :=
  rbind (map_exp find_holes rootExp (∅, ∅)) (fun '(_, (_, holes_dict)) =>
  Ok holes_dict).

(** ** Generated code fragments *)

(** [CppCode.decls_ops]: the declarations and the operations of the pairs,
    each joined by line feeds, empty texts skipped. *)
Definition decls_ops (c : CppCode) : string * string :=
  (join nl (filter (fun d => nonempty d = true) (map fst (decls c))),
   join nl (filter (fun o => nonempty o = true) (map snd (decls c)))).

(** [declare(var, construct=True)] *)
Definition declare (var : string) : string :=
  "SCHEMETYPE_T " +:+ var +:+ "(new schemetype_t)" +:+ ";".

(** A child of a rebuilt node is a [CppCode]; reading [decls], [typ] or
    [decls_ops] of anything else is an attribute error. *)
Definition as_cpp (e : exp) : result CppCode :=
  match e with
  | Cpp c => Ok c
  | _ => Raise AttributeError
  end.

Fixpoint all_cpp (es : list exp) : result (list CppCode) :=
  match es with
  | [] => Ok []
  | e :: es' =>
      rbind (as_cpp e) (fun c =>
      rbind (all_cpp es') (fun cs => Ok (c :: cs)))
  end.

(** ** Lambda lifter *)

Module LambdaGenCpp.

(** [holes]: the analyzer's map; [_decls]: the [OrderedDict] of
    generated (class declaration, call operator) texts in first-seen
    order, keyed by Lambda identity; [nargs]: the observed arities. *)
Record t : Type := mk {
  holes : gmap string (list string);
  _decls : list (string * (string * string));
  nargs : gset nat
}.

Definition init (e : exp) : result t :=
  rbind (compute_holes e) (fun h => Ok (mk h [] ∅)).

Fixpoint od_get (d : list (string * (string * string))) (k : string)
    : option (string * string) :=
  match d with
  | [] => None
  | (k', v) :: d' => if String.eqb k k' then Some v else od_get d' k
  end.

Definition od_has (d : list (string * (string * string))) (k : string) : bool :=
  match od_get d k with Some _ => true | None => false end.

(** [d[k] = v] on an [OrderedDict]: a present key keeps its place. *)
Fixpoint od_set (d : list (string * (string * string))) (k : string)
    (v : string * string) : list (string * (string * string)) :=
  match d with
  | [] => [(k, v)]
  | (k', v') :: d' =>
      if String.eqb k k' then (k', v) :: d' else (k', v') :: od_set d' k v
  end.

Definition apply_args_of (args : list string) : string :=
  join ", " (map (fun arg => "SCHEMETYPE_T " +:+ arg) args).

Definition class_decl (cls : string) (hs : list string) (apply_args : string) : string :=
  "class " +:+ cls +:+ " : public lambda_t {" +:+ nl +:+
  " public:" +:+ nl +:+
  "  " +:+ cls +:+ "(" +:+ join ", " (map (fun h => "SCHEMETYPE_T " +:+ h) hs) +:+ ") : "
       +:+ join ", " (map (fun h => h +:+ "(" +:+ h +:+ ")") hs) +:+ " { }" +:+ nl +:+
  "  ~" +:+ cls +:+ "() { };" +:+ nl +:+
  "  THUNK_T operator()(" +:+ apply_args +:+ ") const;" +:+ nl +:+
  " private:" +:+ nl +:+
  "  " +:+ join (nl +:+ "  ") (map (fun h => "SCHEMETYPE_T " +:+ h +:+ ";") hs) +:+ nl +:+
  "};".

Definition class_op (cls apply_args ds os body : string) : string :=
  "THUNK_T " +:+ cls +:+ "::operator()(" +:+ apply_args +:+ ") const {" +:+ nl +:+
  "  " +:+ ds +:+ nl +:+
  "  " +:+ os +:+ nl +:+
  "  " +:+ ("return " +:+ body +:+ ";") +:+ nl +:+
  "}".

(** [__getitem__(exp)] for a Lambda [name], the texts [argExps] of its
    parameters ([str(arg)] of each) and an already lowered body. *)
Definition getitem (self : t) (name : string) (argExps : list string)
    (bodyExp : exp) : result (string * t) :=
  if negb (od_has (_decls self) name) then
    let nargs' := {[length argExps]} ∪ nargs self in
    match holes self !! name with
    | None => Raise (KeyError name)
    | Some hs =>
        rbind (as_cpp bodyExp) (fun body =>
        let '(ds, os) := decls_ops body in
        let apply_args := apply_args_of argExps in
        Ok (name,
            mk (holes self)
               (od_set (_decls self) name
                  (class_decl name hs apply_args,
                   class_op name apply_args ds os (code body)))
               nargs'))
    end
  else Ok (name, self).

(** [min(self.nargs)] and [max(self.nargs)]; both raise on an empty set. *)
Definition min_nargs (self : t) : result nat :=
  match elements (nargs self) with
  | [] => Raise ValueError
  | n :: ns => Ok (foldr Nat.min n ns)
  end.

Definition max_nargs (self : t) : result nat :=
  match elements (nargs self) with
  | [] => Raise ValueError
  | n :: ns => Ok (foldr Nat.max n ns)
  end.

(** [range(lo, hi + 1)] *)
Definition arities (lo hi : nat) : list nat := seq lo (hi + 1 - lo).

Definition virtual_sig (i : nat) : string :=
  "THUNK_T operator()(" +:+ join ", " (replicate i "SCHEMETYPE_T") +:+ ") const;".

Definition base_decl (lo hi : nat) : string :=
  "class lambda_t {" +:+ nl +:+
  " public:" +:+ nl +:+
  "  " +:+ join (nl +:+ "  ") (map virtual_sig (arities lo hi)) +:+ nl +:+
  "};" +:+ nl.

Definition default_op (i : nat) : string :=
  "THUNK_T lambda_t::operator()("
    +:+ join ", " (map (fun j => "SCHEMETYPE_T _" +:+ pretty j) (seq 0 i))
    +:+ ") const {" +:+ nl +:+
  "  printf(" +:+ dq +:+ "error: lambda called with an improper number of arguments"
    +:+ bs +:+ "n" +:+ dq +:+ ");" +:+ nl +:+
  "  exit(-1);" +:+ nl +:+
  "}" +:+ nl.

Definition base_op (lo hi : nat) : string :=
  foldr String.append "" (map default_op (arities lo hi)).

(** The [decls_ops] property. *)
Definition decls_ops (self : t) : result (string * string) :=
  rbind (min_nargs self) (fun lo =>
  rbind (max_nargs self) (fun hi =>
  let ds := map (fun kv => fst (snd kv)) (_decls self) in
  let os := map (fun kv => snd (snd kv)) (_decls self) in
  Ok (base_decl lo hi +:+ join nl (filter (fun d => nonempty d = true) ds),
      base_op lo hi +:+ join nl (filter (fun o => nonempty o = true) os)))).

End LambdaGenCpp.

(** ** The halt continuation *)

(** The operation of [halt]: a [switch] on the tag of [arg], then
    [exit(retval)]. *)
Definition halt_op (arg : string) : string :=
  "switch(" +:+ arg +:+ "->type) {" +:+ nl +:+
  " case " +:+ NUM +:+ ":" +:+ nl +:+
  "  printf(" +:+ dq +:+ "%ld" +:+ bs +:+ "n" +:+ dq +:+ ", " +:+ arg +:+ "->num);" +:+ nl +:+
  " case " +:+ LAM +:+ ":" +:+ nl +:+
  "  printf(" +:+ dq +:+ "you want to return a lambda?! really?!" +:+ bs +:+ "n" +:+ dq +:+ ");" +:+ nl +:+
  " case " +:+ STR +:+ ":" +:+ nl +:+
  "  printf(" +:+ dq +:+ "%s" +:+ bs +:+ "n" +:+ dq +:+ ", " +:+ arg +:+ "->str->c_str());" +:+ nl +:+
  " default:" +:+ nl +:+
  "  printf(" +:+ dq +:+ "error" +:+ bs +:+ "n" +:+ dq +:+ ");" +:+ nl +:+
  "  retval = -1;" +:+ nl +:+
  "}" +:+ nl +:+
  "exit(retval);".

(** [halt]: a Lambda whose one parameter and whose body are lowered
    already. [name] is the Lambda's own name and [_tmp] the name of the
    parameter; both are drawn from [gensym] when the module is loaded. *)
Definition halt (name _tmp : string) : exp :=
  LamExp name [ParamCpp (mkCppCode KVarExp _tmp [])]
    (Cpp (mkCppCode KLamExp "THUNK_T(nullptr)" [("int retval = 0;", halt_op _tmp)])).

(** ** Expression lowering *)

(** The state of one compilation: the next [gensym] number and the lambda
    lifter. *)
Record lower_state : Type := mkState {
  gensym_next : nat;
  lambda_gen : LambdaGenCpp.t
}.

(** Modelled from the spec: [gensym], the opaque fresh-name service of
    [schemec.types]: each call returns the prefix followed by a number
    never handed out before. *)
Definition gensym (prefix : string) (st : lower_state) : string * lower_state :=
  (prefix +:+ pretty (gensym_next st),
   mkState (S (gensym_next st)) (lambda_gen st)).

(** [str.upper] and [str.lower] on ASCII text. *)
Definition upper_char (c : ascii) : ascii :=
  let n := nat_of_ascii c in
  if (97 <=? n)%nat && (n <=? 122)%nat then ascii_of_nat (n - 32) else c.

Definition lower_char (c : ascii) : ascii :=
  let n := nat_of_ascii c in
  if (65 <=? n)%nat && (n <=? 90)%nat then ascii_of_nat (n + 32) else c.

Fixpoint str_map (f : ascii -> ascii) (s : string) : string :=
  match s with
  | EmptyString => EmptyString
  | String c s' => String (f c) (str_map f s')
  end.

Definition str_upper : string -> string := str_map upper_char.
Definition str_lower : string -> string := str_map lower_char.

(** The operation text of a literal slot. *)
Definition literal_op (var ty val : string) : string :=
  var +:+ "->type = " +:+ str_upper ty +:+ ";" +:+ nl +:+
  var +:+ "->" +:+ str_lower ty +:+ " = " +:+ val +:+ ";".

Definition lambda_op (var cls : string) (hs : list string) : string :=
  var +:+ "->lam = LAMBDA_T(new " +:+ cls +:+ "(" +:+ join ", " hs +:+ "));".

Definition thunk_decl (var : string) : string :=
  "THUNK_T " +:+ var +:+ "(nullptr);".

Definition prim_app_op (prim ty body var func : string) : string :=
  prim +:+ "->type = " +:+ ty +:+ ";" +:+ nl +:+
  body +:+ nl +:+
  var +:+ " = std::move((*" +:+ func +:+ "->lam)(" +:+ prim +:+ "));".

Definition app_op (var func : string) (args : list string) : string :=
  var +:+ " = std::move((*" +:+ func +:+ "->lam)(" +:+ join ", " args +:+ "));".

Definition if_op (cond then_decls then_ops var then_ else_decls else_ops else_ : string)
    : string :=
  "if (" +:+ cond +:+ "->num) {" +:+ nl +:+
  "  " +:+ then_decls +:+ nl +:+
  "  " +:+ then_ops +:+ nl +:+
  "  " +:+ var +:+ " = std::move(" +:+ then_ +:+ ");" +:+ nl +:+
  "}" +:+ nl +:+
  "else {" +:+ nl +:+
  "  " +:+ else_decls +:+ nl +:+
  "  " +:+ else_ops +:+ nl +:+
  "  " +:+ var +:+ " = std::move(" +:+ else_ +:+ ");" +:+ nl +:+
  "}".

Definition letrec_op (var body : string) : string :=
  var +:+ " = std::move(" +:+ body +:+ ");".

(** The pairs contributed by the bindings of a recursive-binding block:
    for each binding, the pairs of its value, then the pair that declares
    and assigns the bound identifier. *)
Fixpoint letrec_decls (bs : list (string * exp)) : result (list (string * string)) :=
  match bs with
  | [] => Ok []
  | (var, body) :: bs' =>
      rbind (as_cpp body) (fun b =>
      rbind (letrec_decls bs') (fun rest =>
      Ok (decls b ++ [(declare var, letrec_op var (code b))] ++ rest)))
  end.

(** [exp.argExps[:-1]] and [exp.argExps[-1]] *)
Definition all_but_last {A} (l : list A) : list A := removelast l.
Definition last_item {A} (l : list A) : result A :=
  match last l with
  | Some a => Ok a
  | None => Raise IndexError
  end.

Section ToCpp.
(** [holes], computed by [gen_cpp] before the traversal. *)
Variable holes : gmap string (list string).

(** [to_cpp(exp)], the visitor of [gen_cpp], applied to a node whose
    children are lowered already. *)
Definition to_cpp (e : exp) (st : lower_state) : result (exp * lower_state) :=
  match e with
  | VarExp name => Ok (Cpp (mkCppCode KVarExp name []), st)
  | NumExp _ | BoolExp _ | StrExp _ =>
      let '(val, sym, ty) :=
        match e with
        | NumExp v => (pretty v, "__num_", NUM)
        | BoolExp v => ((if v then "1" else "0"), "__bool_", NUM)
        | StrExp v => (dq +:+ v +:+ dq, "__str_", STR)
        | _ => ("", "", "")
        end in
      let '(tmp, st1) := gensym sym st in
      let decl := (declare tmp, literal_op tmp ty val) in
      Ok (Cpp (mkCppCode (type_of e) tmp [decl]), st1)
  | VoidExp => unimplemented KVoidExp
  | LamExp name argExps bodyExp =>
      rbind (LambdaGenCpp.getitem (lambda_gen st) name (map param_str argExps) bodyExp)
        (fun '(cls, lg) =>
      let '(tmp, st1) := gensym "__lam_" (mkState (gensym_next st) lg) in
      match holes !! name with
      | None => Raise (KeyError name)
      | Some hs =>
          let decl := (declare tmp, lambda_op tmp cls hs) in
          Ok (Cpp (mkCppCode KLamExp tmp [decl]), st1)
      end)
  | AppExp funcExp argExps =>
      rbind (all_cpp argExps) (fun args =>
      rbind (as_cpp funcExp) (fun func =>
      let decls0 := concat (map decls args) ++ decls func in
      let '(tmp, st1) := gensym "__ret_" st in
      if is_primop (code func) then
        let '(prim, st2) := gensym "__prim_" st1 in
        rbind (gen_primop (code func) prim (map code (all_but_last args)))
          (fun '(ty, body) =>
        rbind (last_item args) (fun k =>
        let decl := (declare prim +:+ nl +:+ thunk_decl tmp,
                     prim_app_op prim ty body tmp (code k)) in
        Ok (Cpp (mkCppCode KAppExp tmp (decls0 ++ [decl])), st2)))
      else if decide (typ func = KVarExp) then
        let decl := (thunk_decl tmp, app_op tmp (code func) (map code args)) in
        Ok (Cpp (mkCppCode KAppExp tmp (decls0 ++ [decl])), st1)
      else
        Raise (RuntimeError ("AppExp unimplemented for funcExp of type: "
                             +:+ class_repr (typ func)))))
  | IfExp condExp thenExp elseExp =>
      rbind (as_cpp condExp) (fun c =>
      rbind (as_cpp thenExp) (fun t =>
      rbind (as_cpp elseExp) (fun e' =>
      let '(then_decls, then_ops) := decls_ops t in
      let '(else_decls, else_ops) := decls_ops e' in
      let '(tmp, st1) := gensym "__ret_" st in
      let decl := (thunk_decl tmp,
                   if_op (code c) then_decls then_ops tmp (code t)
                         else_decls else_ops (code e')) in
      Ok (Cpp (mkCppCode KIfExp tmp (decls c ++ [decl])), st1))))
  | LetRecExp bindings bodyExp =>
      rbind (letrec_decls bindings) (fun ds =>
      rbind (as_cpp bodyExp) (fun b =>
      Ok (Cpp (mkCppCode KLetRecExp (code b) (ds ++ decls b)), st)))
  | BeginExp _ => unimplemented KBeginExp
  | SetExp _ _ => unimplemented KSetExp
  | SetThenExp _ _ _ => unimplemented KSetThenExp
  | Cpp c => Ok (Cpp c, st)
  end.
End ToCpp.

(** ** The emitter *)

(** The output unit. The template is indented by seven columns at its
    shallowest line, so after [dedent] every other line keeps one
    leading blank. *)
Definition emit (lambda_decls lambda_ops main_decls main_ops body : string) : string :=
  " #include <cstdio>" +:+ nl +:+
  " #include <cstdlib>" +:+ nl +:+
  " #include <memory>" +:+ nl +:+
  " #include <string>" +:+ nl +:+
  " enum type_t { " +:+ join ", " TYPES +:+ " };" +:+ nl +:+
  " // forward decls -----------------------------------------------------------------------------------" +:+ nl +:+
  " class lambda_t;" +:+ nl +:+
  " class schemetype_t;" +:+ nl +:+
  " class thunk_t;" +:+ nl +:+
  " #define LAMBDA_T std::shared_ptr<lambda_t>" +:+ nl +:+
  " #define SCHEMETYPE_T std::shared_ptr<schemetype_t>" +:+ nl +:+
  " #define THUNK_T std::unique_ptr<thunk_t>" +:+ nl +:+
  " // lambda_t decl -----------------------------------------------------------------------------------" +:+ nl +:+
  " " +:+ lambda_decls +:+ nl +:+
  "  // schemetype_t decl -------------------------------------------------------------------------------" +:+ nl +:+
  " class schemetype_t {" +:+ nl +:+
  "  public:" +:+ nl +:+
  "   union {" +:+ nl +:+
  "     long num;" +:+ nl +:+
  "     LAMBDA_T lam;" +:+ nl +:+
  "     std::shared_ptr<std::string> str;" +:+ nl +:+
  "     type_t type;" +:+ nl +:+
  "   };" +:+ nl +:+
  "   schemetype_t();" +:+ nl +:+
  "   ~schemetype_t();" +:+ nl +:+
  " };" +:+ nl +:+
  "// thunk_t decl ------------------------------------------------------------------------------------" +:+ nl +:+
  " class thunk_t {" +:+ nl +:+
  "  public:" +:+ nl +:+
  "   thunk_t(LAMBDA_T);" +:+ nl +:+
  "   ~thunk_t();" +:+ nl +:+
  "   THUNK_T operator()() const;" +:+ nl +:+
  "  private:" +:+ nl +:+
  "   LAMBDA_T next;" +:+ nl +:+
  " };" +:+ nl +:+
  " // lambda_t impl -----------------------------------------------------------------------------------" +:+ nl +:+
  " " +:+ lambda_ops +:+ nl +:+
  " // schemetype_t impl -------------------------------------------------------------------------------" +:+ nl +:+
  " schemetype_t::schemetype_t() { }" +:+ nl +:+
  " schemetype_t::~schemetype_t() {" +:+ nl +:+
  "   lam.reset();" +:+ nl +:+
  "   str.reset();" +:+ nl +:+
  " }" +:+ nl +:+
  " // thunk_t impl ------------------------------------------------------------------------------------" +:+ nl +:+
  " thunk_t::thunk_t(LAMBDA_T next) : next(next) { }" +:+ nl +:+
  " thunk_t::~thunk_t() { next.reset(); }" +:+ nl +:+
  " THUNK_T thunk_t::operator()() const { return (*next)(); }" +:+ nl +:+
  " // main --------------------------------------------------------------------------------------------" +:+ nl +:+
  " int main() {" +:+ nl +:+
  "   " +:+ main_decls +:+ nl +:+
  "   " +:+ main_ops +:+ nl +:+
  "   // trampoline" +:+ nl +:+
  "   while (true) {" +:+ nl +:+
  "     " +:+ body +:+ " = std::move((*" +:+ body +:+ ")());" +:+ nl +:+
  "   }" +:+ nl +:+
  "   return 0;" +:+ nl +:+
  " }" +:+ nl.

(** The lowering pass of [gen_cpp]: both analyses, then the traversal.
    [n0] is the state of [gensym] when the compilation starts. *)
Definition lower_tree (exp : exp) (n0 : nat) : result (CppCode * lower_state) :=
  rbind (compute_holes exp) (fun holes =>
  rbind (LambdaGenCpp.init exp) (fun lambda_gen =>
  rbind (map_exp (to_cpp holes) exp (mkState n0 lambda_gen)) (fun '(body, st) =>
  rbind (as_cpp body) (fun body => Ok (body, st))))).

Definition gen_cpp (exp : exp) (n0 : nat) : result string :=
  rbind (lower_tree exp n0) (fun '(body, st) =>
  let '(main_decls, main_ops) := decls_ops body in
  rbind (LambdaGenCpp.decls_ops (lambda_gen st)) (fun '(lambda_decls, lambda_ops) =>
  Ok (emit lambda_decls lambda_ops main_decls main_ops (code body)))).

(** ** The cosmetic post-processor

    Text is read as a sequence of code points below 256; line
    boundaries, white space and letter case are those Python assigns to
    these code points. *)

(** [str.isspace] on one character. *)
Definition is_space (c : ascii) : bool :=
  let n := nat_of_ascii c in
  ((9 <=? n)%nat && (n <=? 13)%nat) || ((28 <=? n)%nat && (n <=? 32)%nat)
  || Nat.eqb n 133 || Nat.eqb n 160.

(** The line boundaries of [str.splitlines], the carriage return
    apart. *)
Definition is_line_end (c : ascii) : bool :=
  let n := nat_of_ascii c in
  ((10 <=? n)%nat && (n <=? 12)%nat) || ((28 <=? n)%nat && (n <=? 30)%nat)
  || Nat.eqb n 133.

(** [str.splitlines()]: a carriage return followed by a line feed is
    one boundary; text after the last boundary is a line only when it is
    not empty. [cur] is the line being read. *)
Fixpoint splitlines_from (cur : string) (s : string) : list string :=
  match s with
  | EmptyString => if nonempty cur then [cur] else []
  | String c s' =>
      if Nat.eqb (nat_of_ascii c) 13 then
        match s' with
        | String c2 s'' =>
            if Nat.eqb (nat_of_ascii c2) 10 then cur :: splitlines_from "" s''
            else cur :: splitlines_from "" s'
        | EmptyString => [cur]
        end
      else if is_line_end c then cur :: splitlines_from "" s'
      else splitlines_from (cur +:+ String c "") s'
  end.

Definition splitlines (s : string) : list string := splitlines_from "" s.

(** [str.strip()] *)
Fixpoint lstrip (s : string) : string :=
  match s with
  | EmptyString => EmptyString
  | String c s' => if is_space c then lstrip s' else s
  end.

Fixpoint rstrip (s : string) : string :=
  match s with
  | EmptyString => EmptyString
  | String c s' =>
      match rstrip s' with
      | EmptyString => if is_space c then EmptyString else String c EmptyString
      | r => String c r
      end
  end.

Definition strip (s : string) : string := rstrip (lstrip s).

(** [str.lower()] on code points below 256. *)
Definition latin1_lower_char (c : ascii) : ascii :=
  let n := nat_of_ascii c in
  if (65 <=? n)%nat && (n <=? 90)%nat then ascii_of_nat (n + 32)
  else if (192 <=? n)%nat && (n <=? 222)%nat && negb (Nat.eqb n 215)
       then ascii_of_nat (n + 32)
  else c.

Definition latin1_lower : string -> string := str_map latin1_lower_char.

(** [' ' * n] *)
Definition spaces (n : Z) : string :=
  foldr String.append "" (replicate (Z.to_nat n) " ").

Definition TERMINATORS : list ascii := [" "%char; "009"%char; ":"%char].

(** [len(line) >= n and line[:n].lower() == word and line[n] in
    TERMINATORS]: the index is read only when the first two tests hold,
    and is out of range when the line is exactly [n] long. *)
Definition label_with_terminator (line word : string) : result bool :=
  let n := String.length word in
  if (n <=? String.length line)%nat
     && String.eqb (latin1_lower (String.substring 0 n line)) word then
    match String.get n line with
    | Some c => Ok (bool_decide (c ∈ TERMINATORS))
    | None => Raise IndexError
    end
  else Ok false.

(** The condition that selects the half-step dedent. *)
Definition is_label (line : string) : result bool :=
  if (5 <=? String.length line)%nat
     && String.eqb (latin1_lower (String.substring 0 5 line)) "case " then Ok true
  else
    rbind (label_with_terminator line "public") (fun b1 =>
    if b1 then Ok true else
    rbind (label_with_terminator line "default") (fun b2 =>
    if b2 then Ok true else
    label_with_terminator line "private")).

(** The braces of a text: each opening brace adds one to [indent], each
    closing brace takes one away. *)
Fixpoint count_braces (s : string) (indent : Z) : Z :=
  match s with
  | EmptyString => indent
  | String c s' =>
      if Ascii.eqb c "{"%char then count_braces s' (indent + 1)%Z
      else if Ascii.eqb c "}"%char then count_braces s' (indent - 1)%Z
      else count_braces s' indent
  end.

Definition starts_with_closing (line : string) : bool :=
  match line with
  | String c _ => Ascii.eqb c "}"%char
  | EmptyString => false
  end.

(** One turn of the loop on a line: the new text of the line and the
    new [indent]. *)
Definition pretty_line (nspace : Z) (raw : string) (indent : Z) : result (string * Z) :=
  let line := strip raw in
  let '(indent1, rest) :=
    if starts_with_closing line
    then ((indent - 1)%Z, String.substring 1 (String.length line - 1) line)
    else (indent, line) in
  rbind (is_label line) (fun lab =>
  let prefix :=
    if lab then spaces (nspace * indent1 - nspace / 2)%Z else spaces (nspace * indent1)%Z in
  Ok (prefix +:+ line, count_braces rest indent1)).

Fixpoint pretty_lines (nspace : Z) (raws : list string) (indent : Z)
    : result (list string) :=
  match raws with
  | [] => Ok []
  | raw :: raws' =>
      rbind (pretty_line nspace raw indent) (fun '(out, indent') =>
      rbind (pretty_lines nspace raws' indent') (fun outs => Ok (out :: outs)))
  end.

Definition pretty_cpp (code : string) (nspace : Z) : result string :=
  rbind (pretty_lines nspace (splitlines code) 0%Z) (fun outs => Ok (join nl outs)).

(** ** Notions used to state the properties *)

(** *** Operand counts the registry accepts

    [accepts op n]: the table [gen_primop] dispatches [op] to has an
    entry for [op] at [n] operands. *)
Definition accepts (op : string) (n : nat) : bool :=
  if NumPrimOps.contains op then
    (Nat.eqb n 1 && dict_has NumPrimOps.unary_ops op)
    || (Nat.eqb n 2 && dict_has NumPrimOps.binary_ops op)
  else StrPrimOps.contains op && Nat.eqb n 2.

(** A failure with one of the two "unimplemented primitive" messages. *)
Definition unimplemented_primitive {A} (r : result A) : Prop :=
  exists msg, r = Raise (RuntimeError msg)
              /\ String.prefix "unimplemented primitive" msg = true.

(** *** The text a C++ string literal denotes

    [c_literal_value lit] reads [lit] as a C++ string literal: an opening
    quote, then characters up to the first unescaped quote, a backslash
    taking the next character as an escape. What follows the closing
    quote is not part of the literal. *)
Definition unescape (c : ascii) : ascii :=
  if Ascii.eqb c "n"%char then "010"%char
  else if Ascii.eqb c "t"%char then "009"%char
  else if Ascii.eqb c "0"%char then "000"%char
  else c.

Fixpoint c_literal_body (s : string) : option string :=
  match s with
  | EmptyString => None
  | String c s' =>
      if Ascii.eqb c "034"%char then Some EmptyString
      else if Ascii.eqb c "092"%char then
        match s' with
        | EmptyString => None
        | String e s'' => option_map (String (unescape e)) (c_literal_body s'')
        end
      else if Ascii.eqb c "010"%char then None
      else option_map (String c) (c_literal_body s')
  end.

Definition c_literal_value (lit : string) : option string :=
  match lit with
  | EmptyString => None
  | String c s => if Ascii.eqb c "034"%char then c_literal_body s else None
  end.

(** Text without quote, backslash or line feed. *)
Fixpoint plain (s : string) : bool :=
  match s with
  | EmptyString => true
  | String c s' =>
      negb (Ascii.eqb c "034"%char) && negb (Ascii.eqb c "092"%char)
      && negb (Ascii.eqb c "010"%char) && plain s'
  end.

(** [sub in s] on text. *)
Fixpoint occurs (sub s : string) : bool :=
  String.prefix sub s ||
  match s with
  | EmptyString => false
  | String _ s' => occurs sub s'
  end.

(** *** The emitted [switch] of [halt], as a statement tree

    A model of the C++ statement the halt operation consists of: labelled
    sections of statements, run from the selected label onwards until a
    [Break] or the end of the [switch] (C++ falls through from one
    section into the next), followed by [exit(retval)]. *)
Module HaltRuntime.

(** The tag found in the [type] field of the argument; [Other] is any
    value that is none of the three enumerators. *)
Inductive tag : Type := Number | Closure | Text | Other.

Definition enumerator (t : tag) : option string :=
  match t with
  | Number => Some NUM
  | Closure => Some LAM
  | Text => Some STR
  | Other => None
  end.

Inductive label : Type := Case (enum : string) | Default.

Inductive stmt : Type :=
| PrintfNum                  (* printf("%ld\n", arg->num); *)
| PrintfStr                  (* printf("%s\n", arg->str->c_str()); *)
| PrintfText (line : string) (* printf("line\n"); *)
| SetRetval (v : Z)          (* retval = v; *)
| Break.                     (* break; *)

Definition render_stmt (arg : string) (st : stmt) : string :=
  match st with
  | PrintfNum =>
      "printf(" +:+ dq +:+ "%ld" +:+ bs +:+ "n" +:+ dq +:+ ", " +:+ arg +:+ "->num);"
  | PrintfStr =>
      "printf(" +:+ dq +:+ "%s" +:+ bs +:+ "n" +:+ dq +:+ ", " +:+ arg +:+ "->str->c_str());"
  | PrintfText line =>
      "printf(" +:+ dq +:+ line +:+ bs +:+ "n" +:+ dq +:+ ");"
  | SetRetval v => "retval = " +:+ pretty v +:+ ";"
  | Break => "break;"
  end.

Definition render_label (l : label) : string :=
  match l with
  | Case enum => " case " +:+ enum +:+ ":"
  | Default => " default:"
  end.

Fixpoint render_stmts (arg : string) (sts : list stmt) : string :=
  match sts with
  | [] => ""
  | st :: sts' => "  " +:+ render_stmt arg st +:+ nl +:+ render_stmts arg sts'
  end.

Fixpoint render_sections (arg : string) (secs : list (label * list stmt)) : string :=
  match secs with
  | [] => ""
  | (l, sts) :: secs' =>
      render_label l +:+ nl +:+ render_stmts arg sts +:+ render_sections arg secs'
  end.

Definition render (arg : string) (secs : list (label * list stmt)) : string :=
  "switch(" +:+ arg +:+ "->type) {" +:+ nl +:+
  render_sections arg secs +:+
  "}" +:+ nl +:+
  "exit(retval);".

(** What the process prints. *)
Inductive output : Type :=
| PrintedNum                 (* the integer payload *)
| PrintedStr                 (* the text payload *)
| Printed (line : string).

Definition selects (l : label) (t : tag) : bool :=
  match l, enumerator t with
  | Case enum, Some e => String.eqb enum e
  | _, _ => false
  end.

Definition is_default (l : label) : bool :=
  match l with Default => true | Case _ => false end.

(** The sections from the first one whose label satisfies [p]. *)
Fixpoint from_label (p : label -> bool) (secs : list (label * list stmt))
    : option (list (label * list stmt)) :=
  match secs with
  | [] => None
  | (l, sts) :: secs' =>
      if p l then Some secs else from_label p secs'
  end.

(** Run statements in sequence; [true] in the result means a [Break]
    was met. *)
Fixpoint run_stmts (sts : list stmt) (out : list output) (retval : Z)
    : list output * Z * bool :=
  match sts with
  | [] => (out, retval, false)
  | PrintfNum :: sts' => run_stmts sts' (out ++ [PrintedNum]) retval
  | PrintfStr :: sts' => run_stmts sts' (out ++ [PrintedStr]) retval
  | PrintfText line :: sts' => run_stmts sts' (out ++ [Printed line]) retval
  | SetRetval v :: sts' => run_stmts sts' out v
  | Break :: _ => (out, retval, true)
  end.

Fixpoint run_sections (secs : list (label * list stmt)) (out : list output)
    (retval : Z) : list output * Z :=
  match secs with
  | [] => (out, retval)
  | (_, sts) :: secs' =>
      let '(out', retval', broke) := run_stmts sts out retval in
      if broke then (out', retval') else run_sections secs' out' retval'
  end.

(** [int retval = 0; switch (...) { secs } exit(retval);]: the output
    and the argument of [exit]. *)
Definition run (secs : list (label * list stmt)) (t : tag) : list output * Z :=
  let entry :=
    match from_label (fun l => selects l t) secs with
    | Some rest => rest
    | None =>
        match from_label is_default secs with
        | Some rest => rest
        | None => []
        end
    end in
  run_sections entry [] 0%Z.

(** The sections of the halt operation. *)
Definition halt_switch : list (label * list stmt) :=
  [ (Case NUM, [PrintfNum]);
    (Case LAM, [PrintfText "you want to return a lambda?! really?!"]);
    (Case STR, [PrintfStr]);
    (Default, [PrintfText "error"; SetRetval (-1)]) ].

End HaltRuntime.

(** *** Trees the lowering supports *)

(** The Lambda nodes of a tree, as (name, names of the formal
    parameters that are Variable nodes), in traversal order. *)
Fixpoint lambdas (e : exp) : list (string * list string) :=
  match e with
  | VarExp _ | NumExp _ | BoolExp _ | StrExp _ | VoidExp | Cpp _ => []
  | LamExp n args body => lambdas body ++ [(n, param_vars args)]
  | AppExp fn args => lambdas fn ++ concat (map lambdas args)
  | IfExp c t e' => lambdas c ++ lambdas t ++ lambdas e'
  | LetRecExp bs body => concat (map (fun b => lambdas (snd b)) bs) ++ lambdas body
  | BeginExp es => concat (map lambdas es)
  | SetExp _ v => lambdas v
  | SetThenExp _ v t => lambdas v ++ lambdas t
  end.

(** The Lambda nodes of a tree, as (name, formal parameters), in
    traversal order. *)
Fixpoint lambda_params (e : exp) : list (string * list param) :=
  match e with
  | VarExp _ | NumExp _ | BoolExp _ | StrExp _ | VoidExp | Cpp _ => []
  | LamExp n args body => lambda_params body ++ [(n, args)]
  | AppExp fn args => lambda_params fn ++ concat (map lambda_params args)
  | IfExp c t e' => lambda_params c ++ lambda_params t ++ lambda_params e'
  | LetRecExp bs body =>
      concat (map (fun b => lambda_params (snd b)) bs) ++ lambda_params body
  | BeginExp es => concat (map lambda_params es)
  | SetExp _ v => lambda_params v
  | SetThenExp _ v t => lambda_params v ++ lambda_params t
  end.

(** A callee the application branch handles: a variable which, when it
    names a primitive, is given an operand count (all arguments but the
    continuation) the registry accepts. *)
Definition callee_ok (fn : exp) (nargs : nat) : bool :=
  match fn with
  | VarExp x => if is_primop x then accepts x (nargs - 1) else true
  | _ => false
  end.

(** No sequence, assignment or void node, and every application has a
    callee the application branch handles. *)
Fixpoint supported (e : exp) : bool :=
  match e with
  | VarExp _ | NumExp _ | BoolExp _ | StrExp _ | Cpp _ => true
  | VoidExp | BeginExp _ | SetExp _ _ | SetThenExp _ _ _ => false
  | LamExp _ _ body => supported body
  | AppExp fn args => callee_ok fn (length args) && forallb supported args
  | IfExp c t e' => supported c && supported t && supported e'
  | LetRecExp bs body => forallb (fun b => supported (snd b)) bs && supported body
  end.

(** *** The shape of a lowered fragment

    [shape e c]: [c] is built from the fragments of the children of [e]
    the way each node kind composes them. [binding_decls] is the list a
    recursive-binding block builds from its bindings. *)
Fixpoint binding_decls (bs : list (string * CppCode)) : list (string * string) :=
  match bs with
  | [] => []
  | (var, b) :: bs' =>
      decls b ++ [(declare var, letrec_op var (code b))] ++ binding_decls bs'
  end.

Inductive shape : exp -> CppCode -> Prop :=
| shape_var x :
    shape (VarExp x) (mkCppCode KVarExp x [])
| shape_num v tmp :
    shape (NumExp v)
      (mkCppCode KNumExp tmp [(declare tmp, literal_op tmp NUM (pretty v))])
| shape_bool v tmp :
    shape (BoolExp v)
      (mkCppCode KBoolExp tmp
         [(declare tmp, literal_op tmp NUM (if v then "1" else "0"))])
| shape_str v tmp :
    shape (StrExp v)
      (mkCppCode KStrExp tmp [(declare tmp, literal_op tmp STR (dq +:+ v +:+ dq))])
| shape_lam n args body cbody tmp hs :
    shape body cbody ->
    shape (LamExp n args body)
      (mkCppCode KLamExp tmp [(declare tmp, lambda_op tmp n hs)])
| shape_prim_app fn args cf cargs k tmp prim ty body :
    shape fn cf ->
    is_primop (code cf) = true ->
    Forall2 shape args cargs ->
    last cargs = Some k ->
    gen_primop (code cf) prim (map code (all_but_last cargs)) = Ok (ty, body) ->
    shape (AppExp fn args)
      (mkCppCode KAppExp tmp
         (concat (map decls cargs) ++ decls cf ++
          [(declare prim +:+ nl +:+ thunk_decl tmp,
            prim_app_op prim ty body tmp (code k))]))
| shape_app fn args cf cargs tmp :
    shape fn cf ->
    is_primop (code cf) = false ->
    typ cf = KVarExp ->
    Forall2 shape args cargs ->
    shape (AppExp fn args)
      (mkCppCode KAppExp tmp
         (concat (map decls cargs) ++ decls cf ++
          [(thunk_decl tmp, app_op tmp (code cf) (map code cargs))]))
| shape_if c t e' cc ct ce tmp :
    shape c cc -> shape t ct -> shape e' ce ->
    shape (IfExp c t e')
      (mkCppCode KIfExp tmp
         (decls cc ++
          [(thunk_decl tmp,
            if_op (code cc) (fst (decls_ops ct)) (snd (decls_ops ct)) tmp (code ct)
                  (fst (decls_ops ce)) (snd (decls_ops ce)) (code ce))]))
| shape_letrec bs body cbs cbody :
    Forall2 (fun b cb => fst b = fst cb /\ shape (snd b) (snd cb)) bs cbs ->
    shape body cbody ->
    shape (LetRecExp bs body)
      (mkCppCode KLetRecExp (code cbody) (binding_decls cbs ++ decls cbody))
| shape_cpp c :
    shape (Cpp c) c.

(** Induction on trees, with the induction hypothesis for every element
    of the nested lists. *)
Section ExpInd.
Variable P : exp -> Prop.
Hypothesis HVar : forall x, P (VarExp x).
Hypothesis HNum : forall v, P (NumExp v).
Hypothesis HBool : forall v, P (BoolExp v).
Hypothesis HStr : forall v, P (StrExp v).
Hypothesis HVoid : P VoidExp.
Hypothesis HLam : forall n args body, P body -> P (LamExp n args body).
Hypothesis HApp : forall fn args, P fn -> Forall P args -> P (AppExp fn args).
Hypothesis HIf : forall c t e, P c -> P t -> P e -> P (IfExp c t e).
Hypothesis HLetRec : forall bs body,
    Forall (fun b => P (snd b)) bs -> P body -> P (LetRecExp bs body).
Hypothesis HBegin : forall es, Forall P es -> P (BeginExp es).
Hypothesis HSet : forall x v, P v -> P (SetExp x v).
Hypothesis HSetThen : forall x v t, P v -> P t -> P (SetThenExp x v t).
Hypothesis HCpp : forall c, P (Cpp c).

Fixpoint exp_ind (e : exp) : P e :=
  match e with
  | VarExp x => HVar x
  | NumExp v => HNum v
  | BoolExp v => HBool v
  | StrExp v => HStr v
  | VoidExp => HVoid
  | LamExp n args body => HLam n args body (exp_ind body)
  | AppExp fn args =>
      HApp fn args (exp_ind fn)
        ((fix go (l : list exp) : Forall P l :=
            match l with
            | [] => List.Forall_nil P
            | a :: l' => List.Forall_cons P a l' (exp_ind a) (go l')
            end) args)
  | IfExp c t e' => HIf c t e' (exp_ind c) (exp_ind t) (exp_ind e')
  | LetRecExp bs body =>
      HLetRec bs body
        ((fix go (l : list (string * exp)) : Forall (fun b => P (snd b)) l :=
            match l with
            | [] => List.Forall_nil _
            | b :: l' => List.Forall_cons _ b l' (exp_ind (snd b)) (go l')
            end) bs)
        (exp_ind body)
  | BeginExp es =>
      HBegin es
        ((fix go (l : list exp) : Forall P l :=
            match l with
            | [] => List.Forall_nil P
            | a :: l' => List.Forall_cons P a l' (exp_ind a) (go l')
            end) es)
  | SetExp x v => HSet x v (exp_ind v)
  | SetThenExp x v t => HSetThen x v t (exp_ind v) (exp_ind t)
  | Cpp c => HCpp c
  end.
End ExpInd.

(** *** Invariants of the free-variable analysis *)

(** No name of the running set is a primitive. *)
Definition prim_free (hs : gset string) : Prop :=
  forall x, x ∈ hs -> is_primop x = false.

(** A hole list [hs] that holds none of the parameters [args] and no
    primitive name. *)
Definition good_holes (args hs : list string) : Prop :=
  forall x, x ∈ hs -> (x ∉ args) /\ is_primop x = false.

(** The effect on the analysis state of traversing a tree whose Lambdas
    are [ls]: the running set stays free of primitives, no entry is
    dropped, every Lambda of [ls] has an entry, and an entry is either
    an old one or one recorded for a Lambda of [ls]. *)
Definition holes_step (ls : list (string * list string)) (st st' : holes_state) : Prop :=
  prim_free (fst st) ->
  prim_free (fst st')
  /\ (forall n, is_Some (snd st !! n) -> is_Some (snd st' !! n))
  /\ (forall n args, (n, args) ∈ ls -> is_Some (snd st' !! n))
  /\ (forall n hs, snd st' !! n = Some hs ->
        snd st !! n = Some hs \/ exists args, (n, args) ∈ ls /\ good_holes args hs).

(** The analysis visits a tree without changing it and without failing;
    its effect on the state is [holes_step] for the Lambdas of the tree. *)
Definition traversed (e : exp) : Prop :=
  forall st, exists st',
    map_exp find_holes e st = Ok (e, st') /\ holes_step (lambdas e) st st'.

(** *** Traversals and state invariants *)

(** Traversing [e] with the visitor [f] keeps the state property [I]. *)
Definition preserved {S : Type} (f : exp -> S -> result (exp * S)) (I : S -> Prop)
    (e : exp) : Prop :=
  forall s e' s', I s -> map_exp f e s = Ok (e', s') -> I s'.

(** *** Lowering of a supported tree *)

(** Lowering [e] from any state whose lifter reads [lgh] returns a
    fragment of the shape of [e], provided [e] is supported and both
    hole maps have an entry for each of its Lambdas. *)
Definition lowers (holes lgh : gmap string (list string)) (e : exp) : Prop :=
  supported e = true ->
  (forall n args, (n, args) ∈ lambdas e -> is_Some (holes !! n) /\ is_Some (lgh !! n)) ->
  forall st, LambdaGenCpp.holes (lambda_gen st) = lgh ->
  exists c st',
    map_exp (to_cpp holes) e st = Ok (Cpp c, st')
    /\ LambdaGenCpp.holes (lambda_gen st') = lgh
    /\ shape e c.

(** The declaration of the last pair of [c] declares the value
    identifier of [c]: as a tagged-value slot, as a thunk, or as a thunk
    next to the slot of a primitive's result. *)
Definition declares_value (c : CppCode) : Prop :=
  exists rest d o,
    decls c = rest ++ [(d, o)]
    /\ (d = declare (code c)
        \/ d = thunk_decl (code c)
        \/ exists prim, d = declare prim +:+ nl +:+ thunk_decl (code c)).

(** *** Further notions *)

(** The operator symbols of the two tables. *)
Definition primitive_names : list string :=
  ["+"; "-"; "*"; "="; "zero?"; "string-append"; "string=?"].

(** The non-empty texts of a list, joined by line feeds: one component
    of [decls_ops]. *)
Definition join_lines (xs : list string) : string :=
  join nl (filter (fun x => nonempty x = true) xs).

(** A sequence, assignment or void node somewhere in the tree. *)
Fixpoint has_unsupported (e : exp) : bool :=
  match e with
  | VoidExp | BeginExp _ | SetExp _ _ | SetThenExp _ _ _ => true
  | VarExp _ | NumExp _ | BoolExp _ | StrExp _ | Cpp _ => false
  | LamExp _ _ body => has_unsupported body
  | AppExp fn args => has_unsupported fn || existsb has_unsupported args
  | IfExp c t e' => has_unsupported c || has_unsupported t || has_unsupported e'
  | LetRecExp bnds body =>
      existsb (fun b => has_unsupported (snd b)) bnds || has_unsupported body
  end.

(** The names of the Variable nodes of a tree. *)
Fixpoint vars (e : exp) : list string :=
  match e with
  | VarExp x => [x]
  | NumExp _ | BoolExp _ | StrExp _ | VoidExp | Cpp _ => []
  | LamExp _ _ body => vars body
  | AppExp fn args => vars fn ++ concat (map vars args)
  | IfExp c t e' => vars c ++ vars t ++ vars e'
  | LetRecExp bnds body => concat (map (fun b => vars (snd b)) bnds) ++ vars body
  | BeginExp es => concat (map vars es)
  | SetExp _ v => vars v
  | SetThenExp _ v t => vars v ++ vars t
  end.

(** The formal parameters, those that are Variable nodes, of all Lambdas
    of a tree. *)
Fixpoint bound (e : exp) : list string :=
  match e with
  | VarExp _ | NumExp _ | BoolExp _ | StrExp _ | VoidExp | Cpp _ => []
  | LamExp _ args body => bound body ++ param_vars args
  | AppExp fn args => bound fn ++ concat (map bound args)
  | IfExp c t e' => bound c ++ bound t ++ bound e'
  | LetRecExp bnds body => concat (map (fun b => bound (snd b)) bnds) ++ bound body
  | BeginExp es => concat (map bound es)
  | SetExp _ v => bound v
  | SetThenExp _ v t => bound v ++ bound t
  end.

(** The Lambda nodes of a tree with their bodies, in traversal order. *)
Fixpoint lambda_nodes (e : exp) : list (string * list string * exp) :=
  match e with
  | VarExp _ | NumExp _ | BoolExp _ | StrExp _ | VoidExp | Cpp _ => []
  | LamExp n args body => lambda_nodes body ++ [(n, param_vars args, body)]
  | AppExp fn args => lambda_nodes fn ++ concat (map lambda_nodes args)
  | IfExp c t e' => lambda_nodes c ++ lambda_nodes t ++ lambda_nodes e'
  | LetRecExp bnds body =>
      concat (map (fun b => lambda_nodes (snd b)) bnds) ++ lambda_nodes body
  | BeginExp es => concat (map lambda_nodes es)
  | SetExp _ v => lambda_nodes v
  | SetThenExp _ v t => lambda_nodes v ++ lambda_nodes t
  end.

(** A name the Lambda ([args], [body]) has to capture when no Lambda
    inside [body] rebinds it: a non-primitive variable of the body that
    is no parameter of the Lambda or of a Lambda inside it. *)
Definition must_capture (args : list string) (body : exp) (x : string) : Prop :=
  x ∈ vars body /\ is_primop x = false /\ (x ∉ args) /\ (x ∉ bound body).

(** The effect on the analysis state of traversing a part of a tree
    with variables [V], parameters [B] and Lambda nodes [L]: names of the
    running set and variables of the part stay in the running set unless
    a Lambda of the part binds them; entries of other Lambdas are left
    alone; and, the Lambda names of the part being distinct, the entry
    of each of its Lambdas holds every name that Lambda has to capture. *)
Definition cap_step (V B : list string) (L : list (string * list string * exp))
    (st st' : holes_state) : Prop :=
  (forall x, x ∈ fst st \/ (x ∈ V /\ is_primop x = false) -> x ∉ B -> x ∈ fst st')
  /\ (forall n, n ∉ map (fun nd => fst (fst nd)) L -> snd st' !! n = snd st !! n)
  /\ (NoDup (map (fun nd => fst (fst nd)) L) ->
      forall n args body, (n, args, body) ∈ L ->
        exists hs, snd st' !! n = Some hs
                   /\ forall x, must_capture args body x -> x ∈ hs).

(** A node whose value is a temporary of its own: a literal, a Lambda,
    an application or a conditional. *)
Definition introduces_temporary (e : exp) : bool :=
  match e with
  | NumExp _ | BoolExp _ | StrExp _ | LamExp _ _ _ | AppExp _ _ | IfExp _ _ _ => true
  | _ => false
  end.

(** *** The table of the lifter across a traversal *)

(** The effect on the lifter of lowering a part of a tree whose Lambdas
    are [ls]: each of them has a definition afterwards, a key of the
    table is an old one or the name of one of them, and the old table is
    a prefix of the new one. *)
Definition keys_step (ls : list (string * list string)) (st st' : lower_state) : Prop :=
  (forall n args, (n, args) ∈ ls ->
     LambdaGenCpp.od_has (LambdaGenCpp._decls (lambda_gen st')) n = true)
  /\ (forall k, LambdaGenCpp.od_has (LambdaGenCpp._decls (lambda_gen st')) k = true ->
        LambdaGenCpp.od_has (LambdaGenCpp._decls (lambda_gen st)) k = true
        \/ k ∈ map fst ls)
  /\ LambdaGenCpp._decls (lambda_gen st) `prefix_of` LambdaGenCpp._decls (lambda_gen st').

Definition defines (holes : gmap string (list string)) (e : exp) : Prop :=
  forall st e' st',
    map_exp (to_cpp holes) e st = Ok (e', st') -> keys_step (lambdas e) st st'.

(** The analysis of [e], when it returns, has the effect [cap_step] for
    the variables, parameters and Lambda nodes of [e]. *)
Definition captured (e : exp) : Prop :=
  forall st e' st',
    map_exp find_holes e st = Ok (e', st') ->
    cap_step (vars e) (bound e) (lambda_nodes e) st st'.

(** *** Notions for the post-processor *)

(** A line that is the bare word [public], [default] or [private], in
    any letter case. *)
Definition bare_label (line : string) : bool :=
  String.eqb (latin1_lower line) "public"
  || String.eqb (latin1_lower line) "default"
  || String.eqb (latin1_lower line) "private".

(** The brace depth after the lines [raws]: opening braces minus
    closing braces of their stripped texts. *)
Definition depth_after (raws : list string) : Z :=
  foldl (fun d raw => count_braces (strip raw) d) 0%Z raws.

(** Traversing a part of a tree with variables [V] puts only names of
    [V] into the running set and into the hole lists it records. *)
Definition origin_step (V : list string) (st st' : holes_state) : Prop :=
  (forall x, x ∈ fst st' -> x ∈ fst st \/ x ∈ V)
  /\ (forall n hs, snd st' !! n = Some hs ->
        snd st !! n = Some hs \/ forall x, x ∈ hs -> x ∈ fst st \/ x ∈ V).

Definition originates (e : exp) : Prop :=
  forall st e' st',
    map_exp find_holes e st = Ok (e', st') -> origin_step (vars e) st st'.

(** *** The identifiers of a lowered list

    [item]: the pairs [to_cpp] builds, by the node kind that builds them
    and the identifiers it puts into the texts; [item_pair] is the pair.
    The pair of a conditional holds the lists of its two branches, which
    it renders inside its operation. *)
Inductive item : Type :=
| ILiteral (tmp ty val : string)
| ILambda (tmp cls : string) (hs : list string)
| IPrim (op prim tmp k : string) (operands : list string)
| IApp (tmp func : string) (args : list string)
| IIf (tmp cond : string) (then_items : list item) (then_ : string)
      (else_items : list item) (else_ : string)
| IBind (var body : string).

Fixpoint item_pair (it : item) : string * string :=
  match it with
  | ILiteral tmp ty val => (declare tmp, literal_op tmp ty val)
  | ILambda tmp cls hs => (declare tmp, lambda_op tmp cls hs)
  | IPrim op prim tmp k operands =>
      let '(ty, body) :=
        match gen_primop op prim operands with
        | Ok r => r
        | Raise _ => ("", "")
        end in
      (declare prim +:+ nl +:+ thunk_decl tmp, prim_app_op prim ty body tmp k)
  | IApp tmp func args => (thunk_decl tmp, app_op tmp func args)
  | IIf tmp cond then_items then_ else_items else_ =>
      (thunk_decl tmp,
       if_op cond
         (join_lines (map fst (map item_pair then_items)))
         (join_lines (map snd (map item_pair then_items))) tmp then_
         (join_lines (map fst (map item_pair else_items)))
         (join_lines (map snd (map item_pair else_items))) else_)
  | IBind var body => (declare var, letrec_op var body)
  end.

(** The identifiers the declaration of a pair declares. *)
Definition item_declares (it : item) : list string :=
  match it with
  | ILiteral tmp _ _ | ILambda tmp _ _ | IApp tmp _ _ | IIf tmp _ _ _ _ _ => [tmp]
  | IPrim _ prim tmp _ _ => [prim; tmp]
  | IBind var _ => [var]
  end.

Definition declared (items : list item) : list string :=
  concat (map item_declares items).

(** Every value identifier the operation of a pair refers to is one of
    [env]. Inside a branch of a conditional the identifiers the branch's
    own list declares are known as well: the branch is rendered as its
    declarations, then its operations, then the assignment of its value.
    (The class name in the pair of a Lambda is no value identifier; the
    lifter declares it.) *)
Fixpoint item_scoped (env : list string) (it : item) : bool :=
  match it with
  | ILiteral tmp _ _ => bool_decide (tmp ∈ env)
  | ILambda tmp _ hs =>
      bool_decide (tmp ∈ env) && forallb (fun h => bool_decide (h ∈ env)) hs
  | IPrim _ prim tmp k operands =>
      bool_decide (prim ∈ env) && bool_decide (tmp ∈ env) && bool_decide (k ∈ env)
      && forallb (fun a => bool_decide (a ∈ env)) operands
  | IApp tmp func args =>
      bool_decide (tmp ∈ env) && bool_decide (func ∈ env)
      && forallb (fun a => bool_decide (a ∈ env)) args
  | IIf tmp cond then_items then_ else_items else_ =>
      bool_decide (tmp ∈ env) && bool_decide (cond ∈ env)
      && forallb (item_scoped (declared then_items ++ env)) then_items
      && bool_decide (then_ ∈ declared then_items ++ env)
      && forallb (item_scoped (declared else_items ++ env)) else_items
      && bool_decide (else_ ∈ declared else_items ++ env)
  | IBind var body => bool_decide (var ∈ env) && bool_decide (body ∈ env)
  end.

(** *** Well-scoped trees *)

(** The names bound by the recursive-binding blocks whose pairs are part
    of the list of the tree itself: those outside Lambda bodies and
    outside the branches of conditionals. *)
Fixpoint letrec_names (e : exp) : list string :=
  match e with
  | AppExp fn args => letrec_names fn ++ concat (map letrec_names args)
  | IfExp c _ _ => letrec_names c
  | LetRecExp bnds body =>
      concat (map (fun b => fst b :: letrec_names (snd b)) bnds) ++ letrec_names body
  | _ => []
  end.

(** Inside a Lambda body: every Variable is a primitive or one of [env],
    the Variable parameters of the enclosing Lambdas and the names bound
    outside; there is no recursive-binding block and no node the
    lowering rejects. *)
Fixpoint closed_in (env : list string) (e : exp) : bool :=
  match e with
  | VarExp x => is_primop x || bool_decide (x ∈ env)
  | NumExp _ | BoolExp _ | StrExp _ | Cpp _ => true
  | LamExp _ args body => closed_in (param_vars args ++ env) body
  | AppExp fn args => closed_in env fn && forallb (closed_in env) args
  | IfExp c t e' => closed_in env c && closed_in env t && closed_in env e'
  | _ => false
  end.

(** Outside Lambda bodies, with [D] the names bound by recursive-binding
    blocks: a Variable is one of [D] (a callee may be a primitive
    instead), a Lambda body is closed under the parameters and [D], and
    a recursive-binding block occurs only where [top] holds, that is,
    not inside a branch of a conditional. *)
Fixpoint well_scoped_at (D : list string) (top : bool) (e : exp) : bool :=
  match e with
  | VarExp x => bool_decide (x ∈ D)
  | NumExp _ | BoolExp _ | StrExp _ => true
  | LamExp _ args body => closed_in (param_vars args ++ D) body
  | AppExp fn args =>
      match fn with
      | VarExp x => is_primop x || bool_decide (x ∈ D)
      | _ => false
      end
      && forallb (well_scoped_at D top) args
  | IfExp c t e' =>
      well_scoped_at D top c && well_scoped_at D false t && well_scoped_at D false e'
  | LetRecExp bnds body =>
      top && forallb (fun b => well_scoped_at D top (snd b)) bnds
      && well_scoped_at D top body
  | _ => false
  end.

(** A closed tree: every Variable resolves to a parameter of an
    enclosing Lambda or to a recursive binding of the tree. *)
Definition well_scoped (root : exp) : bool :=
  well_scoped_at (letrec_names root) true root.

(** The names of the Lambdas outside every Lambda body, and of those
    inside one. *)
Fixpoint outer_lambdas (e : exp) : list string :=
  match e with
  | LamExp n _ _ => [n]
  | AppExp fn args => outer_lambdas fn ++ concat (map outer_lambdas args)
  | IfExp c t e' => outer_lambdas c ++ outer_lambdas t ++ outer_lambdas e'
  | LetRecExp bnds body =>
      concat (map (fun b => outer_lambdas (snd b)) bnds) ++ outer_lambdas body
  | _ => []
  end.

Fixpoint inner_lambdas (e : exp) : list string :=
  match e with
  | LamExp _ _ body => map (fun nd => fst (fst nd)) (lambda_nodes body)
  | AppExp fn args => inner_lambdas fn ++ concat (map inner_lambdas args)
  | IfExp c t e' => inner_lambdas c ++ inner_lambdas t ++ inner_lambdas e'
  | LetRecExp bnds body =>
      concat (map (fun b => inner_lambdas (snd b)) bnds) ++ inner_lambdas body
  | _ => []
  end.

(** The effect on the analysis state of traversing a part of a
    well-scoped tree outside Lambda bodies, [D] being the names bound by
    recursive-binding blocks, [inner] and [outer] the Lambda names of the
    part: the running set stays within [D], entries of other Lambdas are
    left alone, and the entry of a Lambda of [outer] whose name no Lambda
    of [inner] has holds names of [D] only. *)
Definition scope_step (D inner outer : list string) (st st' : holes_state) : Prop :=
  (forall x, x ∈ fst st -> x ∈ D) ->
  (forall x, x ∈ fst st' -> x ∈ D)
  /\ (forall n, n ∉ inner -> n ∉ outer -> snd st' !! n = snd st !! n)
  /\ (forall n, n ∈ outer -> n ∉ inner ->
        exists hs, snd st' !! n = Some hs /\ forall x, x ∈ hs -> x ∈ D).

(** The list of a lowered part of a well-scoped tree: the pairs are those
    of [items]; in any scope [env] that knows the names [D] and what the
    list declares, every operation of the list refers to known
    identifiers only and the value identifier [c] is known; and the
    list declares the names the part binds recursively. *)
Definition scoped_list (D : list string) (e : exp) (c : CppCode)
    (items : list item) : Prop :=
  decls c = map item_pair items
  /\ (forall env, D ⊆ env -> declared items ⊆ env ->
        forallb (item_scoped env) items = true /\ code c ∈ env)
  /\ letrec_names e ⊆ declared items.

(** The analysis of a Lambda body closed under [A] keeps the running set
    within [A]. *)
Definition bounded (e : exp) : Prop :=
  forall A st e' st',
    closed_in A e = true ->
    (forall x, x ∈ fst st -> x ∈ A) ->
    map_exp find_holes e st = Ok (e', st') ->
    forall x, x ∈ fst st' -> x ∈ A.

(** The analysis of a well-scoped part has the effect [scope_step]. *)
Definition scopes (D : list string) (e : exp) : Prop :=
  forall top st e' st',
    well_scoped_at D top e = true ->
    map_exp find_holes e st = Ok (e', st') ->
    scope_step D (inner_lambdas e) (outer_lambdas e) st st'.

(** Lowering a supported, well-scoped part returns a fragment whose list
    is a [scoped_list], provided the hole lists of the Lambdas outside
    Lambda bodies hold names of [D] only. *)
Definition lowers_scoped (D : list string) (holes lgh : gmap string (list string))
    (e : exp) : Prop :=
  forall top,
    supported e = true ->
    well_scoped_at D top e = true ->
    (forall n args, (n, args) ∈ lambdas e -> is_Some (holes !! n) /\ is_Some (lgh !! n)) ->
    (forall n, n ∈ outer_lambdas e ->
       exists hs, holes !! n = Some hs /\ forall x, x ∈ hs -> x ∈ D) ->
    forall st, LambdaGenCpp.holes (lambda_gen st) = lgh ->
    exists c st' items,
      map_exp (to_cpp holes) e st = Ok (Cpp c, st')
      /\ LambdaGenCpp.holes (lambda_gen st') = lgh
      /\ scoped_list D e c items.

(** * Properties *)

(** ** The primitive registry *)

Lemma is_primop_contains (op : string) :
  is_primop op = NumPrimOps.contains op || StrPrimOps.contains op.
Proof. unfold is_primop. by destruct (_ || _). Qed.

Lemma unimplemented_primitive_num {A} (op : string) :
  @unimplemented_primitive A (Raise (RuntimeError (NumPrimOps.unimplemented_msg op))).
Proof. by eexists. Qed.

Lemma unimplemented_primitive_str {A} (op : string) :
  @unimplemented_primitive A (Raise (RuntimeError (StrPrimOps.unimplemented_msg op))).
Proof. by eexists. Qed.

(** An accepted operand count makes [gen_primop] return. *)
Lemma gen_primop_accepted (op dst : string) (args : list string) :
  accepts op (length args) = true ->
  exists ty body, gen_primop op dst args = Ok (ty, body) /\ (ty = NUM \/ ty = STR).
Proof.
  unfold accepts, gen_primop, NumPrimOps.call, StrPrimOps.call,
    StrPrimOps.contains, dict_has.
  remember (dict_get NumPrimOps.unary_ops op) as u.
  remember (dict_get NumPrimOps.binary_ops op) as b.
  remember (StrPrimOps.lookup_op StrPrimOps.binary_ops op) as t.
  destruct (NumPrimOps.contains op).
  - destruct args as [|x [|y [|z l]]]; simpl; try discriminate.
    + destruct u; simpl; [|discriminate].
      intros _. eexists _, _. split; [reflexivity | by left].
    + destruct b; simpl; [|discriminate].
      intros _. eexists _, _. split; [reflexivity | by left].
  - destruct t; [|discriminate].
    destruct args as [|x [|y [|z l]]]; simpl; try discriminate.
    intros _. eexists _, _. split; [reflexivity | by right].
Qed.

(** C4 (code defect): the registry tags every string primitive [STR].
    For [string-append] that is the Text tag the spec assigns, with the
    allocate/append code; for [string=?] the code is the inequality test
    stored in the numeric payload, but the tag returned with it is [STR]
    and not the Number tag [NUM]. *)
Theorem string_primops_result_tags (dst lhs rhs : string) :
  gen_primop "string-append" dst [lhs; rhs]
  = Ok (STR, dst +:+ "->str = std::shared_ptr<std::string>(" +:+ lhs +:+ "->str);"
             +:+ nl +:+ dst +:+ "->str.append(" +:+ rhs +:+ "->str);")
  /\ gen_primop "string=?" dst [lhs; rhs]
     = Ok (STR, dst +:+ "->num = " +:+ lhs +:+ "->str.compare(" +:+ rhs +:+ "->str) != 0;")
  /\ STR <> NUM.
Proof. split; [reflexivity|]. split; [reflexivity|discriminate]. Qed.

(** C9 as stated fails: an operator absent from both tables does not
    fail with an "unimplemented primitive" error. *)
Lemma gen_primop_bogus_not_unimplemented :
  ~ unimplemented_primitive (gen_primop "bogus" "d" ["a"; "b"]).
Proof. intros [msg [H _]]. vm_compute in H. discriminate. Qed.

(** C9 (amended): given one or two operands, [gen_primop] returns a
    (result tag, code text) pair when the table the operator is found in
    has an entry for that operand count; it fails with an "unimplemented
    primitive" [RuntimeError] when the operator is in a table but the
    operand count does not match; and with [KeyError(op)] when the
    operator is in neither table. *)
Theorem gen_primop_outcome (op dst : string) (args : list string)
    (Hlen : length args = 1 \/ length args = 2) :
  (accepts op (length args) = true ->
     exists ty body, gen_primop op dst args = Ok (ty, body) /\ (ty = NUM \/ ty = STR))
  /\ (is_primop op = true -> accepts op (length args) = false ->
        unimplemented_primitive (gen_primop op dst args))
  /\ (is_primop op = false -> gen_primop op dst args = Raise (KeyError op)).
Proof.
  split; [apply gen_primop_accepted|]. split.
  - rewrite is_primop_contains.
    unfold accepts, gen_primop, NumPrimOps.call, StrPrimOps.call,
      StrPrimOps.contains, dict_has.
    remember (dict_get NumPrimOps.unary_ops op) as u.
    remember (dict_get NumPrimOps.binary_ops op) as b.
    remember (StrPrimOps.lookup_op StrPrimOps.binary_ops op) as t.
    destruct (NumPrimOps.contains op); simpl.
    + intros _.
      destruct args as [|x [|y [|z l]]]; simpl in *; try lia.
      * destruct u; [discriminate|].
        intros _. apply unimplemented_primitive_num.
      * destruct b; [discriminate|].
        intros _. apply unimplemented_primitive_num.
    + destruct t; [|discriminate].
      intros _.
      destruct args as [|x [|y [|z l]]]; simpl in *; try lia; try discriminate.
      intros _. apply unimplemented_primitive_str.
  - rewrite is_primop_contains. unfold gen_primop.
    destruct (NumPrimOps.contains op); [discriminate|].
    destruct (StrPrimOps.contains op); [discriminate|]. done.
Qed.

(** The unary-only [zero?], given two operands. *)
Lemma gen_primop_outcome_witness :
  unimplemented_primitive (gen_primop "zero?" "d" ["a"; "b"]).
Proof.
  apply (gen_primop_outcome "zero?" "d" ["a"; "b"]);
    [right; reflexivity | reflexivity | reflexivity].
Defined.

(** ** Lowering of literals *)

Lemma c_literal_body_plain (s rest : string) :
  plain s = true -> c_literal_body (s +:+ dq +:+ rest) = Some s.
Proof.
  induction s as [|c s IH]; simpl; [done|].
  intros H.
  apply andb_prop in H as [H Hs].
  apply andb_prop in H as [H H3].
  apply andb_prop in H as [H1 H2].
  apply negb_true_iff in H1, H2, H3.
  rewrite H1, H2, H3, (IH Hs). done.
Qed.

(** C7 as stated fails: a quote inside the string is copied as it is,
    so the emitted literal ends at that quote and denotes ["a"], not the
    string of the node. *)
Lemma string_literal_quote_not_handled :
  exists tmp lit st',
    map_exp (to_cpp ∅) (StrExp ("a" +:+ dq +:+ "b"))
      (mkState 0 (LambdaGenCpp.mk ∅ [] ∅))
    = Ok (Cpp (mkCppCode KStrExp tmp
                 [(declare tmp,
                   tmp +:+ "->type = STR;" +:+ nl +:+
                   tmp +:+ "->str = " +:+ lit +:+ ";")]), st')
    /\ c_literal_value lit = Some "a"
    /\ c_literal_value lit <> Some ("a" +:+ dq +:+ "b").
Proof.
  exists "__str_0", (dq +:+ "a" +:+ dq +:+ "b" +:+ dq), (mkState 1 (LambdaGenCpp.mk ∅ [] ∅)).
  split; [reflexivity|]. split; [reflexivity|]. vm_compute. discriminate.
Qed.

(** C7 (amended): lowering a literal draws exactly one fresh name, and
    yields that name with exactly one pair: the declaration of the slot,
    and the operation that sets its tag and payload. A number is tagged
    [NUM] with its decimal text as payload; a boolean is tagged [NUM]
    with payload 1 or 0; a string is tagged [STR] with the string copied
    verbatim between double quotes, nothing quoted or escaped, so the
    literal denotes the string when it holds no quote, backslash or line
    feed. A void literal fails with the unimplemented-expression error. *)
Theorem literal_lowering (holes : gmap string (list string)) (st : lower_state) :
  let n := gensym_next st in
  let st' := mkState (S n) (lambda_gen st) in
  (forall v,
     let tmp := "__num_" +:+ pretty n in
     map_exp (to_cpp holes) (NumExp v) st
     = Ok (Cpp (mkCppCode KNumExp tmp
                  [("SCHEMETYPE_T " +:+ tmp +:+ "(new schemetype_t);",
                    tmp +:+ "->type = NUM;" +:+ nl +:+
                    tmp +:+ "->num = " +:+ pretty v +:+ ";")]), st'))
  /\ (forall b : bool,
        let tmp := "__bool_" +:+ pretty n in
        map_exp (to_cpp holes) (BoolExp b) st
        = Ok (Cpp (mkCppCode KBoolExp tmp
                     [("SCHEMETYPE_T " +:+ tmp +:+ "(new schemetype_t);",
                       tmp +:+ "->type = NUM;" +:+ nl +:+
                       tmp +:+ "->num = " +:+ (if b then "1" else "0") +:+ ";")]), st'))
  /\ (forall s,
        let tmp := "__str_" +:+ pretty n in
        let lit := dq +:+ s +:+ dq in
        map_exp (to_cpp holes) (StrExp s) st
        = Ok (Cpp (mkCppCode KStrExp tmp
                     [("SCHEMETYPE_T " +:+ tmp +:+ "(new schemetype_t);",
                       tmp +:+ "->type = STR;" +:+ nl +:+
                       tmp +:+ "->str = " +:+ lit +:+ ";")]), st')
        /\ (plain s = true -> c_literal_value lit = Some s))
  /\ map_exp (to_cpp holes) VoidExp st
     = Raise (RuntimeError
                "unimplemented expression type: <class 'schemec.types.VoidExp'>").
Proof.
  repeat split; try reflexivity.
  intros Hs. exact (c_literal_body_plain s "" Hs).
Qed.

Lemma literal_lowering_witness :
  c_literal_value (dq +:+ "hello, world" +:+ dq) = Some "hello, world".
Proof.
  refine (proj2 (proj1 (proj2 (proj2
            (literal_lowering ∅ (mkState 0 (LambdaGenCpp.mk ∅ [] ∅)))))
          "hello, world") _).
  reflexivity.
Defined.

(** ** The halt continuation *)

Lemma append_assoc (s1 s2 s3 : string) : (s1 +:+ s2) +:+ s3 = s1 +:+ s2 +:+ s3.
Proof.
  induction s1 as [|c s1 IH]; [done|].
  change (String c ((s1 +:+ s2) +:+ s3) = String c (s1 +:+ s2 +:+ s3)).
  by rewrite IH.
Qed.

Lemma append_nil_r (s : string) : s +:+ "" = s.
Proof.
  induction s as [|c s IH]; [done|].
  change (String c (s +:+ "") = String c s). by rewrite IH.
Qed.

(** C2 (code defect): the operation of [halt] is the [switch] whose
    sections are [HaltRuntime.halt_switch], and none of them ends in a
    [break]. Entered at the Number label, control runs through the
    Closure, Text and default sections as well: the process prints the
    integer, the closure diagnostic, the text payload and the error line,
    and [exit] receives -1. The same status results for every tag. *)
Theorem halt_switch_falls_through (name arg : string) :
  halt name arg
  = LamExp name [ParamCpp (mkCppCode KVarExp arg [])]
      (Cpp (mkCppCode KLamExp "THUNK_T(nullptr)"
              [("int retval = 0;", HaltRuntime.render arg HaltRuntime.halt_switch)]))
  /\ Forall (fun sec => ~ In HaltRuntime.Break (snd sec)) HaltRuntime.halt_switch
  /\ HaltRuntime.run HaltRuntime.halt_switch HaltRuntime.Number
     = ([HaltRuntime.PrintedNum;
         HaltRuntime.Printed "you want to return a lambda?! really?!";
         HaltRuntime.PrintedStr;
         HaltRuntime.Printed "error"], (-1)%Z)
  /\ (forall t, snd (HaltRuntime.run HaltRuntime.halt_switch t) = (-1)%Z).
Proof.
  split.
  { unfold halt, halt_op, HaltRuntime.render. do 4 f_equal.
    cbv -[String.append]. rewrite !append_assoc. reflexivity. }
  split.
  { repeat constructor; simpl; intros H;
      repeat (destruct H as [H|H]; [discriminate|]); done. }
  split; [reflexivity|].
  intros []; reflexivity.
Qed.

(** ** The lambda lifter *)

Lemma foldr_min_spec (n : nat) (ns : list nat) :
  foldr Nat.min n ns ∈ n :: ns /\ Forall (fun m => foldr Nat.min n ns <= m) (n :: ns).
Proof.
  induction ns as [|a ns [IHin IHle]]; simpl.
  - split; [by left | by repeat constructor].
  - apply Forall_cons in IHle as [Hn Hns]. split.
    + destruct (Nat.min_spec a (foldr Nat.min n ns)) as [[_ ->]|[_ ->]].
      * right; by left.
      * apply elem_of_cons in IHin as [->|?]; [by left | by do 2 right].
    + repeat apply Forall_cons_2; try lia.
      eapply Forall_impl; [exact Hns|]. simpl. lia.
Qed.

Lemma foldr_max_spec (n : nat) (ns : list nat) :
  foldr Nat.max n ns ∈ n :: ns /\ Forall (fun m => m <= foldr Nat.max n ns) (n :: ns).
Proof.
  induction ns as [|a ns [IHin IHle]]; simpl.
  - split; [by left | by repeat constructor].
  - apply Forall_cons in IHle as [Hn Hns]. split.
    + destruct (Nat.max_spec a (foldr Nat.max n ns)) as [[_ ->]|[_ ->]].
      * apply elem_of_cons in IHin as [->|?]; [by left | by do 2 right].
      * right; by left.
    + repeat apply Forall_cons_2; try lia.
      eapply Forall_impl; [exact Hns|]. simpl. lia.
Qed.

Lemma arities_spec (lo hi i : nat) :
  lo <= hi -> (i ∈ LambdaGenCpp.arities lo hi <-> lo <= i <= hi).
Proof. intros H. unfold LambdaGenCpp.arities. rewrite elem_of_seq. lia. Qed.

(** C6: once an arity has been observed, [decls_ops] of the lifter
    returns; the base-callable declaration it starts with holds one call
    signature for each arity from the least to the greatest observed
    one, each arity of that range exactly once, whether or not a Lambda
    has it; and the operations start with one default operation per such
    arity. The default operation of arity [i] is the call operator of
    the base type with exactly the [i] parameters [_0], ..., [_(i-1)],
    and it prints the arity diagnostic and calls [exit(-1)]. *)
Theorem lifter_base_callable (self : LambdaGenCpp.t) (n : nat)
    (Hn : n ∈ LambdaGenCpp.nargs self) :
  exists lo hi sigs generated_decls generated_ops,
    lo ∈ LambdaGenCpp.nargs self /\ hi ∈ LambdaGenCpp.nargs self
    /\ (forall m, m ∈ LambdaGenCpp.nargs self -> lo <= m <= hi)
    /\ NoDup sigs /\ (forall i, i ∈ sigs <-> lo <= i <= hi)
    /\ LambdaGenCpp.decls_ops self
       = Ok ("class lambda_t {" +:+ nl +:+
             " public:" +:+ nl +:+
             "  " +:+ join (nl +:+ "  ") (map LambdaGenCpp.virtual_sig sigs) +:+ nl +:+
             "};" +:+ nl +:+ generated_decls,
             foldr String.append "" (map LambdaGenCpp.default_op sigs)
             +:+ generated_ops)
    /\ (forall i,
          LambdaGenCpp.virtual_sig i
          = "THUNK_T operator()(" +:+ join ", " (replicate i "SCHEMETYPE_T") +:+ ") const;"
          /\ exists params,
               length params = i
               /\ (forall j, j < i -> params !! j = Some ("SCHEMETYPE_T _" +:+ pretty j))
               /\ LambdaGenCpp.default_op i
                  = "THUNK_T lambda_t::operator()(" +:+ join ", " params
                      +:+ ") const {" +:+ nl +:+
                    "  printf(" +:+ dq +:+
                      "error: lambda called with an improper number of arguments"
                      +:+ bs +:+ "n" +:+ dq +:+ ");" +:+ nl +:+
                    "  exit(-1);" +:+ nl +:+
                    "}" +:+ nl).
Proof.
  unfold LambdaGenCpp.decls_ops, LambdaGenCpp.min_nargs, LambdaGenCpp.max_nargs.
  destruct (elements (LambdaGenCpp.nargs self)) as [|a ns] eqn:Hel.
  { apply elements_empty_inv in Hel. apply leibniz_equiv in Hel.
    rewrite Hel in Hn. by apply not_elem_of_empty in Hn. }
  destruct (foldr_min_spec a ns) as [Hlo_in Hlo_le].
  destruct (foldr_max_spec a ns) as [Hhi_in Hhi_le].
  rewrite <- Hel in Hlo_in, Hhi_in, Hlo_le, Hhi_le.
  rewrite Forall_forall in Hlo_le, Hhi_le.
  set (lo := foldr Nat.min a ns) in *. set (hi := foldr Nat.max a ns) in *.
  assert (Hlohi : lo <= hi) by (apply Hhi_le, Hlo_in).
  exists lo, hi, (LambdaGenCpp.arities lo hi). eexists _, _.
  split; [by apply elem_of_elements|]. split; [by apply elem_of_elements|].
  split. { intros m Hm. apply elem_of_elements in Hm. split; auto. }
  split; [apply NoDup_seq|]. split; [intros i; by apply arities_spec|].
  split.
  { simpl. unfold LambdaGenCpp.base_decl, LambdaGenCpp.base_op.
    rewrite !append_assoc. reflexivity. }
  intros i. split; [reflexivity|].
  exists (map (fun j : nat => "SCHEMETYPE_T _" +:+ pretty j) (seq 0 i)).
  split; [by rewrite length_map, length_seq|].
  split; [|reflexivity].
  intros j Hj. rewrite list_lookup_fmap, lookup_seq_lt by done. reflexivity.
Qed.

Lemma lifter_base_callable_witness :
  exists lo hi sigs d o,
    (forall i, i ∈ sigs <-> lo <= i <= hi)
    /\ LambdaGenCpp.decls_ops (LambdaGenCpp.mk ∅ [] {[1; 3]})
       = Ok ("class lambda_t {" +:+ nl +:+
             " public:" +:+ nl +:+
             "  " +:+ join (nl +:+ "  ") (map LambdaGenCpp.virtual_sig sigs) +:+ nl +:+
             "};" +:+ nl +:+ d,
             foldr String.append "" (map LambdaGenCpp.default_op sigs) +:+ o).
Proof.
  assert (H1 : 1 ∈ LambdaGenCpp.nargs (LambdaGenCpp.mk ∅ [] {[1; 3]})).
  { simpl. apply elem_of_union_l, elem_of_singleton. reflexivity. }
  destruct (lifter_base_callable _ 1 H1)
    as (lo & hi & sigs & d & o & _ & _ & _ & _ & Hsigs & Heq & _).
  exists lo, hi, sigs, d, o. split; [exact Hsigs | exact Heq].
Defined.

Lemma od_has_true (d : list (string * (string * string))) (k : string) :
  LambdaGenCpp.od_has d k = true <-> k ∈ map fst d.
Proof.
  unfold LambdaGenCpp.od_has. induction d as [|[k' v] d IH]; simpl.
  - split; [discriminate | by intros ?%elem_of_nil].
  - destruct (String.eqb_spec k k') as [->|Hne].
    + split; [intros _; by left | done].
    + rewrite IH. split; [by right|].
      intros [?|?]%elem_of_cons; [congruence | done].
Qed.

Lemma od_has_set (d : list (string * (string * string))) (k : string) v :
  LambdaGenCpp.od_has (LambdaGenCpp.od_set d k v) k = true.
Proof.
  unfold LambdaGenCpp.od_has. induction d as [|[k' v'] d IH]; simpl.
  - by rewrite String.eqb_refl.
  - destruct (String.eqb_spec k k') as [->|Hne]; simpl.
    + by rewrite String.eqb_refl.
    + destruct (String.eqb_spec k k'); [done | exact IH].
Qed.

Lemma od_get_set_ne (d : list (string * (string * string))) (k k' : string) v :
  k <> k' -> LambdaGenCpp.od_get (LambdaGenCpp.od_set d k' v) k = LambdaGenCpp.od_get d k.
Proof.
  intros Hne. induction d as [|[k0 v0] d IH]; simpl.
  - by destruct (String.eqb_spec k k').
  - destruct (String.eqb_spec k' k0) as [->|Hne0]; simpl.
    + by destruct (String.eqb_spec k k0).
    + destruct (String.eqb_spec k k0); [done | exact IH].
Qed.

Lemma od_set_fresh (d : list (string * (string * string))) (k : string) v :
  LambdaGenCpp.od_has d k = false -> LambdaGenCpp.od_set d k v = d ++ [(k, v)].
Proof.
  unfold LambdaGenCpp.od_has. induction d as [|[k' v'] d IH]; simpl; [done|].
  destruct (String.eqb_spec k k'); [discriminate|].
  intros H. by rewrite (IH H).
Qed.

Lemma od_filter_absent (d : list (string * (string * string))) (k : string) :
  k ∉ map fst d -> filter (fun kv => fst kv = k) d = [].
Proof.
  induction d as [|[k' v] d IH]; simpl; [done|].
  intros [Hne Hd]%not_elem_of_cons.
  rewrite filter_cons_False by (simpl; congruence). by apply IH.
Qed.

(** The definitions recorded for [k]. *)
Lemma od_count_one (d : list (string * (string * string))) (k : string) :
  NoDup (map fst d) -> LambdaGenCpp.od_has d k = true ->
  length (filter (fun kv => fst kv = k) d) = 1.
Proof.
  induction d as [|[k' v] d IH]; simpl.
  - intros _ H. discriminate.
  - intros [Hk' Hd]%NoDup_cons Hhas.
    destruct (decide (k' = k)) as [->|Hne].
    + rewrite filter_cons_True by done. simpl.
      by rewrite od_filter_absent.
    + rewrite filter_cons_False by done. apply IH; [done|].
      unfold LambdaGenCpp.od_has in *. simpl in Hhas.
      by destruct (String.eqb_spec k k'); [congruence|].
Qed.

(** C8: once a Lambda has been looked up in the lifter, a later lookup
    of the same Lambda returns the same name and leaves the lifter as it
    is, so it adds no declaration; the table holds exactly one definition
    for that Lambda; and no later lookup, of this or any other Lambda,
    changes that definition. *)
Theorem getitem_idempotent (self self1 : LambdaGenCpp.t) (name cls : string)
    (argExps : list string) (bodyExp : exp)
    (Hkeys : NoDup (map fst (LambdaGenCpp._decls self)))
    (Hfirst : LambdaGenCpp.getitem self name argExps bodyExp = Ok (cls, self1)) :
  cls = name
  /\ (forall argExps' bodyExp',
        LambdaGenCpp.getitem self1 name argExps' bodyExp' = Ok (name, self1))
  /\ length (filter (fun kv => fst kv = name) (LambdaGenCpp._decls self1)) = 1
  /\ (exists def, LambdaGenCpp.od_get (LambdaGenCpp._decls self1) name = Some def
        /\ forall name' argExps' bodyExp' cls' self2,
             LambdaGenCpp.getitem self1 name' argExps' bodyExp' = Ok (cls', self2) ->
             LambdaGenCpp.od_get (LambdaGenCpp._decls self2) name = Some def).
Proof.
  assert (Hpost : cls = name
                  /\ LambdaGenCpp.od_has (LambdaGenCpp._decls self1) name = true
                  /\ NoDup (map fst (LambdaGenCpp._decls self1))).
  { unfold LambdaGenCpp.getitem in Hfirst.
    destruct (LambdaGenCpp.od_has (LambdaGenCpp._decls self) name) eqn:Hhas; simpl in Hfirst.
    - by inversion Hfirst; subst.
    - destruct (LambdaGenCpp.holes self !! name); [|discriminate].
      destruct (as_cpp bodyExp) as [b|]; [|discriminate]. simpl in Hfirst.
      destruct (decls_ops b) as [ds os]. inversion Hfirst; subst; simpl.
      split; [done|]. split; [apply od_has_set|].
      rewrite od_set_fresh by done. rewrite map_app. simpl.
      apply NoDup_app. split; [done|]. split; [|apply NoDup_singleton].
      intros k Hk ->%list_elem_of_singleton.
      apply od_has_true in Hk. congruence. }
  destruct Hpost as (-> & Hhas & Hnodup).
  split; [done|]. split.
  { intros a' b'. unfold LambdaGenCpp.getitem. by rewrite Hhas. }
  split; [by apply od_count_one|].
  assert (Hdef : exists def,
             LambdaGenCpp.od_get (LambdaGenCpp._decls self1) name = Some def).
  { unfold LambdaGenCpp.od_has in Hhas.
    destruct (LambdaGenCpp.od_get _ name) as [def|]; [by exists def | discriminate]. }
  destruct Hdef as [def Hdef]. exists def. split; [done|].
  intros name' a' b' cls' self2. unfold LambdaGenCpp.getitem.
  destruct (LambdaGenCpp.od_has (LambdaGenCpp._decls self1) name') eqn:Hhas'; simpl.
  - intros [= _ <-]. done.
  - destruct (LambdaGenCpp.holes self1 !! name'); [|discriminate].
    destruct (as_cpp b') as [b|]; [|discriminate]. simpl.
    destruct (decls_ops b) as [ds os]. intros [= _ <-]. simpl.
    rewrite od_get_set_ne; [done|]. intros ->. congruence.
Qed.

Lemma getitem_idempotent_witness :
  exists self1,
    LambdaGenCpp.getitem
      (LambdaGenCpp.mk {["lambda_1" := ["y"]]} [] ∅) "lambda_1" ["x"]
      (Cpp (mkCppCode KVarExp "x" [])) = Ok ("lambda_1", self1)
    /\ LambdaGenCpp.getitem self1 "lambda_1" ["x"] (Cpp (mkCppCode KVarExp "x" []))
       = Ok ("lambda_1", self1)
    /\ length (filter (fun kv => fst kv = "lambda_1") (LambdaGenCpp._decls self1)) = 1.
Proof.
  assert (Hk : NoDup (map fst (LambdaGenCpp._decls
                                 (LambdaGenCpp.mk {["lambda_1" := ["y"]]} [] ∅))))
    by apply NoDup_nil_2.
  destruct (LambdaGenCpp.getitem
              (LambdaGenCpp.mk {["lambda_1" := ["y"]]} [] ∅) "lambda_1" ["x"]
              (Cpp (mkCppCode KVarExp "x" []))) as [[cls self1]|err] eqn:H1;
    [|vm_compute in H1; discriminate].
  destruct (getitem_idempotent _ self1 "lambda_1" cls ["x"] _ Hk H1)
    as (-> & H2 & H3 & _).
  exists self1. split; [reflexivity|]. split; [apply H2 | exact H3].
Defined.

(** ** The free-variable analysis *)

Lemma map_exp_lam {S} (f : exp -> S -> result (exp * S)) n args body s :
  map_exp f (LamExp n args body) s
  = rbind (map_exp f body s) (fun '(body', s1) => f (LamExp n args body') s1).
Proof. reflexivity. Qed.

Lemma map_exp_app {S} (f : exp -> S -> result (exp * S)) fn args s :
  map_exp f (AppExp fn args) s
  = rbind (map_exp f fn s) (fun '(fn', s1) =>
    rbind (map_list f args s1) (fun '(args', s2) => f (AppExp fn' args') s2)).
Proof. reflexivity. Qed.

Lemma map_exp_if {S} (f : exp -> S -> result (exp * S)) c t e s :
  map_exp f (IfExp c t e) s
  = rbind (map_exp f c s) (fun '(c', s1) =>
    rbind (map_exp f t s1) (fun '(t', s2) =>
    rbind (map_exp f e s2) (fun '(e', s3) => f (IfExp c' t' e') s3))).
Proof. reflexivity. Qed.

Lemma map_exp_letrec {S} (f : exp -> S -> result (exp * S)) bs body s :
  map_exp f (LetRecExp bs body) s
  = rbind (map_bindings f bs s) (fun '(bs', s1) =>
    rbind (map_exp f body s1) (fun '(body', s2) => f (LetRecExp bs' body') s2)).
Proof. reflexivity. Qed.

Lemma map_exp_begin {S} (f : exp -> S -> result (exp * S)) es s :
  map_exp f (BeginExp es) s
  = rbind (map_list f es s) (fun '(es', s1) => f (BeginExp es') s1).
Proof. reflexivity. Qed.

Lemma map_exp_set {S} (f : exp -> S -> result (exp * S)) x v s :
  map_exp f (SetExp x v) s
  = rbind (map_exp f v s) (fun '(v', s1) => f (SetExp x v') s1).
Proof. reflexivity. Qed.

Lemma map_exp_setthen {S} (f : exp -> S -> result (exp * S)) x v t s :
  map_exp f (SetThenExp x v t) s
  = rbind (map_exp f v s) (fun '(v', s1) =>
    rbind (map_exp f t s1) (fun '(t', s2) => f (SetThenExp x v' t') s2)).
Proof. reflexivity. Qed.

Lemma holes_step_refl (st : holes_state) : holes_step [] st st.
Proof.
  intros Hp. split; [done|]. split; [done|]. split.
  - intros n args Hin. by apply elem_of_nil in Hin.
  - intros n hs H. by left.
Qed.

Lemma holes_step_trans l1 l2 (a b c : holes_state) :
  holes_step l1 a b -> holes_step l2 b c -> holes_step (l1 ++ l2) a c.
Proof.
  intros Hab Hbc Hp.
  destruct (Hab Hp) as (Hpb & Hmono1 & Hdom1 & Hent1).
  destruct (Hbc Hpb) as (Hpc & Hmono2 & Hdom2 & Hent2).
  split; [done|]. split; [auto|]. split.
  - intros n args [Hin|Hin]%elem_of_app; [eapply Hmono2, Hdom1 | eapply Hdom2]; eauto.
  - intros n hs Hc. destruct (Hent2 n hs Hc) as [Hb|(args & Hin & Hg)].
    + destruct (Hent1 n hs Hb) as [Ha|(args & Hin & Hg)]; [by left|].
      right. exists args. split; [apply elem_of_app; by left | done].
    + right. exists args. split; [apply elem_of_app; by right | done].
Qed.

Lemma find_holes_var (x : string) (st : holes_state) :
  exists st', find_holes (VarExp x) st = Ok (VarExp x, st') /\ holes_step [] st st'.
Proof.
  destruct st as [hs d]. simpl. destruct (is_primop x) eqn:Hx; simpl.
  - eexists. split; [done|]. apply holes_step_refl.
  - eexists. split; [done|]. intros Hp. simpl in *.
    split. { intros y [->%elem_of_singleton|Hy]%elem_of_union; auto. }
    split; [done|]. split.
    + intros n args Hin. by apply elem_of_nil in Hin.
    + intros n hs' H. by left.
Qed.

Lemma find_holes_lam (n : string) (args : list param) (body : exp) (st : holes_state) :
  exists st', find_holes (LamExp n args body) st = Ok (LamExp n args body, st')
              /\ holes_step [(n, param_vars args)] st st'.
Proof.
  destruct st as [hs d]. simpl. eexists. split; [done|].
  intros Hp. simpl in *.
  split. { intros y [Hy _]%elem_of_difference. auto. }
  split. { intros m Hm. destruct (decide (n = m)) as [->|Hne].
           - rewrite lookup_insert_eq. by eexists.
           - by rewrite lookup_insert_ne. }
  split.
  - intros m args' ->%list_elem_of_singleton%pair_eq%proj1.
    rewrite lookup_insert_eq. by eexists.
  - intros m hs'. destruct (decide (n = m)) as [->|Hne].
    + rewrite lookup_insert_eq. intros [= <-]. right. exists (param_vars args).
      split; [by apply list_elem_of_singleton|].
      intros y [Hy Hnot]%elem_of_elements%elem_of_difference.
      split; [|auto]. intros Hin. apply Hnot. by apply elem_of_list_to_set.
    + rewrite lookup_insert_ne by done. by left.
Qed.

Lemma find_holes_other (e : exp) (st : holes_state) :
  match e with LamExp _ _ _ | VarExp _ => False | _ => True end ->
  find_holes e st = Ok (e, st).
Proof. destruct st as [hs d]. by destruct e. Qed.

Lemma holes_traverse_list (es : list exp) :
  Forall traversed es ->
  forall st, exists st',
    map_list find_holes es st = Ok (es, st')
    /\ holes_step (concat (map lambdas es)) st st'.
Proof.
  induction 1 as [|e es He _ IH]; intros st; simpl.
  - eexists. split; [done|]. apply holes_step_refl.
  - destruct (He st) as (st1 & -> & H1). simpl.
    destruct (IH st1) as (st2 & -> & H2). simpl.
    eexists. split; [done|]. by eapply holes_step_trans.
Qed.

Lemma holes_traverse_bindings (bs : list (string * exp)) :
  Forall (fun b => traversed (snd b)) bs ->
  forall st, exists st',
    map_bindings find_holes bs st = Ok (bs, st')
    /\ holes_step (concat (map (fun b => lambdas (snd b)) bs)) st st'.
Proof.
  induction 1 as [|[x e] bs He _ IH]; intros st; simpl.
  - eexists. split; [done|]. apply holes_step_refl.
  - simpl in He. destruct (He st) as (st1 & -> & H1). simpl.
    destruct (IH st1) as (st2 & -> & H2). simpl.
    eexists. split; [done|]. by eapply holes_step_trans.
Qed.

Lemma holes_traverse (e : exp) : traversed e.
Proof.
  induction e as [x|v|v|v| |n args body IHb|fn args IHfn IHargs|c t e IHc IHt IHe
                 |bnds body IHbnds IHb|es IHes|x v IHv|x v t IHv IHt|c]
    using exp_ind; intros st.
  - apply find_holes_var.
  - eexists. split; [by apply find_holes_other | apply holes_step_refl].
  - eexists. split; [by apply find_holes_other | apply holes_step_refl].
  - eexists. split; [by apply find_holes_other | apply holes_step_refl].
  - eexists. split; [by apply find_holes_other | apply holes_step_refl].
  - rewrite map_exp_lam. destruct (IHb st) as (st1 & -> & H1). simpl.
    destruct (find_holes_lam n args body st1) as (st2 & -> & H2).
    eexists. split; [done|]. by eapply holes_step_trans.
  - rewrite map_exp_app. destruct (IHfn st) as (st1 & -> & H1). simpl.
    destruct (holes_traverse_list args IHargs st1) as (st2 & -> & H2). simpl.
    eexists. split; [by apply find_holes_other|]. by eapply holes_step_trans.
  - rewrite map_exp_if. destruct (IHc st) as (st1 & -> & H1). simpl.
    destruct (IHt st1) as (st2 & -> & H2). simpl.
    destruct (IHe st2) as (st3 & -> & H3). simpl.
    eexists. split; [by apply find_holes_other|].
    eapply holes_step_trans; [done|]. by eapply holes_step_trans.
  - rewrite map_exp_letrec.
    destruct (holes_traverse_bindings bnds IHbnds st) as (st1 & -> & H1). simpl.
    destruct (IHb st1) as (st2 & -> & H2). simpl.
    eexists. split; [by apply find_holes_other|]. by eapply holes_step_trans.
  - rewrite map_exp_begin.
    destruct (holes_traverse_list es IHes st) as (st1 & -> & H1). simpl.
    eexists. split; [by apply find_holes_other | done].
  - rewrite map_exp_set. destruct (IHv st) as (st1 & -> & H1). simpl.
    eexists. split; [by apply find_holes_other | done].
  - rewrite map_exp_setthen. destruct (IHv st) as (st1 & -> & H1). simpl.
    destruct (IHt st1) as (st2 & -> & H2). simpl.
    eexists. split; [by apply find_holes_other|]. by eapply holes_step_trans.
  - eexists. split; [by apply find_holes_other | apply holes_step_refl].
Qed.

(** [compute_holes] returns, with an entry for every Lambda of the tree;
    each entry was recorded for a Lambda with that name. *)
Lemma compute_holes_spec (root : exp) :
  exists holes_dict,
    compute_holes root = Ok holes_dict
    /\ (forall n args, (n, args) ∈ lambdas root -> is_Some (holes_dict !! n))
    /\ (forall n hs, holes_dict !! n = Some hs ->
          exists args, (n, args) ∈ lambdas root /\ good_holes args hs).
Proof.
  unfold compute_holes.
  destruct (holes_traverse root (∅, ∅)) as ([hs d] & -> & Hstep). simpl.
  destruct Hstep as (_ & _ & Hdom & Hent).
  { intros x Hx. by apply not_elem_of_empty in Hx. }
  exists d. split; [done|]. split; [exact Hdom|].
  intros n hs' Hn. destruct (Hent n hs' Hn) as [Hemp|H]; [|done].
  simpl in Hemp. by rewrite lookup_empty in Hemp.
Qed.

Lemma lambdas_lambda_params (e : exp) :
  lambdas e = map (fun np => (fst np, param_vars (snd np))) (lambda_params e).
Proof.
  induction e as [x|v|v|v| |n args body IHb|fn args IHfn IHargs|c t e IHc IHt IHe
                 |bnds body IHbnds IHb|es IHes|x v IHv|x v t IHv IHt|c]
    using exp_ind; simpl; rewrite ?map_app; try congruence.
  - by rewrite IHb.
  - rewrite IHfn. f_equal. clear IHfn.
    induction IHargs as [|a args Ha _ IH]; simpl; [done|].
    by rewrite map_app, Ha, IH.
  - rewrite IHb. f_equal. clear IHb.
    induction IHbnds as [|[x a] bnds Ha _ IH]; simpl in *; [done|].
    by rewrite map_app, Ha, IH.
  - induction IHes as [|a es Ha _ IH]; simpl; [done|].
    by rewrite map_app, Ha, IH.
Qed.

Lemma param_vars_elem (x : string) (args : list param) :
  x ∈ param_vars args <-> ParamVar x ∈ args.
Proof.
  induction args as [|[y|c] args IH]; simpl.
  - split; intros H; by apply elem_of_nil in H.
  - rewrite !elem_of_cons, IH. split; intros [H|H]; auto; left; congruence.
  - rewrite elem_of_cons, IH. split; [auto|]. by intros [?|?].
Qed.

(** C5 as stated fails. In a Lambda whose parameter carries the name of
    the parameter of [halt] and whose body passes [halt] to it, the hole
    list recorded for [halt] holds the name of the parameter of [halt].
    That parameter is a lowered fragment, which the subtraction of the
    parameters from the running set of Variable nodes does not remove. *)
Lemma holes_include_lowered_parameter :
  exists p body holes_dict hs,
    halt "lambda_0" "__halt_0" = LamExp "lambda_0" [p] body
    /\ param_str p = "__halt_0"
    /\ compute_holes
         (LamExp "lambda_1" [ParamVar "__halt_0"]
            (AppExp (VarExp "__halt_0") [halt "lambda_0" "__halt_0"]))
       = Ok holes_dict
    /\ holes_dict !! "lambda_0" = Some hs
    /\ "__halt_0" ∈ hs.
Proof.
  eexists _, _, _, ["__halt_0"].
  split; [reflexivity|]. split; [reflexivity|].
  split; [vm_compute; reflexivity|]. split; [reflexivity|]. by left.
Qed.

(** C5 (amended): the analysis returns a map with an entry for every
    Lambda of the tree, and (a Lambda's name identifying the node, as the
    data model has it, so that a node may occur more than once) the hole
    list recorded for a Lambda contains none of that Lambda's own formal
    parameters that are Variable nodes and no primitive operator name. *)
Theorem holes_exclude_params_and_primops (root : exp)
    (Hident : forall n args args',
        (n, args) ∈ lambda_params root -> (n, args') ∈ lambda_params root ->
        args = args') :
  exists holes_dict,
    compute_holes root = Ok holes_dict
    /\ forall n args, (n, args) ∈ lambda_params root ->
         exists hs, holes_dict !! n = Some hs
                    /\ forall x, x ∈ hs -> (ParamVar x ∉ args) /\ is_primop x = false.
Proof.
  destruct (compute_holes_spec root) as (d & Hd & Hdom & Hent).
  exists d. split; [done|]. intros n args Hin.
  assert (Hin0 : (n, param_vars args) ∈ lambdas root).
  { rewrite lambdas_lambda_params.
    change ((n, param_vars args)
              ∈ (fun np => (fst np, param_vars (snd np))) <$> lambda_params root).
    apply list_elem_of_fmap. by exists (n, args). }
  destruct (Hdom _ _ Hin0) as [hs Hhs]. exists hs. split; [done|].
  destruct (Hent n hs Hhs) as (vs & Hin' & Hgood).
  rewrite lambdas_lambda_params in Hin'.
  change ((n, vs) ∈ (fun np => (fst np, param_vars (snd np))) <$> lambda_params root)
    in Hin'.
  apply list_elem_of_fmap in Hin' as ([m args'] & [= -> ->] & Hin').
  rewrite (Hident _ _ _ Hin' Hin) in Hgood.
  intros x Hx. destruct (Hgood x Hx) as [Hnot Hp]. split; [|done].
  by rewrite <- param_vars_elem.
Qed.

Lemma holes_exclude_params_and_primops_witness :
  exists holes_dict,
    compute_holes
      (LamExp "lambda_1" [ParamVar "x"; ParamVar "k"]
         (IfExp (VarExp "x")
            (AppExp (VarExp "+") [VarExp "x"; VarExp "y"; halt "lambda_0" "__halt_0"])
            (AppExp (VarExp "k") [VarExp "x"; halt "lambda_0" "__halt_0"])))
    = Ok holes_dict
    /\ exists hs, holes_dict !! "lambda_1" = Some hs
                  /\ forall x, x ∈ hs ->
                       (ParamVar x ∉ [ParamVar "x"; ParamVar "k"])
                       /\ is_primop x = false.
Proof.
  destruct (holes_exclude_params_and_primops
              (LamExp "lambda_1" [ParamVar "x"; ParamVar "k"]
                 (IfExp (VarExp "x")
                    (AppExp (VarExp "+")
                       [VarExp "x"; VarExp "y"; halt "lambda_0" "__halt_0"])
                    (AppExp (VarExp "k") [VarExp "x"; halt "lambda_0" "__halt_0"]))))
    as (d & Hd & H).
  - simpl. intros n args args' H1 H2.
    repeat (apply elem_of_cons in H1 as [H1|H1]; [injection H1 as -> ->|]);
      try (by apply elem_of_nil in H1);
      repeat (apply elem_of_cons in H2 as [H2|H2]; [by inversion H2|]);
      by apply elem_of_nil in H2.
  - exists d. split; [exact Hd|]. apply H. simpl. by do 2 right; left.
Defined.

(** ** Traversals in general *)

Lemma rbind_ok {A B} (m : result A) (k : A -> result B) (b : B) :
  rbind m k = Ok b -> exists a, m = Ok a /\ k a = Ok b.
Proof. destruct m as [a|e]; simpl; [by exists a | discriminate]. Qed.

(** A property of the state that every visit preserves is preserved by
    the traversal. *)
Section Preserves.
Context {S : Type} (f : exp -> S -> result (exp * S)) (I : S -> Prop).
Hypothesis Hf : forall e s e' s', I s -> f e s = Ok (e', s') -> I s'.

Lemma map_list_preserves (es : list exp) :
  Forall (preserved f I) es ->
  forall s es' s', I s -> map_list f es s = Ok (es', s') -> I s'.
Proof.
  induction 1 as [|e es He _ IH]; intros s es' s' Hs; simpl.
  - by intros [= _ <-].
  - intros ([e1 s1] & H1 & H)%rbind_ok.
    apply rbind_ok in H as ([es1 s2] & H2 & [= _ <-]).
    eapply IH; [|exact H2]. eapply He; [exact Hs | exact H1].
Qed.

Lemma map_bindings_preserves (bnds : list (string * exp)) :
  Forall (fun b => preserved f I (snd b)) bnds ->
  forall s bnds' s', I s -> map_bindings f bnds s = Ok (bnds', s') -> I s'.
Proof.
  induction 1 as [|[x e] bnds He _ IH]; intros s bnds' s' Hs; simpl.
  - by intros [= _ <-].
  - intros ([e1 s1] & H1 & H)%rbind_ok.
    apply rbind_ok in H as ([bnds1 s2] & H2 & [= _ <-]).
    eapply IH; [|exact H2]. eapply He; [exact Hs | exact H1].
Qed.

Lemma map_exp_preserves (e : exp) : preserved f I e.
Proof.
  induction e as [x|v|v|v| |n args body IHb|fn args IHfn IHargs|c t e IHc IHt IHe
                 |bnds body IHbnds IHb|es IHes|x v IHv|x v t IHv IHt|c]
    using exp_ind; intros s e' s' Hs;
    try (by apply Hf).
  - rewrite map_exp_lam. intros ([b1 s1] & H1 & H)%rbind_ok.
    eapply Hf; [|exact H]. by eapply IHb.
  - rewrite map_exp_app. intros ([fn1 s1] & H1 & H)%rbind_ok.
    apply rbind_ok in H as ([args1 s2] & H2 & H).
    eapply Hf; [|exact H]. eapply map_list_preserves; [exact IHargs| |exact H2].
    by eapply IHfn.
  - rewrite map_exp_if. intros ([c1 s1] & H1 & H)%rbind_ok.
    apply rbind_ok in H as ([t1 s2] & H2 & H).
    apply rbind_ok in H as ([e1 s3] & H3 & H).
    eapply Hf; [|exact H]. eapply IHe; [|exact H3].
    eapply IHt; [|exact H2]. by eapply IHc.
  - rewrite map_exp_letrec. intros ([bnds1 s1] & H1 & H)%rbind_ok.
    apply rbind_ok in H as ([b1 s2] & H2 & H).
    eapply Hf; [|exact H]. eapply IHb; [|exact H2].
    by eapply map_bindings_preserves.
  - rewrite map_exp_begin. intros ([es1 s1] & H1 & H)%rbind_ok.
    eapply Hf; [|exact H]. by eapply map_list_preserves.
  - rewrite map_exp_set. intros ([v1 s1] & H1 & H)%rbind_ok.
    eapply Hf; [|exact H]. by eapply IHv.
  - rewrite map_exp_setthen. intros ([v1 s1] & H1 & H)%rbind_ok.
    apply rbind_ok in H as ([t1 s2] & H2 & H).
    eapply Hf; [|exact H]. eapply IHt; [|exact H2]. by eapply IHv.
Qed.
End Preserves.

(** ** The lifter during lowering *)

Ltac invert_ok H :=
  repeat first
    [ discriminate H
    | match type of H with
      | rbind ?m _ = Ok _ =>
          let a := fresh "a" in let Ha := fresh "Ha" in
          apply rbind_ok in H as (a & Ha & H)
      | (let '(_, _) := ?x in _) = Ok _ =>
          let Hx := fresh "Hx" in destruct x eqn:Hx
      | match ?x with _ => _ end = Ok _ =>
          let Hx := fresh "Hx" in destruct x eqn:Hx
      end
    | progress simpl in H ].

(** A visit of [to_cpp] changes the lifter only at a Lambda, by the
    lookup of that Lambda. *)
Lemma to_cpp_lambda_gen holes (e e' : exp) (s s' : lower_state) :
  to_cpp holes e s = Ok (e', s') ->
  lambda_gen s' = lambda_gen s
  \/ exists n args body cls,
       e = LamExp n args body
       /\ LambdaGenCpp.getitem (lambda_gen s) n (map param_str args) body
          = Ok (cls, lambda_gen s').
Proof.
  intros H. destruct e; unfold to_cpp, unimplemented, gensym in H;
    invert_ok H; try (inversion H; subst; by left).
  right. inversion H; subst. simpl. by eexists _, _, _, _.
Qed.

(** ** Lowering of applications *)

Lemma all_cpp_map (cs : list CppCode) : all_cpp (map Cpp cs) = Ok cs.
Proof. induction cs as [|c cs IH]; simpl; [done|]. by rewrite IH. Qed.

Lemma length_all_but_last {A} (l : list A) : length (all_but_last l) = length l - 1.
Proof.
  unfold all_but_last. induction l as [|a [|b l] IH]; simpl in *; [done..|].
  rewrite IH. lia.
Qed.

Lemma accepts_arity (op : string) (n : nat) : accepts op n = true -> n = 1 \/ n = 2.
Proof.
  unfold accepts. destruct (NumPrimOps.contains op).
  - intros [H|H]%orb_prop; apply andb_prop in H as [H%Nat.eqb_eq _]; auto.
  - intros [_ H%Nat.eqb_eq]%andb_prop. auto.
Qed.

Lemma last_is_Some {A} (l : list A) : 0 < length l -> is_Some (last l).
Proof.
  induction l as [|a [|b l] IH]; simpl; [lia|by eexists|].
  intros _. apply IH. simpl. lia.
Qed.

(** The primitive branch of the application case, on lowered children. *)
Lemma to_cpp_prim_app holes (st : lower_state) (cf : CppCode) (cs : list CppCode) :
  is_primop (code cf) = true ->
  accepts (code cf) (length cs - 1) = true ->
  let tmp := "__ret_" +:+ pretty (gensym_next st) in
  let prim := "__prim_" +:+ pretty (S (gensym_next st)) in
  exists ty body k,
    gen_primop (code cf) prim (map code (all_but_last cs)) = Ok (ty, body)
    /\ last cs = Some k
    /\ to_cpp holes (AppExp (Cpp cf) (map Cpp cs)) st
       = Ok (Cpp (mkCppCode KAppExp tmp
                    (concat (map decls cs) ++ decls cf ++
                     [(declare prim +:+ nl +:+ thunk_decl tmp,
                       prim_app_op prim ty body tmp (code k))])),
             mkState (S (S (gensym_next st))) (lambda_gen st)).
Proof.
  intros Hprim Hacc tmp prim.
  destruct (gen_primop_accepted (code cf) prim (map code (all_but_last cs)))
    as (ty & body & Hgen & _).
  { by rewrite length_map, length_all_but_last. }
  destruct (last_is_Some cs) as [k Hk].
  { apply accepts_arity in Hacc. lia. }
  exists ty, body, k. split; [done|]. split; [done|].
  unfold to_cpp. rewrite all_cpp_map. simpl. rewrite Hprim.
  fold prim. rewrite Hgen. simpl. unfold last_item. rewrite Hk. simpl.
  by rewrite <- app_assoc.
Qed.

(** C3 as stated fails: [zero?] is a recognized primitive, but applied
    to two operands and a continuation the node has no value. *)
Lemma prim_application_arity_rejected :
  is_primop "zero?" = true
  /\ map_exp (to_cpp ∅) (AppExp (VarExp "zero?") [NumExp 1; NumExp 2; VarExp "k"])
       (mkState 0 (LambdaGenCpp.mk ∅ [] ∅))
     = Raise (RuntimeError "unimplemented primitive number operation: zero?").
Proof. split; reflexivity. Qed.

(** C3 (amended): for an Application whose callee fragment names a
    recognized primitive that accepts the operand count (all arguments
    but the last), lowering applies the primitive to the value
    identifiers of all arguments but the last, with a fresh slot as
    destination, and returns a fresh thunk as the node's value; the
    node's list is the arguments' lists in order, then the callee's
    list, then one pair that declares the slot and the thunk and whose
    operation tags the slot, runs the primitive's code and invokes the
    last argument with the slot. *)
Theorem prim_application_lowering holes (st : lower_state) (func : CppCode)
    (args : list CppCode)
    (Hprim : is_primop (code func) = true)
    (Haccepts : accepts (code func) (length args - 1) = true) :
  let tmp := "__ret_" +:+ pretty (gensym_next st) in
  let prim := "__prim_" +:+ pretty (S (gensym_next st)) in
  exists ty body k,
    gen_primop (code func) prim (map code (all_but_last args)) = Ok (ty, body)
    /\ last args = Some k
    /\ to_cpp holes (AppExp (Cpp func) (map Cpp args)) st
       = Ok (Cpp (mkCppCode KAppExp tmp
                    (concat (map decls args) ++ decls func ++
                     [("SCHEMETYPE_T " +:+ prim +:+ "(new schemetype_t);" +:+ nl +:+
                       "THUNK_T " +:+ tmp +:+ "(nullptr);",
                       prim +:+ "->type = " +:+ ty +:+ ";" +:+ nl +:+
                       body +:+ nl +:+
                       tmp +:+ " = std::move((*" +:+ code k +:+ "->lam)("
                           +:+ prim +:+ "));")])),
             mkState (S (S (gensym_next st))) (lambda_gen st)).
Proof.
  intros tmp prim.
  destruct (to_cpp_prim_app holes st func args Hprim Haccepts) as (ty & body & k & H1 & H2 & H3).
  exists ty, body, k. split; [exact H1|]. split; [exact H2|].
  rewrite H3. unfold declare, thunk_decl, prim_app_op. fold tmp prim.
  rewrite !append_assoc. reflexivity.
Qed.

Lemma prim_application_lowering_witness :
  exists ty body k,
    gen_primop "+" "__prim_1" ["a"; "b"] = Ok (ty, body)
    /\ last [mkCppCode KVarExp "a" []; mkCppCode KVarExp "b" []; mkCppCode KVarExp "k" []]
       = Some k
    /\ exists c st',
         to_cpp ∅
           (AppExp (Cpp (mkCppCode KVarExp "+" []))
              (map Cpp [mkCppCode KVarExp "a" []; mkCppCode KVarExp "b" [];
                        mkCppCode KVarExp "k" []]))
           (mkState 0 (LambdaGenCpp.mk ∅ [] ∅))
         = Ok (Cpp c, st').
Proof.
  destruct (prim_application_lowering ∅ (mkState 0 (LambdaGenCpp.mk ∅ [] ∅))
              (mkCppCode KVarExp "+" [])
              [mkCppCode KVarExp "a" []; mkCppCode KVarExp "b" []; mkCppCode KVarExp "k" []]
              eq_refl eq_refl)
    as (ty & body & k & H1 & H2 & H3).
  exists ty, body, k. split; [exact H1|]. split; [exact H2|].
  eexists _, _. exact H3.
Defined.

(** ** The analysis step by step *)

Lemma cap_step_refl (st : holes_state) : cap_step [] [] [] st st.
Proof.
  split; [|split].
  - intros x [Hx|[Hx _]] _; [done | by apply elem_of_nil in Hx].
  - done.
  - intros _ n args body Hin. by apply elem_of_nil in Hin.
Qed.

Lemma cap_step_trans V1 V2 B1 B2 L1 L2 (a b c : holes_state) :
  cap_step V1 B1 L1 a b -> cap_step V2 B2 L2 b c ->
  cap_step (V1 ++ V2) (B1 ++ B2) (L1 ++ L2) a c.
Proof.
  intros (Hk1 & Hf1 & He1) (Hk2 & Hf2 & He2). split; [|split].
  - intros x Hx [HB1 HB2]%not_elem_of_app.
    destruct Hx as [Hx|[[Hx|Hx]%elem_of_app Hp]].
    + apply Hk2; [|done]. left. apply Hk1; [by left | done].
    + apply Hk2; [|done]. left. apply Hk1; [by right | done].
    + apply Hk2; [by right | done].
  - intros n. rewrite map_app. intros [H1 H2]%not_elem_of_app.
    by rewrite Hf2, Hf1.
  - rewrite map_app. intros (Hnd1 & Hdisj & Hnd2)%NoDup_app n args body.
    intros [Hin|Hin]%elem_of_app.
    + destruct (He1 Hnd1 n args body Hin) as (hs & Hhs & Hcap).
      exists hs. split; [|done]. rewrite Hf2; [done|].
      apply Hdisj. change (n ∈ (fun nd => fst (fst nd)) <$> L1).
      apply list_elem_of_fmap. by exists (n, args, body).
    + by apply He2.
Qed.

Lemma cap_step_nil_r V B L (a b c : holes_state) :
  cap_step V B L a b -> cap_step [] [] [] b c -> cap_step V B L a c.
Proof.
  intros H1 H2. rewrite <- (app_nil_r V), <- (app_nil_r B), <- (app_nil_r L).
  by eapply cap_step_trans.
Qed.

Lemma find_holes_cap_other (e e' : exp) (st st' : holes_state) :
  match e with LamExp _ _ _ | VarExp _ => False | _ => True end ->
  find_holes e st = Ok (e', st') -> cap_step [] [] [] st st'.
Proof.
  intros He. rewrite find_holes_other by done. intros [= _ <-]. apply cap_step_refl.
Qed.

Lemma find_holes_cap_var (x : string) (e' : exp) (st st' : holes_state) :
  find_holes (VarExp x) st = Ok (e', st') -> cap_step [x] [] [] st st'.
Proof.
  destruct st as [hs d]. simpl.
  destruct (is_primop x) eqn:Hx; simpl; intros [= _ <-]; (split; [|split]); simpl.
  - intros y [Hy|[->%list_elem_of_singleton Hp]] _; [done | congruence].
  - done.
  - intros _ n args body Hin. by apply elem_of_nil in Hin.
  - intros y [Hy|[->%list_elem_of_singleton Hp]] _;
      [by apply elem_of_union_r | by apply elem_of_union_l, elem_of_singleton].
  - done.
  - intros _ n args body Hin. by apply elem_of_nil in Hin.
Qed.

Lemma find_holes_cap_lam n args body (e' : exp) (a b c : holes_state) :
  cap_step (vars body) (bound body) (lambda_nodes body) a b ->
  find_holes (LamExp n args body) b = Ok (e', c) ->
  cap_step (vars body) (bound body ++ param_vars args)
    (lambda_nodes body ++ [(n, param_vars args, body)]) a c.
Proof.
  intros (Hk & Hf & He). destruct b as [hs d]. simpl. intros [= _ <-].
  split; [|split]; simpl in *.
  - intros x Hx [HB Hargs]%not_elem_of_app.
    apply elem_of_difference. split; [by apply Hk|].
    by rewrite elem_of_list_to_set.
  - intros m. rewrite map_app. intros [Hm Hn]%not_elem_of_app.
    simpl in Hn. apply not_elem_of_cons in Hn as [Hne _].
    rewrite lookup_insert_ne by done. by apply Hf.
  - rewrite map_app. intros (Hnd & Hdisj & _)%NoDup_app m args' body'.
    intros [Hin|[= -> -> ->]%list_elem_of_singleton]%elem_of_app.
    + destruct (He Hnd m args' body' Hin) as (hs' & Hhs & Hcap).
      exists hs'. split; [|done]. rewrite lookup_insert_ne; [done|].
      intros <-. eapply Hdisj; [|by left].
      change (n ∈ (fun nd => fst (fst nd)) <$> lambda_nodes body).
      apply list_elem_of_fmap. by exists (n, args', body').
    + rewrite lookup_insert_eq. eexists. split; [done|].
      intros x (Hv & Hp & Hargs & Hb).
      apply elem_of_elements, elem_of_difference. split.
      * apply Hk; [by right | done].
      * by rewrite elem_of_list_to_set.
Qed.

Lemma captured_list (es : list exp) :
  Forall captured es ->
  forall st es' st',
    map_list find_holes es st = Ok (es', st') ->
    cap_step (concat (map vars es)) (concat (map bound es))
      (concat (map lambda_nodes es)) st st'.
Proof.
  induction 1 as [|e es He _ IH]; intros st es' st'; simpl.
  - intros [= _ <-]. apply cap_step_refl.
  - intros ([e1 s1] & H1 & H)%rbind_ok.
    apply rbind_ok in H as ([es1 s2] & H2 & [= _ <-]).
    eapply cap_step_trans; [by eapply He | by eapply IH].
Qed.

Lemma captured_bindings (bnds : list (string * exp)) :
  Forall (fun b => captured (snd b)) bnds ->
  forall st bnds' st',
    map_bindings find_holes bnds st = Ok (bnds', st') ->
    cap_step (concat (map (fun b => vars (snd b)) bnds))
      (concat (map (fun b => bound (snd b)) bnds))
      (concat (map (fun b => lambda_nodes (snd b)) bnds)) st st'.
Proof.
  induction 1 as [|[x e] bnds He _ IH]; intros st bnds' st'; simpl.
  - intros [= _ <-]. apply cap_step_refl.
  - intros ([e1 s1] & H1 & H)%rbind_ok.
    apply rbind_ok in H as ([bnds1 s2] & H2 & [= _ <-]).
    eapply cap_step_trans; [by eapply He | by eapply IH].
Qed.

Lemma find_holes_same (e e' : exp) (st st' : holes_state) :
  find_holes e st = Ok (e', st') -> e' = e.
Proof.
  destruct st as [hs d]. destruct e; simpl; try by intros [= <- _].
  destruct (is_primop name); simpl; by intros [= <- _].
Qed.

Lemma map_exp_find_holes_same (e e' : exp) (st st' : holes_state) :
  map_exp find_holes e st = Ok (e', st') -> e' = e.
Proof.
  destruct (holes_traverse e st) as (st1 & -> & _). by intros [= <- _].
Qed.

Lemma holes_captured (e : exp) : captured e.
Proof.
  induction e as [x|v|v|v| |n args body IHb|fn args IHfn IHargs|c t e IHc IHt IHe
                 |bnds body IHbnds IHb|es IHes|x v IHv|x v t IHv IHt|c]
    using exp_ind; intros st e' st'.
  - apply find_holes_cap_var.
  - by apply find_holes_cap_other.
  - by apply find_holes_cap_other.
  - by apply find_holes_cap_other.
  - by apply find_holes_cap_other.
  - rewrite map_exp_lam. intros ([b1 s1] & H1 & H)%rbind_ok.
    pose proof (map_exp_find_holes_same _ _ _ _ H1) as ->.
    eapply (find_holes_cap_lam n args body); [by eapply IHb | exact H].
  - rewrite map_exp_app. intros ([f1 s1] & H1 & H)%rbind_ok.
    apply rbind_ok in H as ([a1 s2] & H2 & H).
    eapply cap_step_nil_r; [|eapply find_holes_cap_other; [|exact H]; exact I].
    eapply cap_step_trans; [by eapply IHfn | by eapply captured_list].
  - rewrite map_exp_if. intros ([c1 s1] & H1 & H)%rbind_ok.
    apply rbind_ok in H as ([t1 s2] & H2 & H).
    apply rbind_ok in H as ([e1 s3] & H3 & H).
    eapply cap_step_nil_r; [|eapply find_holes_cap_other; [|exact H]; exact I].
    eapply cap_step_trans; [by eapply IHc|].
    eapply cap_step_trans; [by eapply IHt | by eapply IHe].
  - rewrite map_exp_letrec. intros ([b1 s1] & H1 & H)%rbind_ok.
    apply rbind_ok in H as ([b2 s2] & H2 & H).
    eapply cap_step_nil_r; [|eapply find_holes_cap_other; [|exact H]; exact I].
    eapply cap_step_trans; [by eapply captured_bindings | by eapply IHb].
  - rewrite map_exp_begin. intros ([es1 s1] & H1 & H)%rbind_ok.
    eapply cap_step_nil_r; [|eapply find_holes_cap_other; [|exact H]; exact I].
    by eapply captured_list.
  - rewrite map_exp_set. intros ([v1 s1] & H1 & H)%rbind_ok.
    eapply cap_step_nil_r; [|eapply find_holes_cap_other; [|exact H]; exact I].
    by eapply IHv.
  - rewrite map_exp_setthen. intros ([v1 s1] & H1 & H)%rbind_ok.
    apply rbind_ok in H as ([t1 s2] & H2 & H).
    eapply cap_step_nil_r; [|eapply find_holes_cap_other; [|exact H]; exact I].
    eapply cap_step_trans; [by eapply IHv | by eapply IHt].
  - by apply find_holes_cap_other.
Qed.

(** ** Lowering of supported trees *)

Lemma getitem_total (self : LambdaGenCpp.t) (n : string) (args : list string)
    (cb : CppCode) :
  is_Some (LambdaGenCpp.holes self !! n) ->
  exists self',
    LambdaGenCpp.getitem self n args (Cpp cb) = Ok (n, self')
    /\ LambdaGenCpp.holes self' = LambdaGenCpp.holes self.
Proof.
  intros [hs Hhs]. unfold LambdaGenCpp.getitem.
  destruct (LambdaGenCpp.od_has (LambdaGenCpp._decls self) n); simpl.
  - by eexists.
  - rewrite Hhs. simpl. destruct (decls_ops cb) as [ds os]. by eexists.
Qed.

Lemma letrec_decls_map (cbs : list (string * CppCode)) :
  letrec_decls (map (fun cb => (fst cb, Cpp (snd cb))) cbs) = Ok (binding_decls cbs).
Proof.
  induction cbs as [|[x c] cbs IH]; simpl; [done|]. by rewrite IH.
Qed.

Lemma lower_list holes lgh (es : list exp) :
  Forall (lowers holes lgh) es ->
  forallb supported es = true ->
  (forall n args, (n, args) ∈ concat (map lambdas es) ->
     is_Some (holes !! n) /\ is_Some (lgh !! n)) ->
  forall st, LambdaGenCpp.holes (lambda_gen st) = lgh ->
  exists cs st',
    map_list (to_cpp holes) es st = Ok (map Cpp cs, st')
    /\ LambdaGenCpp.holes (lambda_gen st') = lgh
    /\ Forall2 shape es cs.
Proof.
  induction 1 as [|e es He _ IH]; simpl; intros Hsup Hdom st Hst.
  - exists [], st. by repeat split.
  - apply andb_prop in Hsup as [Hsup1 Hsup2].
    destruct (He Hsup1) with (st := st) as (c & st1 & -> & Hst1 & Hc); [|done|].
    { intros n args Hin. apply (Hdom n args), elem_of_app. by left. }
    simpl. destruct (IH Hsup2) with (st := st1) as (cs & st2 & -> & Hst2 & Hcs); [|done|].
    { intros n args Hin. apply (Hdom n args), elem_of_app. by right. }
    simpl. exists (c :: cs), st2. split; [done|]. split; [done|]. by constructor.
Qed.

Lemma lower_bindings holes lgh (bnds : list (string * exp)) :
  Forall (fun b => lowers holes lgh (snd b)) bnds ->
  forallb (fun b => supported (snd b)) bnds = true ->
  (forall n args, (n, args) ∈ concat (map (fun b => lambdas (snd b)) bnds) ->
     is_Some (holes !! n) /\ is_Some (lgh !! n)) ->
  forall st, LambdaGenCpp.holes (lambda_gen st) = lgh ->
  exists cbs st',
    map_bindings (to_cpp holes) bnds st
    = Ok (map (fun cb => (fst cb, Cpp (snd cb))) cbs, st')
    /\ LambdaGenCpp.holes (lambda_gen st') = lgh
    /\ Forall2 (fun b cb => fst b = fst cb /\ shape (snd b) (snd cb)) bnds cbs.
Proof.
  induction 1 as [|[x e] bnds He _ IH]; simpl; intros Hsup Hdom st Hst.
  - exists [], st. by repeat split.
  - apply andb_prop in Hsup as [Hsup1 Hsup2]. simpl in He.
    destruct (He Hsup1) with (st := st) as (c & st1 & -> & Hst1 & Hc); [|done|].
    { intros n args Hin. apply (Hdom n args), elem_of_app. by left. }
    simpl. destruct (IH Hsup2) with (st := st1) as (cbs & st2 & -> & Hst2 & Hcbs); [|done|].
    { intros n args Hin. apply (Hdom n args), elem_of_app. by right. }
    simpl. exists ((x, c) :: cbs), st2. split; [done|]. split; [done|].
    by constructor.
Qed.

Lemma lower_supported holes lgh (e : exp) : lowers holes lgh e.
Proof.
  induction e as [x|v|v|v| |n args body IHb|fn args IHfn IHargs|c t e IHc IHt IHe
                 |bnds body IHbnds IHb|es IHes|x v IHv|x v t IHv IHt|c]
    using exp_ind; intros Hsup Hdom st Hst; try discriminate Hsup.
  - eexists _, _. split; [reflexivity|]. split; [done|]. constructor.
  - eexists _, _. split; [reflexivity|]. split; [done|]. constructor.
  - eexists _, _. split; [reflexivity|]. split; [done|]. constructor.
  - eexists _, _. split; [reflexivity|]. split; [done|]. constructor.
  - (* Lambda *)
    rewrite map_exp_lam. simpl in Hsup, Hdom.
    destruct (IHb Hsup) with (st := st) as (cb & st1 & -> & Hst1 & Hcb); [|done|].
    { intros m a Hin. apply (Hdom m a), elem_of_app. by left. }
    simpl.
    destruct (Hdom n (param_vars args)) as [[hs Hhs] Hlg].
    { apply elem_of_app. right. by apply list_elem_of_singleton. }
    destruct (getitem_total (lambda_gen st1) n (map param_str args) cb)
      as (lg & -> & Hlgh).
    { by rewrite Hst1. }
    simpl. rewrite Hhs. eexists _, _. split; [reflexivity|]. simpl.
    split; [congruence|]. by econstructor.
  - (* Application *)
    rewrite map_exp_app. simpl in Hsup, Hdom.
    apply andb_prop in Hsup as [Hcallee Hsup].
    destruct fn as [x| | | | | | | | | | | | ]; try discriminate Hcallee.
    simpl in Hcallee.
    change (map_exp (to_cpp holes) (VarExp x) st)
      with (Ok (Cpp (mkCppCode KVarExp x []), st)). cbn [rbind].
    destruct (lower_list holes lgh args IHargs Hsup) with (st := st)
      as (cs & st2 & -> & Hst2 & Hcs); [done|done|].
    cbn [rbind]. pose proof (Forall2_length _ _ _ Hcs) as Hlen.
    destruct (is_primop x) eqn:Hprim.
    + destruct (to_cpp_prim_app holes st2 (mkCppCode KVarExp x []) cs)
        as (ty & body & k & Hgen & Hk & ->); [done| |].
      { simpl. by rewrite <- Hlen. }
      eexists _, _. split; [reflexivity|]. split; [done|].
      eapply shape_prim_app; eauto. constructor.
    + unfold to_cpp. rewrite all_cpp_map. simpl. rewrite Hprim.
      eexists _, _. split; [reflexivity|]. split; [done|].
      rewrite app_nil_r.
      change (concat (map decls cs) ++
              [(thunk_decl ("__ret_" +:+ pretty (gensym_next st2)),
                app_op ("__ret_" +:+ pretty (gensym_next st2)) x (map code cs))])
        with (concat (map decls cs) ++ decls (mkCppCode KVarExp x []) ++
              [(thunk_decl ("__ret_" +:+ pretty (gensym_next st2)),
                app_op ("__ret_" +:+ pretty (gensym_next st2))
                  (code (mkCppCode KVarExp x [])) (map code cs))]).
      eapply shape_app; eauto. constructor.
  - (* Conditional *)
    rewrite map_exp_if. simpl in Hsup, Hdom.
    apply andb_prop in Hsup as [Hsup He']. apply andb_prop in Hsup as [Hc' Ht'].
    destruct (IHc Hc') with (st := st) as (cc & st1 & -> & Hst1 & Hcc); [|done|].
    { intros m a Hin. apply (Hdom m a), elem_of_app. by left. }
    simpl.
    destruct (IHt Ht') with (st := st1) as (ct & st2 & -> & Hst2 & Hct); [|done|].
    { intros m a Hin. apply (Hdom m a), elem_of_app. right. apply elem_of_app. by left. }
    simpl.
    destruct (IHe He') with (st := st2) as (ce & st3 & -> & Hst3 & Hce); [|done|].
    { intros m a Hin. apply (Hdom m a), elem_of_app. right. apply elem_of_app. by right. }
    simpl. destruct (decls_ops ct) as [td to] eqn:Ht.
    destruct (decls_ops ce) as [ed eo] eqn:He0.
    eexists _, _. split; [reflexivity|]. split; [done|].
    replace td with (fst (decls_ops ct)) by by rewrite Ht.
    replace to with (snd (decls_ops ct)) by by rewrite Ht.
    replace ed with (fst (decls_ops ce)) by by rewrite He0.
    replace eo with (snd (decls_ops ce)) by by rewrite He0.
    by constructor.
  - (* Recursive-binding block *)
    rewrite map_exp_letrec. simpl in Hsup, Hdom.
    apply andb_prop in Hsup as [Hbnds Hbody].
    destruct (lower_bindings holes lgh bnds IHbnds Hbnds) with (st := st)
      as (cbs & st1 & -> & Hst1 & Hcbs); [|done|].
    { intros m a Hin. apply (Hdom m a), elem_of_app. by left. }
    simpl.
    destruct (IHb Hbody) with (st := st1) as (cb & st2 & -> & Hst2 & Hcb); [|done|].
    { intros m a Hin. apply (Hdom m a), elem_of_app. by right. }
    simpl. rewrite letrec_decls_map. simpl.
    eexists _, _. split; [reflexivity|]. split; [done|]. by constructor.
  - (* Lowered fragment *)
    eexists _, _. split; [reflexivity|]. split; [done|]. constructor.
Qed.

(** Every node that introduces a temporary declares it in its own pair. *)
Lemma shape_declares_value (e : exp) (c : CppCode) :
  shape e c ->
  match e with
  | NumExp _ | BoolExp _ | StrExp _ | LamExp _ _ _ | AppExp _ _ | IfExp _ _ _ =>
      declares_value c
  | _ => True
  end.
Proof.
  unfold declares_value.
  destruct 1; simpl; try done;
    try (exists []; eexists _, _; split; [reflexivity | by left]).
  - eexists _, _, _. rewrite app_assoc. split; [reflexivity|].
    right; right. by eexists.
  - eexists _, _, _. rewrite app_assoc. split; [reflexivity|]. right; by left.
  - eexists _, _, _. split; [reflexivity|]. right; by left.
Qed.

(** ** Scopes *)

Lemma bounded_list (es : list exp) :
  Forall bounded es ->
  forall A st es' st',
    forallb (closed_in A) es = true ->
    (forall x, x ∈ fst st -> x ∈ A) ->
    map_list find_holes es st = Ok (es', st') ->
    forall x, x ∈ fst st' -> x ∈ A.
Proof.
  induction 1 as [|e es He _ IH]; intros A st es' st'; simpl.
  - by intros _ HA [= _ <-].
  - intros [H1 H2]%andb_prop HA ([e1 s1] & Hm1 & H)%rbind_ok.
    apply rbind_ok in H as ([es1 s2] & Hm2 & [= _ <-]).
    eapply IH; [done| |done]. by eapply He.
Qed.

Lemma closed_in_bounded (e : exp) : bounded e.
Proof.
  induction e as [x|v|v|v| |n args body IHb|fn args IHfn IHargs|c t e IHc IHt IHe
                 |bnds body IHbnds IHb|es IHes|x v IHv|x v t IHv IHt|c]
    using exp_ind; intros A st e' st' Hc HA; try discriminate Hc;
    try (destruct st; by intros [= _ <-]).
  - destruct st as [R d]. simpl in *.
    destruct (is_primop x); simpl in *; intros [= _ <-]; [done|].
    apply bool_decide_eq_true in Hc. simpl.
    intros y [->%elem_of_singleton|Hy]%elem_of_union; auto.
  - rewrite map_exp_lam. intros ([b1 [R1 d1]] & H1 & H)%rbind_ok.
    simpl in Hc, H. injection H as _ <-. simpl.
    intros y [Hy Hnot]%elem_of_difference.
    assert (Hin : y ∈ param_vars args ++ A).
    { eapply (IHb _ _ _ _ Hc); [|exact H1|exact Hy].
      intros z Hz. apply elem_of_app. right. by apply HA. }
    apply elem_of_app in Hin as [Hin|Hin]; [|done].
    exfalso. apply Hnot. by apply elem_of_list_to_set.
  - rewrite map_exp_app. simpl in Hc. apply andb_prop in Hc as [Hc1 Hc2].
    intros ([f1 s1] & H1 & H)%rbind_ok.
    apply rbind_ok in H as ([a1 s2] & H2 & H).
    rewrite (find_holes_other (AppExp f1 a1) s2 I) in H. injection H as _ <-.
    eapply (bounded_list args IHargs); [done| |done]. by eapply IHfn.
  - rewrite map_exp_if. simpl in Hc.
    apply andb_prop in Hc as [Hc He']. apply andb_prop in Hc as [Hc' Ht'].
    intros ([c1 s1] & H1 & H)%rbind_ok.
    apply rbind_ok in H as ([t1 s2] & H2 & H).
    apply rbind_ok in H as ([e1 s3] & H3 & H).
    rewrite (find_holes_other (IfExp c1 t1 e1) s3 I) in H. injection H as _ <-.
    eapply IHe; [done| |done]. eapply IHt; [done| |done]. by eapply IHc.
Qed.

Lemma scope_step_refl D (st : holes_state) : scope_step D [] [] st st.
Proof.
  intros HD. split; [done|]. split; [done|].
  intros n Hn. by apply elem_of_nil in Hn.
Qed.

Lemma scope_step_trans D i1 i2 o1 o2 (a b c : holes_state) :
  scope_step D i1 o1 a b -> scope_step D i2 o2 b c ->
  scope_step D (i1 ++ i2) (o1 ++ o2) a c.
Proof.
  intros Hab Hbc HD.
  destruct (Hab HD) as (HDb & Hf1 & He1).
  destruct (Hbc HDb) as (HDc & Hf2 & He2).
  split; [done|]. split.
  - intros n [Hi1 Hi2]%not_elem_of_app [Ho1 Ho2]%not_elem_of_app.
    by rewrite Hf2, Hf1.
  - intros n Hn [Hi1 Hi2]%not_elem_of_app.
    destruct (decide (n ∈ o2)) as [Ho2|Ho2]; [by apply He2|].
    apply elem_of_app in Hn as [Ho1|?]; [|done].
    rewrite Hf2 by done. by apply He1.
Qed.

Lemma scope_step_nil_r D i o (a b c : holes_state) :
  scope_step D i o a b -> scope_step D [] [] b c -> scope_step D i o a c.
Proof.
  intros H1 H2. rewrite <- (app_nil_r i), <- (app_nil_r o).
  by eapply scope_step_trans.
Qed.

Lemma find_holes_scope_other D (e e' : exp) (st st' : holes_state) :
  match e with LamExp _ _ _ | VarExp _ => False | _ => True end ->
  find_holes e st = Ok (e', st') -> scope_step D [] [] st st'.
Proof.
  intros He. rewrite find_holes_other by done. intros [= _ <-]. apply scope_step_refl.
Qed.

Lemma find_holes_scope_var D (x : string) (e' : exp) (st st' : holes_state) :
  is_primop x || bool_decide (x ∈ D) = true ->
  find_holes (VarExp x) st = Ok (e', st') -> scope_step D [] [] st st'.
Proof.
  destruct st as [R d]. simpl.
  destruct (is_primop x); simpl; intros Hx [= _ <-]; [apply scope_step_refl|].
  apply bool_decide_eq_true in Hx.
  intros HD. simpl in *. split; [|split; [done|]].
  - intros y [->%elem_of_singleton|Hy]%elem_of_union; auto.
  - intros n Hn. by apply elem_of_nil in Hn.
Qed.

Lemma find_holes_scope_lam D n args body (b1 e' : exp) (a b c : holes_state) :
  closed_in (param_vars args ++ D) body = true ->
  map_exp find_holes body a = Ok (b1, b) ->
  find_holes (LamExp n args b1) b = Ok (e', c) ->
  scope_step D (map (fun nd => fst (fst nd)) (lambda_nodes body)) [n] a c.
Proof.
  intros Hc Hbody H HD.
  assert (Hb : forall x, x ∈ fst b -> x ∈ param_vars args ++ D).
  { eapply (closed_in_bounded body); [exact Hc| |exact Hbody].
    intros x Hx. apply elem_of_app. right. by apply HD. }
  destruct (holes_captured body _ _ _ Hbody) as (_ & Hframe & _).
  destruct b as [R d]. simpl in H. injection H as _ <-. simpl in *.
  assert (Hsub : forall x, x ∈ R ∖ list_to_set (param_vars args) -> x ∈ D).
  { intros x [Hx Hnot]%elem_of_difference.
    pose proof (Hb x Hx) as Hin. apply elem_of_app in Hin as [Hin|Hin]; [|done].
    exfalso. apply Hnot. by apply elem_of_list_to_set. }
  split; [done|]. split.
  - intros m Hm Hn. apply not_elem_of_cons in Hn as [Hne _].
    rewrite lookup_insert_ne by done. by apply Hframe.
  - intros m ->%list_elem_of_singleton _. rewrite lookup_insert_eq.
    eexists. split; [done|]. intros x Hx%elem_of_elements. by apply Hsub.
Qed.

Lemma scopes_list D (es : list exp) :
  Forall (scopes D) es ->
  forall top st es' st',
    forallb (well_scoped_at D top) es = true ->
    map_list find_holes es st = Ok (es', st') ->
    scope_step D (concat (map inner_lambdas es)) (concat (map outer_lambdas es)) st st'.
Proof.
  induction 1 as [|e es He _ IH]; intros top st es' st'; simpl.
  - intros _ [= _ <-]. apply scope_step_refl.
  - intros [H1 H2]%andb_prop ([e1 s1] & Hm1 & H)%rbind_ok.
    apply rbind_ok in H as ([es1 s2] & Hm2 & [= _ <-]).
    eapply scope_step_trans; [by eapply He | by eapply IH].
Qed.

Lemma scopes_bindings D (bnds : list (string * exp)) :
  Forall (fun b => scopes D (snd b)) bnds ->
  forall top st bnds' st',
    forallb (fun b => well_scoped_at D top (snd b)) bnds = true ->
    map_bindings find_holes bnds st = Ok (bnds', st') ->
    scope_step D (concat (map (fun b => inner_lambdas (snd b)) bnds))
      (concat (map (fun b => outer_lambdas (snd b)) bnds)) st st'.
Proof.
  induction 1 as [|[x e] bnds He _ IH]; intros top st bnds' st'; simpl.
  - intros _ [= _ <-]. apply scope_step_refl.
  - intros [H1 H2]%andb_prop ([e1 s1] & Hm1 & H)%rbind_ok.
    apply rbind_ok in H as ([bnds1 s2] & Hm2 & [= _ <-]).
    eapply scope_step_trans; [by eapply He | by eapply IH].
Qed.

Lemma well_scoped_scopes D (e : exp) : scopes D e.
Proof.
  induction e as [x|v|v|v| |n args body IHb|fn args IHfn IHargs|c t e IHc IHt IHe
                 |bnds body IHbnds IHb|es IHes|x v IHv|x v t IHv IHt|c]
    using exp_ind; intros top st e' st' Hw; try discriminate Hw;
    try (by apply find_holes_scope_other).
  - apply find_holes_scope_var. simpl in Hw. rewrite Hw. apply orb_true_r.
  - rewrite map_exp_lam. intros ([b1 s1] & H1 & H)%rbind_ok.
    by eapply find_holes_scope_lam.
  - rewrite map_exp_app. simpl in Hw. apply andb_prop in Hw as [Hfn Hargs].
    destruct fn as [x| | | | | | | | | | | | ]; try discriminate Hfn.
    intros ([f1 s1] & H1 & H)%rbind_ok.
    apply rbind_ok in H as ([a1 s2] & H2 & H).
    eapply scope_step_nil_r; [|eapply find_holes_scope_other; [|exact H]; exact I].
    eapply (scope_step_trans D [] _ [] _);
      [by eapply find_holes_scope_var | by eapply scopes_list].
  - rewrite map_exp_if. simpl in Hw.
    apply andb_prop in Hw as [Hw He']. apply andb_prop in Hw as [Hc' Ht'].
    intros ([c1 s1] & H1 & H)%rbind_ok.
    apply rbind_ok in H as ([t1 s2] & H2 & H).
    apply rbind_ok in H as ([e1 s3] & H3 & H).
    eapply scope_step_nil_r; [|eapply find_holes_scope_other; [|exact H]; exact I].
    eapply scope_step_trans; [by eapply IHc|].
    eapply scope_step_trans; [by eapply IHt | by eapply IHe].
  - rewrite map_exp_letrec. simpl in Hw.
    apply andb_prop in Hw as [Hw Hbody]. apply andb_prop in Hw as [Htop Hbnds].
    intros ([b1 s1] & H1 & H)%rbind_ok.
    apply rbind_ok in H as ([b2 s2] & H2 & H).
    eapply scope_step_nil_r; [|eapply find_holes_scope_other; [|exact H]; exact I].
    eapply scope_step_trans; [by eapply scopes_bindings | by eapply IHb].
Qed.

(** The analysis of a well-scoped tree records, for the Lambdas outside
    Lambda bodies, names bound by recursive-binding blocks only. *)
Lemma compute_holes_outer (root : exp) (holes : gmap string (list string)) :
  well_scoped root = true ->
  (forall n, n ∈ outer_lambdas root -> n ∉ inner_lambdas root) ->
  compute_holes root = Ok holes ->
  forall n, n ∈ outer_lambdas root ->
    exists hs, holes !! n = Some hs /\ forall x, x ∈ hs -> x ∈ letrec_names root.
Proof.
  intros Hw Hdisj Hrun n Hn. unfold compute_holes in Hrun.
  apply rbind_ok in Hrun as ([e' [R d]] & Hmap & [= <-]).
  destruct (well_scoped_scopes (letrec_names root) root true _ _ _ Hw Hmap)
    as (_ & _ & Hent).
  { intros x Hx. by apply not_elem_of_empty in Hx. }
  apply Hent; [done | by apply Hdisj].
Qed.

(** ** Identifiers of the list of a well-scoped tree *)

Lemma declared_app (l1 l2 : list item) : declared (l1 ++ l2) = declared l1 ++ declared l2.
Proof. unfold declared. by rewrite map_app, concat_app. Qed.

Lemma Forall_all_but_last {A} (P : A -> Prop) (l : list A) :
  Forall P l -> Forall P (all_but_last l).
Proof.
  unfold all_but_last. induction 1 as [|a [|b l] Ha Hl IH]; simpl in *; [done..|].
  by constructor.
Qed.

Lemma forallb_known (env : list string) (cs : list CppCode) :
  Forall (fun c => code c ∈ env) cs ->
  forallb (fun a => bool_decide (a ∈ env)) (map code cs) = true.
Proof.
  induction 1 as [|c cs Hc _ IH]; simpl; [done|].
  rewrite IH, andb_true_r. by apply bool_decide_eq_true.
Qed.

Lemma lower_scoped_list D holes lgh (es : list exp) :
  Forall (lowers_scoped D holes lgh) es ->
  forall top,
    forallb supported es = true ->
    forallb (well_scoped_at D top) es = true ->
    (forall n args, (n, args) ∈ concat (map lambdas es) ->
       is_Some (holes !! n) /\ is_Some (lgh !! n)) ->
    (forall n, n ∈ concat (map outer_lambdas es) ->
       exists hs, holes !! n = Some hs /\ forall x, x ∈ hs -> x ∈ D) ->
    forall st, LambdaGenCpp.holes (lambda_gen st) = lgh ->
    exists cs st' items,
      map_list (to_cpp holes) es st = Ok (map Cpp cs, st')
      /\ LambdaGenCpp.holes (lambda_gen st') = lgh
      /\ length cs = length es
      /\ concat (map decls cs) = map item_pair items
      /\ (forall env, D ⊆ env -> declared items ⊆ env ->
            forallb (item_scoped env) items = true
            /\ Forall (fun c => code c ∈ env) cs)
      /\ concat (map letrec_names es) ⊆ declared items.
Proof.
  induction 1 as [|e es He _ IH]; simpl; intros top Hsup Hw Hdom Hout st Hst.
  - exists [], st, []. by repeat split.
  - apply andb_prop in Hsup as [Hsup1 Hsup2]. apply andb_prop in Hw as [Hw1 Hw2].
    destruct (He top Hsup1 Hw1) with (st := st)
      as (c & st1 & its1 & -> & Hst1 & Hd1 & Hs1 & Hl1); [| |done|].
    { intros n args Hin. apply (Hdom n args), elem_of_app. by left. }
    { intros n Hin. apply Hout, elem_of_app. by left. }
    simpl.
    destruct (IH top Hsup2 Hw2) with (st := st1)
      as (cs & st2 & its2 & -> & Hst2 & Hlen & Hd2 & Hs2 & Hl2); [| |done|].
    { intros n args Hin. apply (Hdom n args), elem_of_app. by right. }
    { intros n Hin. apply Hout, elem_of_app. by right. }
    simpl. exists (c :: cs), st2, (its1 ++ its2).
    split; [done|]. split; [done|]. split; [simpl; congruence|].
    split; [simpl; by rewrite map_app, Hd1, Hd2|]. split.
    + intros env HD Hdecl. rewrite declared_app in Hdecl.
      destruct (Hs1 env HD) as [Hsc1 Hc1].
      { intros x Hx. apply Hdecl, elem_of_app. by left. }
      destruct (Hs2 env HD) as [Hsc2 Hc2].
      { intros x Hx. apply Hdecl, elem_of_app. by right. }
      rewrite forallb_app, Hsc1, Hsc2. split; [done|]. by constructor.
    + rewrite declared_app. intros x [Hx|Hx]%elem_of_app; apply elem_of_app;
        [left; by apply Hl1 | right; by apply Hl2].
Qed.

Lemma lower_scoped_bindings D holes lgh (bnds : list (string * exp)) :
  Forall (fun b => lowers_scoped D holes lgh (snd b)) bnds ->
  forall top,
    forallb (fun b => supported (snd b)) bnds = true ->
    forallb (fun b => well_scoped_at D top (snd b)) bnds = true ->
    (forall n args, (n, args) ∈ concat (map (fun b => lambdas (snd b)) bnds) ->
       is_Some (holes !! n) /\ is_Some (lgh !! n)) ->
    (forall n, n ∈ concat (map (fun b => outer_lambdas (snd b)) bnds) ->
       exists hs, holes !! n = Some hs /\ forall x, x ∈ hs -> x ∈ D) ->
    forall st, LambdaGenCpp.holes (lambda_gen st) = lgh ->
    exists cbs st' items,
      map_bindings (to_cpp holes) bnds st
      = Ok (map (fun cb => (fst cb, Cpp (snd cb))) cbs, st')
      /\ LambdaGenCpp.holes (lambda_gen st') = lgh
      /\ binding_decls cbs = map item_pair items
      /\ (forall env, D ⊆ env -> declared items ⊆ env ->
            forallb (item_scoped env) items = true)
      /\ concat (map (fun b => fst b :: letrec_names (snd b)) bnds) ⊆ declared items.
Proof.
  induction 1 as [|[x e] bnds He _ IH]; simpl; intros top Hsup Hw Hdom Hout st Hst.
  - exists [], st, []. by repeat split.
  - apply andb_prop in Hsup as [Hsup1 Hsup2]. apply andb_prop in Hw as [Hw1 Hw2].
    simpl in He.
    destruct (He top Hsup1 Hw1) with (st := st)
      as (c & st1 & its1 & -> & Hst1 & Hd1 & Hs1 & Hl1); [| |done|].
    { intros n args Hin. apply (Hdom n args), elem_of_app. by left. }
    { intros n Hin. apply Hout, elem_of_app. by left. }
    simpl.
    destruct (IH top Hsup2 Hw2) with (st := st1)
      as (cbs & st2 & its2 & -> & Hst2 & Hd2 & Hs2 & Hl2); [| |done|].
    { intros n args Hin. apply (Hdom n args), elem_of_app. by right. }
    { intros n Hin. apply Hout, elem_of_app. by right. }
    simpl. exists ((x, c) :: cbs), st2, (its1 ++ [IBind x (code c)] ++ its2).
    split; [done|]. split; [done|].
    split; [simpl; by rewrite !map_app, Hd1, Hd2|]. split.
    + intros env HD Hdecl. rewrite !declared_app in Hdecl.
      destruct (Hs1 env HD) as [Hsc1 Hc1].
      { intros y Hy. apply Hdecl, elem_of_app. by left. }
      rewrite !forallb_app, Hsc1, Hs2; [|done|].
      * simpl. rewrite andb_true_r. apply andb_true_intro. split; [|done].
        apply andb_true_intro. split; apply bool_decide_eq_true; [|done].
        apply Hdecl, elem_of_app. right. apply elem_of_app. left. by left.
      * intros y Hy. apply Hdecl, elem_of_app. right. apply elem_of_app. by right.
    + rewrite !declared_app. intros y [->|[Hy|Hy]%elem_of_app]%elem_of_cons.
      * apply elem_of_app. right. apply elem_of_app. left. by left.
      * apply elem_of_app. left. by apply Hl1.
      * apply elem_of_app. right. apply elem_of_app. right. by apply Hl2.
Qed.

Lemma forallb_in (env l : list string) :
  (forall x, x ∈ l -> x ∈ env) -> forallb (fun h => bool_decide (h ∈ env)) l = true.
Proof.
  induction l as [|a l IH]; simpl; intros H; [done|].
  rewrite IH by (intros x Hx; apply H; by right).
  rewrite andb_true_r. apply bool_decide_eq_true, H. by left.
Qed.

Lemma last_elem_of {A} (l : list A) (a : A) : last l = Some a -> a ∈ l.
Proof.
  intros (l' & ->)%last_Some. apply elem_of_app. right. by left.
Qed.

Lemma lower_scoped D holes lgh (e : exp) : lowers_scoped D holes lgh e.
Proof.
  induction e as [x|v|v|v| |n args body IHb|fn args IHfn IHargs|c t e IHc IHt IHe
                 |bnds body IHbnds IHb|es IHes|x v IHv|x v t IHv IHt|c]
    using exp_ind; intros top Hsup Hw Hdom Hout st Hst;
    try discriminate Hsup; try discriminate Hw.
  - (* Variable *)
    exists (mkCppCode KVarExp x []), st, []. split; [reflexivity|]. split; [done|].
    simpl in Hw. apply bool_decide_eq_true in Hw.
    split; [done|]. split; [|by intros ? ?%elem_of_nil].
    intros env HD _. split; [done|]. by apply HD.
  - (* Number *)
    eexists _, _, [ILiteral _ NUM (pretty v)].
    split; [reflexivity|]. split; [done|]. split; [reflexivity|]. split; [|by intros ? ?%elem_of_nil].
    intros env _ Hdecl. simpl.
    assert (Htmp : "__num_" +:+ pretty (gensym_next st) ∈ env) by (apply Hdecl; by left).
    split; [|done]. rewrite andb_true_r. by apply bool_decide_eq_true.
  - (* Boolean *)
    eexists _, _, [ILiteral _ NUM (if v then "1" else "0")].
    split; [reflexivity|]. split; [done|]. split; [reflexivity|]. split; [|by intros ? ?%elem_of_nil].
    intros env _ Hdecl. simpl.
    assert (Htmp : "__bool_" +:+ pretty (gensym_next st) ∈ env) by (apply Hdecl; by left).
    split; [|done]. rewrite andb_true_r. by apply bool_decide_eq_true.
  - (* String *)
    eexists _, _, [ILiteral _ STR (dq +:+ v +:+ dq)].
    split; [reflexivity|]. split; [done|]. split; [reflexivity|]. split; [|by intros ? ?%elem_of_nil].
    intros env _ Hdecl. simpl.
    assert (Htmp : "__str_" +:+ pretty (gensym_next st) ∈ env) by (apply Hdecl; by left).
    split; [|done]. rewrite andb_true_r. by apply bool_decide_eq_true.
  - (* Lambda *)
    rewrite map_exp_lam. simpl in Hsup, Hdom, Hout, Hw.
    destruct (lower_supported holes lgh body Hsup) with (st := st)
      as (cb & st1 & -> & Hst1 & _); [|done|].
    { intros m a Hin. apply (Hdom m a), elem_of_app. by left. }
    simpl.
    destruct (Hout n) as (hs & Hhs & HhsD); [by left|].
    destruct (Hdom n (param_vars args)) as [_ Hlg].
    { apply elem_of_app. right. by apply list_elem_of_singleton. }
    destruct (getitem_total (lambda_gen st1) n (map param_str args) cb)
      as (lg & -> & Hlgh).
    { by rewrite Hst1. }
    simpl. rewrite Hhs.
    eexists _, _, [ILambda ("__lam_" +:+ pretty (gensym_next st1)) n hs].
    split; [reflexivity|]. simpl. split; [congruence|].
    split; [reflexivity|]. split; [|by intros ? ?%elem_of_nil].
    intros env HD Hdecl. simpl.
    assert (Htmp : "__lam_" +:+ pretty (gensym_next st1) ∈ env) by (apply Hdecl; by left).
    split; [|done]. rewrite andb_true_r. apply andb_true_intro.
    split; [by apply bool_decide_eq_true|]. apply forallb_in. auto.
  - (* Application *)
    rewrite map_exp_app. simpl in Hsup, Hdom, Hout, Hw.
    apply andb_prop in Hsup as [Hcallee Hsup]. apply andb_prop in Hw as [Hfn Hargs].
    destruct fn as [x| | | | | | | | | | | | ]; try discriminate Hcallee.
    simpl in Hcallee.
    change (map_exp (to_cpp holes) (VarExp x) st)
      with (Ok (Cpp (mkCppCode KVarExp x []), st)). cbn [rbind].
    destruct (lower_scoped_list D holes lgh args IHargs top Hsup Hargs) with (st := st)
      as (cs & st2 & its & -> & Hst2 & Hlen & Hd & Hs & Hl); [done|done|done|].
    cbn [rbind].
    destruct (is_primop x) eqn:Hprim.
    + destruct (to_cpp_prim_app holes st2 (mkCppCode KVarExp x []) cs)
        as (ty & body & k & Hgen & Hk & ->); [done| |].
      { simpl. by rewrite Hlen. }
      eexists _, _,
        (its ++ [IPrim x ("__prim_" +:+ pretty (S (gensym_next st2)))
                   ("__ret_" +:+ pretty (gensym_next st2)) (code k)
                   (map code (all_but_last cs))]).
      split; [reflexivity|]. split; [done|]. split.
      { cbn [decls code]. rewrite map_app, Hd. cbn [map item_pair app].
        cbn [code] in Hgen. by rewrite Hgen. }
      split.
      * intros env HD Hdecl. rewrite declared_app in Hdecl.
        destruct (Hs env HD) as [Hsc Hcs].
        { intros y Hy. apply Hdecl, elem_of_app. by left. }
        split; [|apply Hdecl, elem_of_app; right; by right; left].
        rewrite forallb_app, Hsc. cbn [forallb item_scoped andb].
        rewrite andb_true_r.
        repeat (apply andb_true_intro; split).
        -- apply bool_decide_eq_true, Hdecl, elem_of_app. right. by left.
        -- apply bool_decide_eq_true, Hdecl, elem_of_app. right. by right; left.
        -- apply bool_decide_eq_true. rewrite Forall_forall in Hcs.
           apply Hcs. by apply last_elem_of.
        -- by apply forallb_known, Forall_all_but_last.
      * simpl. rewrite declared_app. intros y Hy. apply elem_of_app. left. by apply Hl.
    + unfold to_cpp. rewrite all_cpp_map. simpl. rewrite Hprim.
      simpl in Hfn. apply bool_decide_eq_true in Hfn.
      eexists _, _,
        (its ++ [IApp ("__ret_" +:+ pretty (gensym_next st2)) x (map code cs)]).
      split; [reflexivity|]. split; [done|]. split.
      { cbn [decls]. by rewrite app_nil_r, map_app, Hd. }
      split.
      * intros env HD Hdecl. rewrite declared_app in Hdecl.
        destruct (Hs env HD) as [Hsc Hcs].
        { intros y Hy. apply Hdecl, elem_of_app. by left. }
        split; [|apply Hdecl, elem_of_app; right; by left].
        rewrite forallb_app, Hsc. cbn [forallb item_scoped andb].
        rewrite andb_true_r.
        repeat (apply andb_true_intro; split).
        -- apply bool_decide_eq_true, Hdecl, elem_of_app. right. by left.
        -- apply bool_decide_eq_true. by apply HD.
        -- by apply forallb_known.
      * simpl. rewrite declared_app. intros y Hy. apply elem_of_app. left. by apply Hl.
  - (* Conditional *)
    rewrite map_exp_if. simpl in Hsup, Hdom, Hout, Hw.
    apply andb_prop in Hsup as [Hsup He']. apply andb_prop in Hsup as [Hc' Ht'].
    apply andb_prop in Hw as [Hw Hwe]. apply andb_prop in Hw as [Hwc Hwt].
    destruct (IHc top Hc' Hwc) with (st := st)
      as (cc & st1 & ic & -> & Hst1 & Hdc & Hsc & Hlc); [| |done|].
    { intros m a Hin. apply (Hdom m a), elem_of_app. by left. }
    { intros m Hin. apply Hout, elem_of_app. by left. }
    simpl.
    destruct (IHt false Ht' Hwt) with (st := st1)
      as (ct & st2 & it & -> & Hst2 & Hdt & Hsct0 & Hlt); [| |done|].
    { intros m a Hin. apply (Hdom m a), elem_of_app. right. apply elem_of_app. by left. }
    { intros m Hin. apply Hout, elem_of_app. right. apply elem_of_app. by left. }
    simpl.
    destruct (IHe false He' Hwe) with (st := st2)
      as (ce & st3 & ie & -> & Hst3 & Hde & Hse & Hle); [| |done|].
    { intros m a Hin. apply (Hdom m a), elem_of_app. right. apply elem_of_app. by right. }
    { intros m Hin. apply Hout, elem_of_app. right. apply elem_of_app. by right. }
    simpl. unfold decls_ops. rewrite Hdt, Hde.
    eexists _, _,
      (ic ++ [IIf ("__ret_" +:+ pretty (gensym_next st3)) (code cc) it (code ct)
                ie (code ce)]).
    split; [reflexivity|]. split; [done|]. split.
    { cbn [decls]. by rewrite map_app, Hdc. }
    split.
    + intros env HD Hdecl. rewrite declared_app in Hdecl.
      destruct (Hsc env HD) as [Hscc Hcc].
      { intros y Hy. apply Hdecl, elem_of_app. by left. }
      destruct (Hsct0 (declared it ++ env)) as [Hsct Hct].
      { intros y Hy. apply elem_of_app. right. by apply HD. }
      { intros y Hy. apply elem_of_app. by left. }
      destruct (Hse (declared ie ++ env)) as [Hsce Hce].
      { intros y Hy. apply elem_of_app. right. by apply HD. }
      { intros y Hy. apply elem_of_app. by left. }
      split; [|apply Hdecl, elem_of_app; right; by left].
      rewrite forallb_app, Hscc. cbn [forallb item_scoped andb].
      rewrite andb_true_r, Hsct, Hsce.
      repeat (apply andb_true_intro; split); try done; apply bool_decide_eq_true;
        try done.
      apply Hdecl, elem_of_app. right. by left.
    + simpl. rewrite declared_app. intros y Hy. apply elem_of_app. left. by apply Hlc.
  - (* Recursive-binding block *)
    rewrite map_exp_letrec. simpl in Hsup, Hdom, Hout, Hw.
    apply andb_prop in Hsup as [Hbnds Hbody].
    apply andb_prop in Hw as [Hw Hwbody]. apply andb_prop in Hw as [Htop Hwbnds].
    destruct (lower_scoped_bindings D holes lgh bnds IHbnds top Hbnds Hwbnds)
      with (st := st) as (cbs & st1 & ib & -> & Hst1 & Hdb & Hsb & Hlb); [| |done|].
    { intros m a Hin. apply (Hdom m a), elem_of_app. by left. }
    { intros m Hin. apply Hout, elem_of_app. by left. }
    simpl.
    destruct (IHb top Hbody Hwbody) with (st := st1)
      as (cb & st2 & ibody & -> & Hst2 & Hdbody & Hsbody & Hlbody); [| |done|].
    { intros m a Hin. apply (Hdom m a), elem_of_app. by right. }
    { intros m Hin. apply Hout, elem_of_app. by right. }
    simpl. rewrite letrec_decls_map. simpl.
    eexists _, _, (ib ++ ibody).
    split; [reflexivity|]. split; [done|]. split.
    { cbn [decls]. by rewrite map_app, Hdb, Hdbody. }
    split.
    + intros env HD Hdecl. rewrite declared_app in Hdecl.
      destruct (Hsbody env HD) as [Hsc Hc].
      { intros y Hy. apply Hdecl, elem_of_app. by right. }
      rewrite forallb_app, Hsc, Hsb; [done|done|].
      intros y Hy. apply Hdecl, elem_of_app. by left.
    + rewrite declared_app. intros y [Hy|Hy]%elem_of_app; apply elem_of_app;
        [left; by apply Hlb | right; by apply Hlbody].
Qed.

(** C1 as stated fails, in each of its three parts. (a) A primitive
    callee given an operand count its table rejects: lowering has no
    value. (b) A conditional: the node's list is the condition's pair and
    the node's own pair; the pairs of the two branches are not part of
    it (they are rendered inside the operation of the node's pair).
    (c) A recursive binding of a Lambda that calls itself: the operation
    of the first pair of the list refers to [f], and the declaration of
    [f] is that of the second pair. *)
Lemma lowering_claim_fails :
  lower_tree (AppExp (VarExp "zero?") [NumExp 1; NumExp 2; halt "lambda_0" "__halt_0"]) 0
  = Raise (RuntimeError "unimplemented primitive number operation: zero?")
  /\ (exists body st,
        lower_tree (IfExp (NumExp 0) (NumExp 1) (NumExp 2)) 0 = Ok (body, st)
        /\ map fst (decls body) = [declare "__num_0"; thunk_decl "__ret_3"]
        /\ occurs (declare "__num_1") (snd (List.last (decls body) ("", ""))) = true)
  /\ (exists body st,
        lower_tree
          (LetRecExp
             [("f", LamExp "lambda_1" [ParamVar "x"; ParamVar "k"]
                      (AppExp (VarExp "f") [VarExp "x"; VarExp "k"]))]
             (AppExp (VarExp "f") [NumExp 1; halt "lambda_0" "__halt_0"])) 0
        = Ok (body, st)
        /\ take 2 (decls body)
           = [(declare "__lam_1", "__lam_1->lam = LAMBDA_T(new lambda_1(f));");
              (declare "f", "f = std::move(__lam_1);")]
        /\ map fst (decls body)
           = [declare "__lam_1"; declare "f"; declare "__num_2"; declare "__lam_3";
              thunk_decl "__ret_4"]).
Proof.
  split; [reflexivity|]. split.
  - eexists _, _. split; [vm_compute; reflexivity|]. split; reflexivity.
  - eexists _, _. split; [vm_compute; reflexivity|]. split; reflexivity.
Qed.

(** C1 (amended): for a tree with no sequence, assignment or void
    node, whose application callees are variables and whose primitive
    applications pass an operand count the registry accepts, lowering
    returns one fragment, of the shape of the tree: a variable
    contributes its name and no pair; a literal and a Lambda contribute
    exactly their own pair; the list of an application is its arguments'
    lists in order, then the callee's list, then its own pair; the list
    of a conditional is the condition's list, then its own pair; the list
    of a recursive-binding block is, per binding in order, the value's
    list and the pair declaring and assigning the bound name, then the
    body's list. A node that introduces a temporary as its value
    declares it in the declaration of its own pair.

    When the tree is well-scoped, its recursive-binding blocks stand
    outside Lambda bodies and branches of conditionals, and no Lambda
    inside a Lambda body has the name of one outside, every value
    identifier an operation of the list refers to, and the value
    identifier of the fragment, is declared by a declaration of the list
    (inside a branch of a conditional: of the list or of the branch's own
    list). The declarations of a list are rendered before its
    operations, so the declaring pair may stand later in the list than
    the referring one. *)
Theorem lowering_supported (root : exp) (n0 : nat) (Hsup : supported root = true) :
  exists body st,
    lower_tree root n0 = Ok (body, st)
    /\ shape root body
    /\ match root with
       | NumExp _ | BoolExp _ | StrExp _ | LamExp _ _ _ | AppExp _ _ | IfExp _ _ _ =>
           declares_value body
       | _ => True
       end
    /\ (well_scoped root = true ->
        (forall n, n ∈ outer_lambdas root -> n ∉ inner_lambdas root) ->
        exists items,
          decls body = map item_pair items
          /\ forallb (item_scoped (declared items)) items = true
          /\ code body ∈ declared items).
Proof.
  unfold lower_tree, LambdaGenCpp.init.
  destruct (compute_holes_spec root) as (holes & Hholes & Hdom & _).
  rewrite Hholes. simpl.
  destruct (lower_supported holes holes root Hsup)
    with (st := mkState n0 (LambdaGenCpp.mk holes [] ∅))
    as (c & st' & Hmap & _ & Hshape); [|done|].
  { intros n args Hin. split; by eapply Hdom. }
  rewrite Hmap. simpl. exists c, st'. split; [done|]. split; [done|].
  split; [by apply shape_declares_value|].
  intros Hw Hdisj.
  destruct (lower_scoped (letrec_names root) holes holes root true Hsup Hw)
    with (st := mkState n0 (LambdaGenCpp.mk holes [] ∅))
    as (c2 & st2 & items & Hmap2 & _ & Hd & Hs & Hl); [| |done|].
  { intros n args Hin. split; by eapply Hdom. }
  { by apply compute_holes_outer. }
  rewrite Hmap in Hmap2. injection Hmap2 as <- <-.
  exists items. split; [done|]. by apply Hs.
Qed.

Lemma lowering_supported_witness :
  exists body st items,
    lower_tree
      (LetRecExp
         [("f", LamExp "lambda_1" [ParamVar "x"; ParamVar "k"]
                  (AppExp (VarExp "f") [VarExp "x"; VarExp "k"]))]
         (AppExp (VarExp "f") [NumExp 1; halt "lambda_0" "__halt_0"])) 0
    = Ok (body, st)
    /\ decls body = map item_pair items
    /\ forallb (item_scoped (declared items)) items = true
    /\ code body ∈ declared items.
Proof.
  destruct (lowering_supported
              (LetRecExp
                 [("f", LamExp "lambda_1" [ParamVar "x"; ParamVar "k"]
                          (AppExp (VarExp "f") [VarExp "x"; VarExp "k"]))]
                 (AppExp (VarExp "f") [NumExp 1; halt "lambda_0" "__halt_0"]))
              0 eq_refl)
    as (body & st & Hrun & _ & _ & Hscoped).
  destruct Hscoped as (items & Hd & Hs & Hc).
  - reflexivity.
  - simpl. intros n _ Hin. by apply elem_of_nil in Hin.
  - by exists body, st, items.
Defined.

(** The condition on recursive-binding blocks is needed. The analysis
    has no case for them: a name bound inside a Lambda body stays in the
    running set and is recorded as a hole of the enclosing Lambda, whose
    pair then passes a name that only the lifted definition declares. *)
Lemma letrec_name_escapes :
  exists body st,
    lower_tree
      (LamExp "lambda_1" [ParamVar "k"]
         (LetRecExp
            [("g", LamExp "lambda_2" [ParamVar "x"; ParamVar "c"]
                     (AppExp (VarExp "c") [VarExp "x"]))]
            (AppExp (VarExp "g") [NumExp 1; VarExp "k"]))) 0
    = Ok (body, st)
    /\ decls body
       = [(declare "__lam_4", "__lam_4->lam = LAMBDA_T(new lambda_1(g));")].
Proof. eexists _, _. split; [vm_compute; reflexivity | reflexivity]. Qed.

(** * Further properties of the code *)

(** ** The registry *)

Lemma dict_get_elem (d : list (string * string)) (k v : string) :
  dict_get d k = Some v -> (k, v) ∈ d.
Proof.
  induction d as [|[k' v'] d IH]; simpl; [discriminate|].
  destruct (String.eqb_spec k k') as [->|_].
  - intros [= ->]. by left.
  - intros H. right. by apply IH.
Qed.

(** X1: a name is a primitive exactly when it is one of the seven
    operator symbols of the two tables. *)
Theorem is_primop_names (op : string) :
  is_primop op = true <-> op ∈ primitive_names.
Proof.
  split.
  - intros H. destruct (decide (op ∈ primitive_names)) as [|Hn]; [done|]. exfalso.
    unfold primitive_names in Hn.
    repeat (apply not_elem_of_cons in Hn as [? Hn]).
    rewrite is_primop_contains in H.
    unfold NumPrimOps.contains, StrPrimOps.contains, dict_has in H. simpl in H.
    repeat match type of H with
           | context [String.eqb op ?k] =>
               rewrite (proj2 (String.eqb_neq op k)) in H by done
           end.
    discriminate.
  - intros H. unfold primitive_names in H.
    repeat (apply elem_of_cons in H as [->|H]; [reflexivity|]).
    by apply elem_of_nil in H.
Qed.

Lemma is_primop_names_witness : is_primop "string=?" = true.
Proof.
  apply (is_primop_names "string=?"). unfold primitive_names. repeat constructor.
Defined.

(** X2: [gen_primop] returns exactly when the operand count is one the
    operator's table accepts; the tag it returns is [NUM] for an operator
    of the numeric table and [STR] for one of the string table. *)
Theorem gen_primop_returns_iff (op dst : string) (args : list string) :
  (accepts op (length args) = true
   <-> exists ty body, gen_primop op dst args = Ok (ty, body))
  /\ (forall ty body,
        gen_primop op dst args = Ok (ty, body) ->
        ty = if NumPrimOps.contains op then NUM else STR).
Proof.
  split.
  - split.
    + intros H. destruct (gen_primop_accepted op dst args H) as (ty & body & Hg & _).
      by exists ty, body.
    + intros (ty & body & H). revert H.
      unfold accepts, gen_primop, NumPrimOps.call, StrPrimOps.call,
        StrPrimOps.contains, dict_has.
      remember (dict_get NumPrimOps.unary_ops op) as u.
      remember (dict_get NumPrimOps.binary_ops op) as b.
      remember (StrPrimOps.lookup_op StrPrimOps.binary_ops op) as t.
      destruct (NumPrimOps.contains op).
      * destruct args as [|x [|y [|z l]]]; simpl; try discriminate.
        -- by destruct u.
        -- by destruct b.
      * destruct t; [|discriminate].
        destruct args as [|x [|y [|z l]]]; simpl; by try discriminate.
  - intros ty body. unfold gen_primop, NumPrimOps.call, StrPrimOps.call.
    remember (dict_get NumPrimOps.unary_ops op) as u.
    remember (dict_get NumPrimOps.binary_ops op) as b.
    remember (StrPrimOps.lookup_op StrPrimOps.binary_ops op) as t.
    destruct (NumPrimOps.contains op).
    + destruct args as [|x [|y [|z l]]]; try discriminate.
      * destruct u; [|discriminate]. by intros [= <- _].
      * destruct b; [|discriminate]. by intros [= <- _].
    + destruct (StrPrimOps.contains op); [|discriminate].
      destruct args as [|x [|y [|z l]]]; try discriminate.
      destruct t; [|discriminate]. by intros [= <- _].
Qed.

Lemma gen_primop_returns_iff_witness :
  exists ty body, gen_primop "zero?" "d" ["a"] = Ok (ty, body) /\ ty = NUM.
Proof.
  destruct (proj1 (proj1 (gen_primop_returns_iff "zero?" "d" ["a"])) eq_refl)
    as (ty & body & H).
  exists ty, body. split; [exact H|].
  exact (proj2 (gen_primop_returns_iff "zero?" "d" ["a"]) ty body H).
Defined.

(** X3: a primitive applied to no operand, or to three or more, is
    rejected by the call itself with a [TypeError], whatever the
    operator. *)
Theorem gen_primop_operand_count (op dst : string) (args : list string)
    (Hprim : is_primop op = true)
    (Hcount : length args = 0 \/ 3 <= length args) :
  gen_primop op dst args = Raise TypeError.
Proof.
  rewrite is_primop_contains in Hprim.
  unfold gen_primop, NumPrimOps.call, StrPrimOps.call.
  destruct (NumPrimOps.contains op); simpl in Hprim.
  - destruct args as [|x [|y [|z l]]]; simpl in Hcount; try lia; done.
  - rewrite Hprim. destruct args as [|x [|y [|z l]]]; simpl in Hcount; try lia; done.
Qed.

Lemma gen_primop_operand_count_witness :
  gen_primop "+" "d" ["a"; "b"; "c"] = Raise TypeError.
Proof.
  apply (gen_primop_operand_count "+" "d" ["a"; "b"; "c"]);
    [reflexivity | right; simpl; lia].
Defined.

(** X4: membership and lookup agree in both registries: [__getitem__]
    returns for a key exactly when [__contains__] holds for it, and
    raises [KeyError] with that key otherwise; what the numeric registry
    returns is an entry of one of its two tables. *)
Theorem registry_getitem_contains (key : string) :
  (NumPrimOps.contains key = true <-> exists o, NumPrimOps.getitem key = Ok o)
  /\ (NumPrimOps.contains key = false ->
        NumPrimOps.getitem key = Raise (KeyError key))
  /\ (forall o, NumPrimOps.getitem key = Ok o ->
        (key, o) ∈ NumPrimOps.binary_ops \/ (key, o) ∈ NumPrimOps.unary_ops)
  /\ (StrPrimOps.contains key = true <-> exists fmt, StrPrimOps.getitem key = Ok fmt)
  /\ (StrPrimOps.contains key = false ->
        StrPrimOps.getitem key = Raise (KeyError key)).
Proof.
  unfold NumPrimOps.contains, NumPrimOps.getitem, StrPrimOps.getitem,
    StrPrimOps.contains, dict_has.
  remember (dict_get NumPrimOps.unary_ops key) as u.
  remember (dict_get NumPrimOps.binary_ops key) as b.
  remember (StrPrimOps.lookup_op StrPrimOps.binary_ops key) as t.
  split; [|split; [|split; [|split]]].
  - destruct b; simpl; [split; eauto|]. destruct u; simpl; [split; eauto|].
    split; [discriminate | by intros [o ?]].
  - destruct b; simpl; [discriminate|]. by destruct u.
  - intros o. destruct b as [o'|]; simpl.
    + intros [= <-]. left. by apply dict_get_elem.
    + destruct u as [o'|]; simpl; [|discriminate].
      intros [= <-]. right. by apply dict_get_elem.
  - destruct t; [split; eauto|]. split; [discriminate | by intros [f ?]].
  - by destruct t.
Qed.

Lemma registry_getitem_contains_witness :
  exists o, NumPrimOps.getitem "=" = Ok o
            /\ ((("=", o) ∈ NumPrimOps.binary_ops) \/ (("=", o) ∈ NumPrimOps.unary_ops)).
Proof.
  destruct (registry_getitem_contains "=") as (H1 & _ & H3 & _).
  destruct (proj1 H1 eq_refl) as [o Ho]. exists o. split; [exact Ho | by apply H3].
Defined.

(** ** Rendering of pair lists *)

Lemma join_cons (sep x : string) (xs : list string) :
  xs <> [] -> join sep (x :: xs) = x +:+ sep +:+ join sep xs.
Proof. by destruct xs. Qed.

Lemma join_app (sep : string) (xs ys : list string) :
  xs <> [] -> ys <> [] ->
  join sep (xs ++ ys) = join sep xs +:+ sep +:+ join sep ys.
Proof.
  intros Hxs Hys. induction xs as [|x xs IH]; [done|].
  destruct xs as [|x' xs].
  - simpl app. by rewrite join_cons.
  - change ((x :: x' :: xs) ++ ys) with (x :: ((x' :: xs) ++ ys)).
    rewrite !join_cons by done. rewrite IH by done.
    by rewrite !append_assoc.
Qed.

Lemma nonempty_append (s t : string) : nonempty s = true -> nonempty (s +:+ t) = true.
Proof. by destruct s. Qed.

Lemma nonempty_join (sep : string) (xs : list string) :
  Forall (fun x => nonempty x = true) xs -> xs <> [] ->
  nonempty (join sep xs) = true.
Proof.
  intros Hall Hne. destruct xs as [|x xs]; [done|].
  apply Forall_cons in Hall as [Hx _].
  destruct xs; [done|]. rewrite join_cons by done. by apply nonempty_append.
Qed.

Lemma join_lines_app (xs ys : list string) :
  join_lines (xs ++ ys) = join_lines [join_lines xs; join_lines ys].
Proof.
  unfold join_lines. rewrite filter_app.
  set (fx := filter (fun x => nonempty x = true) xs).
  set (fy := filter (fun x => nonempty x = true) ys).
  assert (Hfx : Forall (fun x => nonempty x = true) fx).
  { apply Forall_forall. by intros x [? _]%list_elem_of_filter. }
  assert (Hfy : Forall (fun x => nonempty x = true) fy).
  { apply Forall_forall. by intros x [? _]%list_elem_of_filter. }
  destruct (decide (fx = [])) as [Ex|Nx]; destruct (decide (fy = [])) as [Ey|Ny].
  - by rewrite Ex, Ey.
  - rewrite Ex. simpl app. simpl join at 2.
    rewrite filter_cons_False by (simpl; congruence).
    rewrite filter_cons_True by (by apply nonempty_join). done.
  - rewrite Ey, app_nil_r. simpl join at 3.
    rewrite filter_cons_True by (by apply nonempty_join).
    rewrite filter_cons_False by (simpl; congruence). done.
  - rewrite join_app by done.
    rewrite filter_cons_True by (by apply nonempty_join).
    rewrite filter_cons_True by (by apply nonempty_join). done.
Qed.

(** X5: rendering composes with concatenation: the declarations (and
    the operations) of a fragment whose pair list is [l1 ++ l2] are those
    of [l1] and those of [l2], joined by a line feed, a side that renders
    to nothing being left out without a blank line; a pair whose
    declaration or operation is empty adds nothing to that component. *)
Theorem decls_ops_app (k : kind) (c : string) (l1 l2 : list (string * string)) :
  decls_ops (mkCppCode k c (l1 ++ l2))
  = (join_lines [fst (decls_ops (mkCppCode k c l1)); fst (decls_ops (mkCppCode k c l2))],
     join_lines [snd (decls_ops (mkCppCode k c l1)); snd (decls_ops (mkCppCode k c l2))])
  /\ (forall o, fst (decls_ops (mkCppCode k c (("", o) :: l2)))
                = fst (decls_ops (mkCppCode k c l2)))
  /\ (forall d, snd (decls_ops (mkCppCode k c ((d, "") :: l2)))
                = snd (decls_ops (mkCppCode k c l2))).
Proof.
  unfold decls_ops. simpl. split; [|split].
  - rewrite !map_app. f_equal; apply join_lines_app.
  - intros o. by rewrite filter_cons_False by (simpl; congruence).
  - intros d. by rewrite filter_cons_False by (simpl; congruence).
Qed.

(** ** Trees the lowering rejects *)

Lemma rbind_raise {A B} (m : result A) (k : A -> result B) :
  (forall a, m = Ok a -> exists err, k a = Raise err) ->
  exists err, rbind m k = Raise err.
Proof. destruct m as [a|err]; simpl; [by intros H; apply H | by eexists]. Qed.

Lemma map_list_unsupported holes (es : list exp) :
  Forall (fun e => has_unsupported e = true ->
                   forall st, exists err, map_exp (to_cpp holes) e st = Raise err) es ->
  existsb has_unsupported es = true ->
  forall st, exists err, map_list (to_cpp holes) es st = Raise err.
Proof.
  induction 1 as [|e es He _ IH]; simpl; [discriminate|].
  intros Hex st. apply rbind_raise. intros [e1 s1] H1.
  destruct (has_unsupported e) eqn:Hu.
  - destruct (He eq_refl st) as [err Herr]. congruence.
  - simpl in Hex. destruct (IH Hex s1) as [err ->]. by eexists.
Qed.

Lemma map_bindings_unsupported holes (bnds : list (string * exp)) :
  Forall (fun b => has_unsupported (snd b) = true ->
                   forall st, exists err, map_exp (to_cpp holes) (snd b) st = Raise err)
         bnds ->
  existsb (fun b => has_unsupported (snd b)) bnds = true ->
  forall st, exists err, map_bindings (to_cpp holes) bnds st = Raise err.
Proof.
  induction 1 as [|[x e] bnds He _ IH]; simpl; [discriminate|].
  intros Hex st. apply rbind_raise. intros [e1 s1] H1. simpl in He.
  destruct (has_unsupported e) eqn:Hu.
  - destruct (He eq_refl st) as [err Herr]. congruence.
  - simpl in Hex. destruct (IH Hex s1) as [err ->]. by eexists.
Qed.

(** X6: a tree with a sequence, an assignment or a void literal
    anywhere in it has no lowering: the traversal raises, from whatever
    state it starts, and no fragment is returned for the root. *)
Theorem unsupported_node_aborts holes (e : exp) (Hbad : has_unsupported e = true)
    (st : lower_state) :
  exists err, map_exp (to_cpp holes) e st = Raise err.
Proof.
  revert Hbad st.
  induction e as [x|v|v|v| |n args body IHb|fn args IHfn IHargs|c t e IHc IHt IHe
                 |bnds body IHbnds IHb|es IHes|x v IHv|x v t IHv IHt|c]
    using exp_ind; intros Hbad st; try discriminate Hbad.
  - by eexists.
  - rewrite map_exp_lam. apply rbind_raise. intros [b1 s1] H1.
    destruct (IHb Hbad st) as [err Herr]. congruence.
  - rewrite map_exp_app. apply rbind_raise. intros [f1 s1] H1.
    simpl in Hbad. destruct (has_unsupported fn) eqn:Hu.
    + destruct (IHfn eq_refl st) as [err Herr]. congruence.
    + destruct (map_list_unsupported holes args IHargs Hbad s1) as [err ->].
      by eexists.
  - rewrite map_exp_if. apply rbind_raise. intros [c1 s1] H1.
    simpl in Hbad. destruct (has_unsupported c) eqn:Hc.
    { destruct (IHc eq_refl st) as [err Herr]. congruence. }
    apply rbind_raise. intros [t1 s2] H2.
    destruct (has_unsupported t) eqn:Ht.
    { destruct (IHt eq_refl s1) as [err Herr]. congruence. }
    simpl in Hbad. destruct (IHe Hbad s2) as [err ->]. by eexists.
  - rewrite map_exp_letrec. simpl in Hbad.
    destruct (existsb (fun b => has_unsupported (snd b)) bnds) eqn:Hex.
    + destruct (map_bindings_unsupported holes bnds IHbnds Hex st) as [err ->].
      by eexists.
    + apply rbind_raise. intros [b1 s1] H1.
      simpl in Hbad. destruct (IHb Hbad s1) as [err ->]. by eexists.
  - rewrite map_exp_begin. apply rbind_raise. intros [es1 s1] H1. by eexists.
  - rewrite map_exp_set. apply rbind_raise. intros [v1 s1] H1. by eexists.
  - rewrite map_exp_setthen. apply rbind_raise. intros [v1 s1] H1.
    apply rbind_raise. intros [t1 s2] H2. by eexists.
Qed.

Lemma unsupported_node_aborts_witness :
  exists err,
    map_exp (to_cpp ∅)
      (LamExp "lambda_1" [ParamVar "k"] (AppExp (VarExp "k") [BeginExp [NumExp 1; NumExp 2]]))
      (mkState 0 (LambdaGenCpp.mk ∅ [] ∅))
    = Raise err.
Proof.
  exact (unsupported_node_aborts ∅
           (LamExp "lambda_1" [ParamVar "k"] (AppExp (VarExp "k") [BeginExp [NumExp 1; NumExp 2]]))
           eq_refl (mkState 0 (LambdaGenCpp.mk ∅ [] ∅))).
Defined.

(** ** Callees that are not variables *)

Lemma to_cpp_returns_cpp holes (e e' : exp) (s s' : lower_state) :
  to_cpp holes e s = Ok (e', s') -> exists c, e' = Cpp c.
Proof.
  intros H. destruct e; unfold to_cpp, unimplemented, gensym in H;
    invert_ok H; inversion H; subst; by eexists.
Qed.

Lemma map_exp_returns_cpp holes (e e' : exp) (s s' : lower_state) :
  map_exp (to_cpp holes) e s = Ok (e', s') -> exists c, e' = Cpp c.
Proof.
  destruct e.
  1-5, 13: apply to_cpp_returns_cpp.
  - rewrite map_exp_lam. intros (? & _ & H)%rbind_ok. destruct x.
    by eapply to_cpp_returns_cpp.
  - rewrite map_exp_app. intros ([] & _ & H)%rbind_ok.
    apply rbind_ok in H as ([] & _ & H). by eapply to_cpp_returns_cpp.
  - rewrite map_exp_if. intros ([] & _ & H)%rbind_ok.
    apply rbind_ok in H as ([] & _ & H). apply rbind_ok in H as ([] & _ & H).
    by eapply to_cpp_returns_cpp.
  - rewrite map_exp_letrec. intros ([] & _ & H)%rbind_ok.
    apply rbind_ok in H as ([] & _ & H). by eapply to_cpp_returns_cpp.
  - rewrite map_exp_begin. intros ([] & _ & H)%rbind_ok.
    by eapply to_cpp_returns_cpp.
  - rewrite map_exp_set. intros ([] & _ & H)%rbind_ok.
    by eapply to_cpp_returns_cpp.
  - rewrite map_exp_setthen. intros ([] & _ & H)%rbind_ok.
    apply rbind_ok in H as ([] & _ & H). by eapply to_cpp_returns_cpp.
Qed.

Lemma map_list_returns_cpp holes (es es' : list exp) (s s' : lower_state) :
  map_list (to_cpp holes) es s = Ok (es', s') -> exists cs, es' = map Cpp cs.
Proof.
  revert es' s s'. induction es as [|e es IH]; intros es' s s'; simpl.
  - intros [= <- _]. by exists [].
  - intros ([e1 s1] & H1 & H)%rbind_ok.
    apply rbind_ok in H as ([es1 s2] & H2 & [= <- _]).
    apply map_exp_returns_cpp in H1 as [c ->].
    apply IH in H2 as [cs ->]. by exists (c :: cs).
Qed.

(** The value of a node that introduces a temporary is that temporary:
    a name that starts with an underscore, of the kind of the node. *)
Lemma to_cpp_temporary holes (e e' : exp) (s s' : lower_state) :
  introduces_temporary e = true ->
  to_cpp holes e s = Ok (e', s') ->
  exists name rest, e' = Cpp (mkCppCode (type_of e) ("_" +:+ name) rest).
Proof.
  intros He H. destruct e; try discriminate He;
    unfold to_cpp, unimplemented, gensym in H;
    invert_ok H; inversion H; subst; by eexists _, _.
Qed.

Lemma map_exp_temporary holes (e e' : exp) (s s' : lower_state) :
  introduces_temporary e = true ->
  map_exp (to_cpp holes) e s = Ok (e', s') ->
  exists name rest, e' = Cpp (mkCppCode (type_of e) ("_" +:+ name) rest).
Proof.
  intros He. destruct e; try discriminate He.
  1-3: by apply to_cpp_temporary.
  - rewrite map_exp_lam. intros ([] & _ & H)%rbind_ok.
    by apply to_cpp_temporary in H.
  - rewrite map_exp_app. intros ([] & _ & H)%rbind_ok.
    apply rbind_ok in H as ([] & _ & H). by apply to_cpp_temporary in H.
  - rewrite map_exp_if. intros ([] & _ & H)%rbind_ok.
    apply rbind_ok in H as ([] & _ & H). apply rbind_ok in H as ([] & _ & H).
    by apply to_cpp_temporary in H.
Qed.

(** X7: an application whose callee is a literal, a Lambda, an
    application or a conditional is never lowered: when the callee and
    the arguments lower, the node is rejected with the "AppExp
    unimplemented" error naming the callee's kind; otherwise the error of
    the child that failed is raised. *)
Theorem computed_callee_rejected holes (fn : exp) (args : list exp) (st : lower_state)
    (Hfn : introduces_temporary fn = true) :
  match map_exp (to_cpp holes) fn st with
  | Raise err => map_exp (to_cpp holes) (AppExp fn args) st = Raise err
  | Ok (_, s1) =>
      match map_list (to_cpp holes) args s1 with
      | Raise err => map_exp (to_cpp holes) (AppExp fn args) st = Raise err
      | Ok _ =>
          map_exp (to_cpp holes) (AppExp fn args) st
          = Raise (RuntimeError ("AppExp unimplemented for funcExp of type: "
                                 +:+ class_repr (type_of fn)))
      end
  end.
Proof.
  rewrite map_exp_app.
  destruct (map_exp (to_cpp holes) fn st) as [[fn' s1]|err] eqn:Hfn'; [|done].
  simpl.
  destruct (map_list (to_cpp holes) args s1) as [[args' s2]|err] eqn:Hargs; [|done].
  simpl.
  apply map_exp_temporary in Hfn' as (name & rest & ->); [|done].
  apply map_list_returns_cpp in Hargs as [cs ->].
  unfold to_cpp. rewrite all_cpp_map. simpl.
  destruct (decide (type_of fn = KVarExp)) as [E|_]; [|done].
  destruct fn; discriminate.
Qed.

Lemma computed_callee_rejected_witness :
  map_exp (to_cpp {["lambda_1" := []]})
    (AppExp (LamExp "lambda_1" [ParamVar "x"] (VarExp "x")) [NumExp 1])
    (mkState 0 (LambdaGenCpp.mk {["lambda_1" := []]} [] ∅))
  = Raise (RuntimeError
             "AppExp unimplemented for funcExp of type: <class 'schemec.types.LamExp'>").
Proof.
  exact (computed_callee_rejected {["lambda_1" := []]}
           (LamExp "lambda_1" [ParamVar "x"] (VarExp "x")) [NumExp 1]
           (mkState 0 (LambdaGenCpp.mk {["lambda_1" := []]} [] ∅)) eq_refl).
Defined.

(** ** The lifter across a whole lowering *)

Lemma getitem_cases (self self' : LambdaGenCpp.t) (n cls : string)
    (args : list string) (body : exp) :
  LambdaGenCpp.getitem self n args body = Ok (cls, self') ->
  (LambdaGenCpp.od_has (LambdaGenCpp._decls self) n = true /\ self' = self)
  \/ (LambdaGenCpp.od_has (LambdaGenCpp._decls self) n = false
      /\ (exists def, LambdaGenCpp._decls self' = LambdaGenCpp._decls self ++ [(n, def)])
      /\ LambdaGenCpp.nargs self' = {[length args]} ∪ LambdaGenCpp.nargs self).
Proof.
  unfold LambdaGenCpp.getitem.
  destruct (LambdaGenCpp.od_has (LambdaGenCpp._decls self) n) eqn:Hhas; simpl.
  - intros [= _ <-]. by left.
  - destruct (LambdaGenCpp.holes self !! n); [|discriminate].
    destruct (as_cpp body); [|discriminate]. simpl.
    destruct (decls_ops a) as [ds os]. intros [= _ <-]. simpl. right.
    split; [done|]. split; [|done]. rewrite od_set_fresh by done. by eexists.
Qed.

Lemma od_has_app d1 d2 (k : string) :
  LambdaGenCpp.od_has (d1 ++ d2) k
  = LambdaGenCpp.od_has d1 k || LambdaGenCpp.od_has d2 k.
Proof.
  unfold LambdaGenCpp.od_has. induction d1 as [|[k' v] d1 IH]; simpl; [done|].
  by destruct (String.eqb_spec k k').
Qed.

(** One visit: the table of the lifter is left alone, or the Lambda
    being visited, which had no definition, gets one, at the end. *)
Lemma to_cpp_decls holes (e e' : exp) (s s' : lower_state) :
  to_cpp holes e s = Ok (e', s') ->
  (lambda_gen s' = lambda_gen s
   /\ forall n args body, e = LamExp n args body ->
        LambdaGenCpp.od_has (LambdaGenCpp._decls (lambda_gen s)) n = true)
  \/ exists n args body def,
       e = LamExp n args body
       /\ LambdaGenCpp.od_has (LambdaGenCpp._decls (lambda_gen s)) n = false
       /\ LambdaGenCpp._decls (lambda_gen s')
          = LambdaGenCpp._decls (lambda_gen s) ++ [(n, def)]
       /\ LambdaGenCpp.nargs (lambda_gen s')
          = {[length args]} ∪ LambdaGenCpp.nargs (lambda_gen s).
Proof.
  intros H. destruct (to_cpp_lambda_gen holes e e' s s' H)
    as [Heq|(n & args & body & cls & -> & Hg)].
  - destruct e; try (left; split; [done|]; intros; discriminate).
    unfold to_cpp in H. apply rbind_ok in H as ([cls lg] & Hg & H).
    unfold gensym in H. simpl in H.
    destruct (holes !! name); [|discriminate]. injection H as _ <-. simpl in *.
    apply getitem_cases in Hg as [[Hhas ->]|(Hhas & [def Hd] & Hn)].
    + left. split; [done|]. by intros ? ? ? [= <- _ _].
    + right. rewrite length_map in Hn. by eexists _, _, _, _.
  - apply getitem_cases in Hg as [[Hhas Heq]|(Hhas & [def Hd] & Hn)].
    + left. split; [done|]. by intros ? ? ? [= <- _ _].
    + right. rewrite length_map in Hn. by eexists _, _, _, _.
Qed.

Lemma to_cpp_keys_nodup holes (e e' : exp) (s s' : lower_state) :
  NoDup (map fst (LambdaGenCpp._decls (lambda_gen s))) ->
  to_cpp holes e s = Ok (e', s') ->
  NoDup (map fst (LambdaGenCpp._decls (lambda_gen s'))).
Proof.
  intros Hnd H. apply to_cpp_decls in H as [[-> _]|(n & a & b & def & _ & Hhas & -> & _)];
    [done|].
  rewrite map_app. apply NoDup_app. split; [done|]. split; [|apply NoDup_singleton].
  simpl. intros k Hk ->%list_elem_of_singleton. apply od_has_true in Hk. congruence.
Qed.

Lemma to_cpp_decls_prefix holes d0 (e e' : exp) (s s' : lower_state) :
  d0 `prefix_of` LambdaGenCpp._decls (lambda_gen s) ->
  to_cpp holes e s = Ok (e', s') ->
  d0 `prefix_of` LambdaGenCpp._decls (lambda_gen s').
Proof.
  intros Hp H. apply to_cpp_decls in H as [[-> _]|(n & a & b & def & _ & _ & -> & _)];
    [done|].
  by apply prefix_app_r.
Qed.

Lemma to_cpp_nargs_decls holes (e e' : exp) (s s' : lower_state) :
  (LambdaGenCpp._decls (lambda_gen s) = [] <-> LambdaGenCpp.nargs (lambda_gen s) = ∅) ->
  to_cpp holes e s = Ok (e', s') ->
  (LambdaGenCpp._decls (lambda_gen s') = [] <-> LambdaGenCpp.nargs (lambda_gen s') = ∅).
Proof.
  intros Hi H.
  apply to_cpp_decls in H as [[Heq _]|(n & a & b & def & _ & _ & Hd & Hn)];
    [by rewrite Heq|].
  rewrite Hd, Hn. split.
  - intros Hnil. by apply app_nil in Hnil as [_ ?].
  - intros Hemp. exfalso.
    assert (length a ∈ ({[length a]} ∪ LambdaGenCpp.nargs (lambda_gen s) : gset nat))
      as Hin by (apply elem_of_union_l, elem_of_singleton; reflexivity).
    rewrite Hemp in Hin. by apply not_elem_of_empty in Hin.
Qed.

Lemma prefix_od_has d1 d2 (k : string) :
  d1 `prefix_of` d2 -> LambdaGenCpp.od_has d1 k = true ->
  LambdaGenCpp.od_has d2 k = true.
Proof. intros [d ->] H. by rewrite od_has_app, H. Qed.

Lemma keys_step_refl (st : lower_state) : keys_step [] st st.
Proof.
  split; [|split]; [|by left|done].
  intros n args Hin. by apply elem_of_nil in Hin.
Qed.

Lemma keys_step_trans l1 l2 (a b c : lower_state) :
  keys_step l1 a b -> keys_step l2 b c -> keys_step (l1 ++ l2) a c.
Proof.
  intros (Hd1 & Hk1 & Hp1) (Hd2 & Hk2 & Hp2). split; [|split].
  - intros n args [Hin|Hin]%elem_of_app; [|by eapply Hd2].
    eapply prefix_od_has; [exact Hp2|]. by eapply Hd1.
  - intros k Hk. rewrite map_app.
    destruct (Hk2 k Hk) as [Hb|Hin]; [|right; apply elem_of_app; by right].
    destruct (Hk1 k Hb) as [Ha|Hin]; [by left|right; apply elem_of_app; by left].
  - by etrans.
Qed.

(** The visit of a node that is no Lambda. *)
Lemma to_cpp_keys_other holes (e e' : exp) (s s' : lower_state) :
  match e with LamExp _ _ _ => False | _ => True end ->
  to_cpp holes e s = Ok (e', s') -> keys_step [] s s'.
Proof.
  intros He H. apply to_cpp_decls in H as [[Heq _]|(n & a & b & def & -> & _)]; [|done].
  unfold keys_step. rewrite Heq. apply keys_step_refl.
Qed.

(** The visit of a Lambda. *)
Lemma to_cpp_keys_lam holes n args body (e' : exp) (s s' : lower_state) :
  to_cpp holes (LamExp n args body) s = Ok (e', s') ->
  keys_step [(n, param_vars args)] s s'.
Proof.
  intros H. apply to_cpp_decls in H as [[Heq Hhas]|(n' & a & b & def & E & Hhas & Hd & _)].
  - unfold keys_step. rewrite Heq. split; [|split]; [|by left|done].
    intros m a ->%list_elem_of_singleton%pair_eq%proj1. by eapply Hhas.
  - injection E as <- <- <-. unfold keys_step. rewrite Hd. split; [|split].
    + intros m a' ->%list_elem_of_singleton%pair_eq%proj1.
      rewrite od_has_app. apply orb_true_iff. right.
      unfold LambdaGenCpp.od_has. simpl. by rewrite String.eqb_refl.
    + intros k. rewrite od_has_app. intros [?|Hk]%orb_true_iff; [by left|].
      right. simpl. apply list_elem_of_singleton.
      unfold LambdaGenCpp.od_has in Hk. simpl in Hk.
      by destruct (String.eqb_spec k n).
    + by apply prefix_app_r.
Qed.

Lemma lower_list_keys holes (es : list exp) :
  Forall (defines holes) es ->
  forall st es' st',
    map_list (to_cpp holes) es st = Ok (es', st') ->
    keys_step (concat (map lambdas es)) st st'.
Proof.
  induction 1 as [|e es He _ IH]; intros st es' st'; simpl.
  - intros [= _ <-]. apply keys_step_refl.
  - intros ([e1 s1] & H1 & H)%rbind_ok.
    apply rbind_ok in H as ([es1 s2] & H2 & [= _ <-]).
    eapply keys_step_trans; [by eapply He | by eapply IH].
Qed.

Lemma lower_bindings_keys holes (bnds : list (string * exp)) :
  Forall (fun b => defines holes (snd b)) bnds ->
  forall st bnds' st',
    map_bindings (to_cpp holes) bnds st = Ok (bnds', st') ->
    keys_step (concat (map (fun b => lambdas (snd b)) bnds)) st st'.
Proof.
  induction 1 as [|[x e] bnds He _ IH]; intros st bnds' st'; simpl.
  - intros [= _ <-]. apply keys_step_refl.
  - intros ([e1 s1] & H1 & H)%rbind_ok.
    apply rbind_ok in H as ([bnds1 s2] & H2 & [= _ <-]).
    eapply keys_step_trans; [by eapply He | by eapply IH].
Qed.

Lemma keys_step_nil_r ls (a b c : lower_state) :
  keys_step ls a b -> keys_step [] b c -> keys_step ls a c.
Proof. intros H1 H2. rewrite <- (app_nil_r ls). by eapply keys_step_trans. Qed.

Lemma lower_defines holes (e : exp) : defines holes e.
Proof.
  induction e as [x|v|v|v| |n args body IHb|fn args IHfn IHargs|c t e IHc IHt IHe
                 |bnds body IHbnds IHb|es IHes|x v IHv|x v t IHv IHt|c]
    using exp_ind; intros st e' st';
    try (match goal with
         | |- map_exp _ ?e _ = _ -> _ =>
             intros H; exact (to_cpp_keys_other holes e _ _ _ I H)
         end).
  - rewrite map_exp_lam. intros ([b1 s1] & H1 & H)%rbind_ok.
    eapply keys_step_trans; [by eapply IHb | by eapply to_cpp_keys_lam].
  - rewrite map_exp_app. intros ([f1 s1] & H1 & H)%rbind_ok.
    apply rbind_ok in H as ([a1 s2] & H2 & H).
    eapply keys_step_nil_r; [|eapply to_cpp_keys_other; [|exact H]; exact I].
    eapply keys_step_trans; [by eapply IHfn | by eapply lower_list_keys].
  - rewrite map_exp_if. intros ([c1 s1] & H1 & H)%rbind_ok.
    apply rbind_ok in H as ([t1 s2] & H2 & H).
    apply rbind_ok in H as ([e1 s3] & H3 & H).
    eapply keys_step_nil_r; [|eapply to_cpp_keys_other; [|exact H]; exact I].
    eapply keys_step_trans; [by eapply IHc|].
    eapply keys_step_trans; [by eapply IHt | by eapply IHe].
  - rewrite map_exp_letrec. intros ([b1 s1] & H1 & H)%rbind_ok.
    apply rbind_ok in H as ([b2 s2] & H2 & H).
    eapply keys_step_nil_r; [|eapply to_cpp_keys_other; [|exact H]; exact I].
    eapply keys_step_trans; [by eapply lower_bindings_keys | by eapply IHb].
  - rewrite map_exp_begin. intros ([es1 s1] & H1 & H)%rbind_ok.
    eapply keys_step_nil_r; [|eapply to_cpp_keys_other; [|exact H]; exact I].
    by eapply lower_list_keys.
  - rewrite map_exp_set. intros ([v1 s1] & H1 & H)%rbind_ok.
    eapply keys_step_nil_r; [|eapply to_cpp_keys_other; [|exact H]; exact I]. by eapply IHv.
  - rewrite map_exp_setthen. intros ([v1 s1] & H1 & H)%rbind_ok.
    apply rbind_ok in H as ([t1 s2] & H2 & H).
    eapply keys_step_nil_r; [|eapply to_cpp_keys_other; [|exact H]; exact I].
    eapply keys_step_trans; [by eapply IHv | by eapply IHt].
Qed.

Lemma od_has_nil_inv d : (forall k, LambdaGenCpp.od_has d k = false) -> d = [].
Proof.
  destruct d as [|[k v] d]; [done|]. intros H. specialize (H k).
  unfold LambdaGenCpp.od_has in H. simpl in H. by rewrite String.eqb_refl in H.
Qed.

(** What a run of [lower_tree] is, and the state of the lifter at its
    end. *)
Lemma lower_tree_run (root : exp) (n0 : nat) (body : CppCode) (st : lower_state) :
  lower_tree root n0 = Ok (body, st) ->
  exists holes,
    compute_holes root = Ok holes
    /\ map_exp (to_cpp holes) root (mkState n0 (LambdaGenCpp.mk holes [] ∅))
       = Ok (Cpp body, st)
    /\ keys_step (lambdas root) (mkState n0 (LambdaGenCpp.mk holes [] ∅)) st
    /\ NoDup (map fst (LambdaGenCpp._decls (lambda_gen st)))
    /\ (LambdaGenCpp._decls (lambda_gen st) = []
        <-> LambdaGenCpp.nargs (lambda_gen st) = ∅).
Proof.
  unfold lower_tree, LambdaGenCpp.init. intros Hrun.
  apply rbind_ok in Hrun as (holes & Hholes & Hrun). rewrite Hholes in Hrun.
  simpl in Hrun.
  apply rbind_ok in Hrun as ([e' st'] & Hmap & Hrun).
  apply rbind_ok in Hrun as (c & Hc & Heq). injection Heq as -> ->.
  destruct e'; try discriminate Hc. injection Hc as ->.
  exists holes. split; [done|]. split; [done|].
  split; [by eapply lower_defines|]. split.
  - refine (map_exp_preserves (to_cpp holes)
              (fun s => NoDup (map fst (LambdaGenCpp._decls (lambda_gen s))))
              (fun e s e' s' => to_cpp_keys_nodup holes e e' s s')
              root _ _ _ _ Hmap).
    apply NoDup_nil_2.
  - refine (map_exp_preserves (to_cpp holes)
              (fun s => LambdaGenCpp._decls (lambda_gen s) = []
                        <-> LambdaGenCpp.nargs (lambda_gen s) = ∅)
              (fun e s e' s' => to_cpp_nargs_decls holes e e' s s')
              root _ _ _ _ Hmap).
    done.
Qed.

(** X8: when lowering returns, the lifter holds exactly one definition
    for each Lambda name of the tree and no other: its keys are without
    repetition and are the names of the tree's Lambdas. *)
Theorem lifter_after_lowering (root : exp) (n0 : nat) (body : CppCode)
    (st : lower_state) (Hrun : lower_tree root n0 = Ok (body, st)) :
  NoDup (map fst (LambdaGenCpp._decls (lambda_gen st)))
  /\ (forall k, k ∈ map fst (LambdaGenCpp._decls (lambda_gen st))
                <-> k ∈ map fst (lambdas root))
  /\ (forall n args, (n, args) ∈ lambdas root ->
        length (filter (fun kv => fst kv = n) (LambdaGenCpp._decls (lambda_gen st))) = 1).
Proof.
  destruct (lower_tree_run root n0 body st Hrun)
    as (holes & _ & _ & (Hdef & Hkeys & _) & Hnd & _).
  split; [done|]. split.
  - intros k. rewrite <- od_has_true. split.
    + intros Hk. by destruct (Hkeys k Hk) as [?|?].
    + change (k ∈ fst <$> lambdas root -> LambdaGenCpp.od_has
                (LambdaGenCpp._decls (lambda_gen st)) k = true).
      intros ([n args] & -> & Hin)%list_elem_of_fmap. by eapply Hdef.
  - intros n args Hin. apply od_count_one; [done|]. by eapply Hdef.
Qed.

Lemma lifter_after_lowering_witness :
  exists body st,
    lower_tree
      (LamExp "lambda_1" [ParamVar "k"]
         (AppExp (VarExp "k") [LamExp "lambda_2" [ParamVar "x"] (VarExp "x")])) 0
    = Ok (body, st)
    /\ NoDup (map fst (LambdaGenCpp._decls (lambda_gen st))).
Proof.
  destruct (lower_tree
              (LamExp "lambda_1" [ParamVar "k"]
                 (AppExp (VarExp "k") [LamExp "lambda_2" [ParamVar "x"] (VarExp "x")])) 0)
    as [[body st]|err] eqn:Hrun; [|vm_compute in Hrun; discriminate].
  exists body, st. split; [done|].
  exact (proj1 (lifter_after_lowering _ 0 body st Hrun)).
Defined.

(** X9: [gen_cpp] returns no text for a tree without a Lambda: when
    the lowering itself returns, no arity has been observed and the
    [min] of the lifter's [decls_ops] raises [ValueError]. *)
Theorem gen_cpp_without_lambda (root : exp) (n0 : nat) (Hno : lambdas root = []) :
  exists err,
    gen_cpp root n0 = Raise err
    /\ (forall body st, lower_tree root n0 = Ok (body, st) -> err = ValueError).
Proof.
  unfold gen_cpp.
  destruct (lower_tree root n0) as [[body st]|err] eqn:Hrun; [|by exists err].
  destruct (lower_tree_run root n0 body st Hrun)
    as (holes & _ & _ & (_ & Hkeys & _) & _ & Hnargs).
  assert (Hnil : LambdaGenCpp._decls (lambda_gen st) = []).
  { apply od_has_nil_inv. intros k.
    destruct (LambdaGenCpp.od_has _ k) eqn:Hk; [|done].
    destruct (Hkeys k Hk) as [H|H]; [discriminate H|].
    rewrite Hno in H. by apply elem_of_nil in H. }
  apply Hnargs in Hnil. exists ValueError. split; [|done].
  simpl. destruct (decls_ops body) as [md mo].
  unfold LambdaGenCpp.decls_ops, LambdaGenCpp.min_nargs.
  by rewrite Hnil, elements_empty.
Qed.

Lemma gen_cpp_without_lambda_witness :
  gen_cpp (AppExp (VarExp "f") [NumExp 1]) 0 = Raise ValueError.
Proof.
  destruct (gen_cpp_without_lambda (AppExp (VarExp "f") [NumExp 1]) 0 eq_refl)
    as (err & -> & Herr).
  f_equal. eapply Herr. vm_compute. reflexivity.
Defined.

(** X10: for a supported tree with at least one Lambda, [gen_cpp]
    returns: the lowering yields a fragment, the lifter renders its
    declarations and operations, and the text is the output unit built
    from them, whose trampoline runs the fragment's value. *)
Theorem gen_cpp_returns (root : exp) (n0 : nat)
    (Hsup : supported root = true) (Hlam : lambdas root <> []) :
  exists body st lambda_decls lambda_ops,
    lower_tree root n0 = Ok (body, st)
    /\ LambdaGenCpp.decls_ops (lambda_gen st) = Ok (lambda_decls, lambda_ops)
    /\ gen_cpp root n0
       = Ok (emit lambda_decls lambda_ops
               (fst (decls_ops body)) (snd (decls_ops body)) (code body)).
Proof.
  assert (Hrun : exists body st, lower_tree root n0 = Ok (body, st)).
  { unfold lower_tree, LambdaGenCpp.init.
    destruct (compute_holes_spec root) as (holes & -> & Hdom & _). simpl.
    destruct (lower_supported holes holes root Hsup)
      with (st := mkState n0 (LambdaGenCpp.mk holes [] ∅))
      as (c & st' & -> & _ & _); [|done|].
    { intros n args Hin. split; by eapply Hdom. }
    simpl. by exists c, st'. }
  destruct Hrun as (body & st & Hrun). exists body, st.
  destruct (lower_tree_run root n0 body st Hrun)
    as (holes & _ & _ & (Hdef & _ & _) & _ & Hnargs).
  assert (Hne : elements (LambdaGenCpp.nargs (lambda_gen st)) <> []).
  { intros Hel. apply elements_empty_inv in Hel. apply leibniz_equiv in Hel.
    apply Hnargs in Hel. destruct (lambdas root) as [|[n args] l]; [done|].
    specialize (Hdef n args (list_elem_of_here _ _)).
    rewrite Hel in Hdef. discriminate. }
  unfold gen_cpp. rewrite Hrun. simpl.
  destruct (decls_ops body) as [md mo]. simpl.
  unfold LambdaGenCpp.decls_ops, LambdaGenCpp.min_nargs, LambdaGenCpp.max_nargs.
  destruct (elements (LambdaGenCpp.nargs (lambda_gen st))) as [|a l]; [done|].
  simpl. by eexists _, _.
Qed.

Lemma gen_cpp_returns_witness :
  exists text,
    gen_cpp (AppExp (VarExp "+") [NumExp 2; NumExp 3; halt "lambda_0" "__halt_0"]) 1
    = Ok text.
Proof.
  destruct (gen_cpp_returns
              (AppExp (VarExp "+") [NumExp 2; NumExp 3; halt "lambda_0" "__halt_0"]) 1
              eq_refl)
    as (body & st & ld & lo & _ & _ & H).
  - discriminate.
  - by eexists.
Defined.

(** ** What a Lambda captures *)

(** X11: captures are complete when no inner Lambda rebinds a name:
    with distinct Lambda names, the hole list recorded for a Lambda
    holds every non-primitive variable of its body that is neither one
    of its parameters nor a parameter of a Lambda inside the body
    (parameters that are Variable nodes: no other is subtracted). *)
Theorem holes_complete (root : exp) (holes_dict : gmap string (list string))
    (Hrun : compute_holes root = Ok holes_dict)
    (Hunique : NoDup (map (fun nd => fst (fst nd)) (lambda_nodes root))) :
  forall n args body, (n, args, body) ∈ lambda_nodes root ->
    exists hs,
      holes_dict !! n = Some hs
      /\ forall x, x ∈ vars body -> is_primop x = false ->
                   x ∉ args -> x ∉ bound body -> x ∈ hs.
Proof.
  intros n args body Hin. unfold compute_holes in Hrun.
  apply rbind_ok in Hrun as ([e' [hs d]] & Hmap & [= <-]).
  destruct (holes_captured root _ _ _ Hmap) as (_ & _ & Hent).
  destruct (Hent Hunique n args body Hin) as (hs' & Hhs & Hcap).
  exists hs'. split; [done|]. intros x ? ? ? ?. by apply Hcap.
Qed.

Lemma holes_complete_witness :
  exists hs,
    "y" ∈ hs /\ "k" ∈ hs
    /\ compute_holes
         (LamExp "lambda_1" [ParamVar "x"; ParamVar "k"]
            (AppExp (VarExp "+")
               [VarExp "x"; VarExp "y";
                LamExp "lambda_2" [ParamVar "r"] (AppExp (VarExp "k") [VarExp "r"; VarExp "y"])]))
       = Ok {["lambda_2" := hs; "lambda_1" := ["y"]]}.
Proof.
  assert (Hrun : compute_holes
         (LamExp "lambda_1" [ParamVar "x"; ParamVar "k"]
            (AppExp (VarExp "+")
               [VarExp "x"; VarExp "y";
                LamExp "lambda_2" [ParamVar "r"] (AppExp (VarExp "k") [VarExp "r"; VarExp "y"])]))
       = Ok {["lambda_2" := ["k"; "y"; "x"]; "lambda_1" := ["y"]]})
    by (vm_compute; reflexivity).
  destruct (holes_complete _ _ Hrun) with (n := "lambda_2") (args := ["r"])
    (body := AppExp (VarExp "k") [VarExp "r"; VarExp "y"]) as (hs & Hhs & Hcap).
  - simpl. apply NoDup_cons. split; [|apply NoDup_singleton].
    intros ?%list_elem_of_singleton. discriminate.
  - simpl. by left.
  - assert (hs = ["k"; "y"; "x"]) as -> by (vm_compute in Hhs; congruence).
    exists ["k"; "y"; "x"]. split; [|split; [|exact Hrun]].
    + apply Hcap; [simpl; repeat constructor | reflexivity | | apply not_elem_of_nil].
      intros ?%list_elem_of_singleton. discriminate.
    + apply Hcap; [simpl; repeat constructor | reflexivity | | apply not_elem_of_nil].
      intros ?%list_elem_of_singleton. discriminate.
Defined.

(** X14: with no assumption on the names, the map the analysis
    returns has an entry for exactly the Lambda names of the tree, and no
    hole list in it holds a primitive name. *)
Theorem holes_keys_and_primops (root : exp) :
  exists holes_dict,
    compute_holes root = Ok holes_dict
    /\ (forall n, is_Some (holes_dict !! n) <-> n ∈ map fst (lambdas root))
    /\ (forall n hs x, holes_dict !! n = Some hs -> x ∈ hs -> is_primop x = false).
Proof.
  destruct (compute_holes_spec root) as (d & Hd & Hdom & Hent).
  exists d. split; [done|]. split.
  - intros n. split.
    + intros [hs Hhs]. destruct (Hent n hs Hhs) as (args & Hin & _).
      change (n ∈ fst <$> lambdas root). apply list_elem_of_fmap. by exists (n, args).
    + change (n ∈ fst <$> lambdas root -> is_Some (d !! n)).
      intros ([m args] & -> & Hin)%list_elem_of_fmap. by eapply Hdom.
  - intros n hs x Hhs Hx. destruct (Hent n hs Hhs) as (args & _ & Hgood).
    by apply Hgood.
Qed.

Lemma holes_keys_and_primops_witness :
  exists holes_dict,
    compute_holes (LamExp "lambda_1" [ParamVar "k"] (AppExp (VarExp "k") [VarExp "y"]))
    = Ok holes_dict
    /\ is_Some (holes_dict !! "lambda_1").
Proof.
  destruct (holes_keys_and_primops
              (LamExp "lambda_1" [ParamVar "k"] (AppExp (VarExp "k") [VarExp "y"])))
    as (d & Hd & Hkeys & _).
  exists d. split; [exact Hd|]. apply Hkeys. simpl. by left.
Defined.

Lemma origin_step_refl (st : holes_state) : origin_step [] st st.
Proof. split; [by left | by left]. Qed.

Lemma origin_step_trans V1 V2 (a b c : holes_state) :
  origin_step V1 a b -> origin_step V2 b c -> origin_step (V1 ++ V2) a c.
Proof.
  intros (Hs1 & He1) (Hs2 & He2).
  assert (Hb : forall x, x ∈ fst b \/ x ∈ V2 -> x ∈ fst a \/ x ∈ V1 ++ V2).
  { intros x [Hx|Hx]; [|right; apply elem_of_app; by right].
    destruct (Hs1 x Hx); [by left | right; apply elem_of_app; by left]. }
  split.
  - intros x Hx. by apply Hb, Hs2.
  - intros n hs Hc. destruct (He2 n hs Hc) as [Hold|Hnew].
    + destruct (He1 n hs Hold) as [?|Hnew]; [by left|]. right.
      intros x Hx. destruct (Hnew x Hx); [by left | right; apply elem_of_app; by left].
    + right. intros x Hx. by apply Hb, Hnew.
Qed.

Lemma origin_step_nil_r V (a b c : holes_state) :
  origin_step V a b -> origin_step [] b c -> origin_step V a c.
Proof. intros H1 H2. rewrite <- (app_nil_r V). by eapply origin_step_trans. Qed.

Lemma find_holes_origin_other (e e' : exp) (st st' : holes_state) :
  match e with VarExp _ => False | _ => True end ->
  find_holes e st = Ok (e', st') -> origin_step [] st st'.
Proof.
  intros He. destruct st as [hs d]. destruct e; try done; simpl;
    intros [= _ <-]; try apply origin_step_refl.
  split; simpl.
  - intros x [Hx _]%elem_of_difference. by left.
  - intros m hs'. destruct (decide (name = m)) as [->|Hne].
    + rewrite lookup_insert_eq. intros [= <-]. right.
      intros x [Hx _]%elem_of_elements%elem_of_difference. by left.
    + rewrite lookup_insert_ne by done. by left.
Qed.

Lemma find_holes_origin_var (x : string) (e' : exp) (st st' : holes_state) :
  find_holes (VarExp x) st = Ok (e', st') -> origin_step [x] st st'.
Proof.
  destruct st as [hs d]. simpl.
  destruct (is_primop x); simpl; intros [= _ <-]; split; simpl; try by left.
  intros y [->%elem_of_singleton|Hy]%elem_of_union; [right; by left | by left].
Qed.

Lemma originates_list (es : list exp) :
  Forall originates es ->
  forall st es' st',
    map_list find_holes es st = Ok (es', st') ->
    origin_step (concat (map vars es)) st st'.
Proof.
  induction 1 as [|e es He _ IH]; intros st es' st'; simpl.
  - intros [= _ <-]. apply origin_step_refl.
  - intros ([e1 s1] & H1 & H)%rbind_ok.
    apply rbind_ok in H as ([es1 s2] & H2 & [= _ <-]).
    eapply origin_step_trans; [by eapply He | by eapply IH].
Qed.

Lemma originates_bindings (bnds : list (string * exp)) :
  Forall (fun b => originates (snd b)) bnds ->
  forall st bnds' st',
    map_bindings find_holes bnds st = Ok (bnds', st') ->
    origin_step (concat (map (fun b => vars (snd b)) bnds)) st st'.
Proof.
  induction 1 as [|[x e] bnds He _ IH]; intros st bnds' st'; simpl.
  - intros [= _ <-]. apply origin_step_refl.
  - intros ([e1 s1] & H1 & H)%rbind_ok.
    apply rbind_ok in H as ([bnds1 s2] & H2 & [= _ <-]).
    eapply origin_step_trans; [by eapply He | by eapply IH].
Qed.

Lemma holes_originate (e : exp) : originates e.
Proof.
  induction e as [x|v|v|v| |n args body IHb|fn args IHfn IHargs|c t e IHc IHt IHe
                 |bnds body IHbnds IHb|es IHes|x v IHv|x v t IHv IHt|c]
    using exp_ind; intros st e' st'.
  - apply find_holes_origin_var.
  - by apply find_holes_origin_other.
  - by apply find_holes_origin_other.
  - by apply find_holes_origin_other.
  - by apply find_holes_origin_other.
  - rewrite map_exp_lam. intros ([b1 s1] & H1 & H)%rbind_ok.
    eapply origin_step_nil_r; [by eapply IHb|].
    eapply find_holes_origin_other; [|exact H]. exact I.
  - rewrite map_exp_app. intros ([f1 s1] & H1 & H)%rbind_ok.
    apply rbind_ok in H as ([a1 s2] & H2 & H).
    eapply origin_step_nil_r; [|eapply find_holes_origin_other; [|exact H]; exact I].
    eapply origin_step_trans; [by eapply IHfn | by eapply originates_list].
  - rewrite map_exp_if. intros ([c1 s1] & H1 & H)%rbind_ok.
    apply rbind_ok in H as ([t1 s2] & H2 & H).
    apply rbind_ok in H as ([e1 s3] & H3 & H).
    eapply origin_step_nil_r; [|eapply find_holes_origin_other; [|exact H]; exact I].
    eapply origin_step_trans; [by eapply IHc|].
    eapply origin_step_trans; [by eapply IHt | by eapply IHe].
  - rewrite map_exp_letrec. intros ([b1 s1] & H1 & H)%rbind_ok.
    apply rbind_ok in H as ([b2 s2] & H2 & H).
    eapply origin_step_nil_r; [|eapply find_holes_origin_other; [|exact H]; exact I].
    eapply origin_step_trans; [by eapply originates_bindings | by eapply IHb].
  - rewrite map_exp_begin. intros ([es1 s1] & H1 & H)%rbind_ok.
    eapply origin_step_nil_r; [|eapply find_holes_origin_other; [|exact H]; exact I].
    by eapply originates_list.
  - rewrite map_exp_set. intros ([v1 s1] & H1 & H)%rbind_ok.
    eapply origin_step_nil_r; [|eapply find_holes_origin_other; [|exact H]; exact I].
    by eapply IHv.
  - rewrite map_exp_setthen. intros ([v1 s1] & H1 & H)%rbind_ok.
    apply rbind_ok in H as ([t1 s2] & H2 & H).
    eapply origin_step_nil_r; [|eapply find_holes_origin_other; [|exact H]; exact I].
    eapply origin_step_trans; [by eapply IHv | by eapply IHt].
  - by apply find_holes_origin_other.
Qed.

(** X15: the analysis invents no name: every name in a recorded hole
    list is the name of a Variable node of the tree. *)
Theorem holes_are_variables (root : exp) (holes_dict : gmap string (list string))
    (Hrun : compute_holes root = Ok holes_dict) :
  forall n hs x, holes_dict !! n = Some hs -> x ∈ hs -> x ∈ vars root.
Proof.
  intros n hs x Hhs Hx. unfold compute_holes in Hrun.
  apply rbind_ok in Hrun as ([e' [hs' d]] & Hmap & [= <-]).
  destruct (holes_originate root _ _ _ Hmap) as (_ & Hent).
  destruct (Hent n hs Hhs) as [Hold|Hnew].
  - simpl in Hold. by rewrite lookup_empty in Hold.
  - destruct (Hnew x Hx) as [Hin|Hin]; [|done].
    simpl in Hin. by apply not_elem_of_empty in Hin.
Qed.

Lemma holes_are_variables_witness :
  "y" ∈ vars (LamExp "lambda_1" [ParamVar "k"] (AppExp (VarExp "k") [VarExp "y"])).
Proof.
  apply (holes_are_variables
           (LamExp "lambda_1" [ParamVar "k"] (AppExp (VarExp "k") [VarExp "y"]))
           {["lambda_1" := ["y"]]} eq_refl "lambda_1" ["y"] "y").
  - reflexivity.
  - by left.
Defined.

(** ** The cosmetic post-processor *)

Lemma str_map_length (f : ascii -> ascii) (s : string) :
  String.length (str_map f s) = String.length s.
Proof. induction s as [|c s IH]; simpl; [done|]. by rewrite IH. Qed.

Lemma str_map_substring (f : ascii -> ascii) (n m : nat) (s : string) :
  str_map f (String.substring n m s) = String.substring n m (str_map f s).
Proof.
  revert n m. induction s as [|c s IH]; intros [|n] [|m]; simpl; try done;
    by rewrite IH.
Qed.

Lemma substring_full (s : string) : String.substring 0 (String.length s) s = s.
Proof. induction s as [|c s IH]; simpl; [done|]. by rewrite IH. Qed.

Lemma get_none_length (n : nat) (s : string) :
  String.get n s = None <-> String.length s <= n.
Proof.
  revert n. induction s as [|c s IH]; intros [|n]; simpl; try (split; [lia|done]).
  - split; [discriminate | lia].
  - rewrite IH. lia.
Qed.

(** The test on one label word raises exactly when the line is that
    word. *)
Lemma label_with_terminator_raise (line word : string) :
  match label_with_terminator line word with
  | Raise err => err = IndexError /\ latin1_lower line = word
  | Ok _ => latin1_lower line <> word
            \/ exists c, String.get (String.length word) line = Some c
  end.
Proof.
  unfold label_with_terminator.
  destruct (Nat.leb_spec (String.length word) (String.length line)) as [Hle|Hlt]; simpl.
  - destruct (String.eqb_spec
                (latin1_lower (String.substring 0 (String.length word) line)) word)
      as [Heq|Hne].
    + destruct (String.get (String.length word) line) as [c|] eqn:Hget.
      * right. by exists c.
      * split; [done|]. apply get_none_length in Hget.
        assert (String.length word = String.length line) as Hlen by lia.
        rewrite Hlen in Heq. by rewrite substring_full in Heq.
    + left. intros Heq. apply Hne. unfold latin1_lower in *.
      rewrite str_map_substring, Heq. apply substring_full.
  - left. intros Heq. apply (f_equal String.length) in Heq.
    unfold latin1_lower in Heq. rewrite str_map_length in Heq. lia.
Qed.

Lemma label_with_terminator_word (line word : string) :
  latin1_lower line = word -> label_with_terminator line word = Raise IndexError.
Proof.
  intros Heq. unfold label_with_terminator.
  assert (Hlen : String.length line = String.length word).
  { rewrite <- Heq. unfold latin1_lower. by rewrite str_map_length. }
  rewrite <- Hlen, Nat.leb_refl, substring_full, Heq, String.eqb_refl. simpl.
  by rewrite (proj2 (get_none_length _ _)).
Qed.

Lemma label_with_terminator_other (line word other : string) :
  latin1_lower line = other -> String.length other = String.length word ->
  other <> word -> label_with_terminator line word = Ok false.
Proof.
  intros Heq Hlen Hne. unfold label_with_terminator.
  assert (Hl : String.length line = String.length word).
  { rewrite <- Hlen, <- Heq. unfold latin1_lower. by rewrite str_map_length. }
  rewrite <- Hl, Nat.leb_refl, substring_full, Heq. simpl.
  by destruct (String.eqb_spec other word).
Qed.

Lemma is_label_bare (line : string) :
  if bare_label line then is_label line = Raise IndexError
  else exists lab, is_label line = Ok lab.
Proof.
  unfold bare_label, is_label.
  destruct (String.eqb_spec (latin1_lower line) "public") as [Hpub|Hpub]; simpl.
  { assert (String.length line = 6) as Hlen.
    { apply (f_equal String.length) in Hpub. unfold latin1_lower in Hpub.
      by rewrite str_map_length in Hpub. }
    unfold latin1_lower in *. rewrite str_map_substring, Hpub, Hlen. simpl.
    fold latin1_lower. by rewrite (label_with_terminator_word line "public"). }
  destruct (String.eqb_spec (latin1_lower line) "default") as [Hdef|Hdef]; simpl.
  { assert (String.length line = 7) as Hlen.
    { apply (f_equal String.length) in Hdef. unfold latin1_lower in Hdef.
      by rewrite str_map_length in Hdef. }
    unfold latin1_lower at 1. rewrite str_map_substring. fold latin1_lower.
    rewrite Hdef, Hlen. simpl.
    assert (label_with_terminator line "public" = Ok false) as ->.
    { unfold label_with_terminator. rewrite Hlen. simpl.
      unfold latin1_lower. rewrite str_map_substring. fold latin1_lower.
      by rewrite Hdef. }
    simpl. by rewrite (label_with_terminator_word line "default"). }
  destruct (String.eqb_spec (latin1_lower line) "private") as [Hpri|Hpri]; simpl.
  { assert (String.length line = 7) as Hlen.
    { apply (f_equal String.length) in Hpri. unfold latin1_lower in Hpri.
      by rewrite str_map_length in Hpri. }
    unfold latin1_lower at 1. rewrite str_map_substring. fold latin1_lower.
    rewrite Hpri, Hlen. simpl.
    assert (label_with_terminator line "public" = Ok false) as ->.
    { unfold label_with_terminator. rewrite Hlen. simpl.
      unfold latin1_lower. rewrite str_map_substring. fold latin1_lower.
      by rewrite Hpri. }
    simpl.
    rewrite (label_with_terminator_other line "default" "private") by done.
    simpl. by rewrite (label_with_terminator_word line "private"). }
  destruct (_ && _); [by eexists|].
  pose proof (label_with_terminator_raise line "public") as H1.
  destruct (label_with_terminator line "public") as [[|]|e1]; simpl;
    [by eexists| |by destruct H1].
  pose proof (label_with_terminator_raise line "default") as H2.
  destruct (label_with_terminator line "default") as [[|]|e2]; simpl;
    [by eexists| |by destruct H2].
  pose proof (label_with_terminator_raise line "private") as H3.
  destruct (label_with_terminator line "private") as [lab|e3]; simpl;
    [by eexists | by destruct H3].
Qed.

Lemma pretty_line_bare (nspace : Z) (raw : string) (indent : Z) :
  if bare_label (strip raw) then pretty_line nspace raw indent = Raise IndexError
  else exists out indent', pretty_line nspace raw indent = Ok (out, indent').
Proof.
  unfold pretty_line. pose proof (is_label_bare (strip raw)) as H.
  destruct (bare_label (strip raw)).
  - destruct (starts_with_closing (strip raw)); by rewrite H.
  - destruct H as [lab ->]. destruct (starts_with_closing (strip raw)); by eexists _, _.
Qed.

Lemma pretty_lines_bare (nspace : Z) (raws : list string) (indent : Z) :
  if existsb (fun raw => bare_label (strip raw)) raws
  then pretty_lines nspace raws indent = Raise IndexError
  else exists outs, pretty_lines nspace raws indent = Ok outs.
Proof.
  revert indent. induction raws as [|raw raws IH]; intros indent; simpl.
  - by eexists.
  - pose proof (pretty_line_bare nspace raw indent) as H.
    destruct (bare_label (strip raw)); simpl.
    + by rewrite H.
    + destruct H as (out & indent' & ->). simpl. specialize (IH indent').
      destruct (existsb _ raws).
      * by rewrite IH.
      * destruct IH as [outs ->]. by eexists.
Qed.

(** X12: [pretty_cpp] fails exactly on a text one of whose lines,
    stripped, is the bare word [public], [default] or [private] in any
    letter case: the character after the word is then read past the end
    of the line and [IndexError] is raised. On every other text it
    returns. *)
Theorem pretty_cpp_bare_label (code : string) (nspace : Z) :
  if existsb (fun raw => bare_label (strip raw)) (splitlines code)
  then pretty_cpp code nspace = Raise IndexError
  else exists out, pretty_cpp code nspace = Ok out.
Proof.
  unfold pretty_cpp.
  pose proof (pretty_lines_bare nspace (splitlines code) 0) as H.
  destruct (existsb _ (splitlines code)).
  - by rewrite H.
  - destruct H as [outs ->]. by eexists.
Qed.

Lemma count_braces_closing (line : string) (d : Z) :
  starts_with_closing line = true ->
  count_braces (String.substring 1 (String.length line - 1) line) (d - 1)
  = count_braces line d.
Proof.
  destruct line as [|c rest]; simpl; [discriminate|]. intros Hc.
  rewrite Nat.sub_0_r, substring_full, Hc.
  destruct (Ascii.eqb_spec c "{"%char) as [->|_]; [discriminate Hc | done].
Qed.

(** One line: its new text and the depth after it. *)
Lemma pretty_line_spec (nspace : Z) (raw out : string) (d d' : Z) :
  pretty_line nspace raw d = Ok (out, d') ->
  d' = count_braces (strip raw) d
  /\ exists lab,
       is_label (strip raw) = Ok lab
       /\ out = spaces (nspace * (d - (if starts_with_closing (strip raw) then 1 else 0))
                        - (if lab then nspace / 2 else 0))
                +:+ strip raw.
Proof.
  unfold pretty_line.
  destruct (starts_with_closing (strip raw)) eqn:Hc; cbv beta iota;
    intros H; apply rbind_ok in H as (lab & Hlab & H); injection H as <- <-.
  - split; [by apply count_braces_closing|]. exists lab. split; [done|].
    destruct lab; [done|]. by rewrite Z.sub_0_r.
  - split; [done|]. exists lab. split; [done|].
    rewrite Z.sub_0_r. destruct lab; [done|]. by rewrite Z.sub_0_r.
Qed.

Lemma pretty_lines_spec (nspace : Z) (raws outs : list string) (d0 : Z) :
  pretty_lines nspace raws d0 = Ok outs ->
  length outs = length raws
  /\ forall i raw, raws !! i = Some raw ->
       exists lab,
         is_label (strip raw) = Ok lab
         /\ outs !! i
            = Some (spaces (nspace * (foldl (fun d r => count_braces (strip r) d) d0
                                        (take i raws)
                                      - (if starts_with_closing (strip raw)
                                         then 1 else 0))
                            - (if lab then nspace / 2 else 0))
                    +:+ strip raw).
Proof.
  revert outs d0. induction raws as [|r raws IH]; intros outs d0; simpl.
  - intros [= <-]. split; [done|]. intros i raw Hi. by rewrite lookup_nil in Hi.
  - intros ([out d1] & Hline & H)%rbind_ok.
    apply rbind_ok in H as (outs' & Hrest & [= <-]).
    apply pretty_line_spec in Hline as (-> & lab & Hlab & ->).
    destruct (IH _ _ Hrest) as [Hlen Hnth]. split; [simpl; by rewrite Hlen|].
    intros [|i] raw; simpl.
    + intros [= <-]. by exists lab.
    + intros Hi. by apply Hnth.
Qed.

(** X13: when [pretty_cpp] returns, its text has one line for each
    line of the input, and each is the stripped input line behind a run
    of blanks and nothing else. The run is [nspace] times the brace depth
    of the lines before it, one level less when the line starts with a
    closing brace, and half a step ([nspace // 2]) less again on a label
    line; a negative count gives no blank. *)
Theorem pretty_cpp_lines (code out : string) (nspace : Z)
    (Hrun : pretty_cpp code nspace = Ok out) :
  exists outs,
    out = join nl outs
    /\ length outs = length (splitlines code)
    /\ forall i raw, splitlines code !! i = Some raw ->
         exists lab,
           is_label (strip raw) = Ok lab
           /\ outs !! i
              = Some (spaces (nspace * (depth_after (take i (splitlines code))
                                        - (if starts_with_closing (strip raw)
                                           then 1 else 0))
                              - (if lab then nspace / 2 else 0))
                      +:+ strip raw).
Proof.
  unfold pretty_cpp in Hrun. apply rbind_ok in Hrun as (outs & Hlines & [= <-]).
  exists outs. split; [done|]. by apply pretty_lines_spec in Hlines.
Qed.

Lemma pretty_cpp_lines_witness :
  exists outs,
    pretty_cpp ("int main() {" +:+ nl +:+ "return 0;" +:+ nl +:+ "}") 2
    = Ok (join nl outs)
    /\ outs !! 1 = Some (spaces 2 +:+ "return 0;").
Proof.
  destruct (pretty_cpp_lines
              ("int main() {" +:+ nl +:+ "return 0;" +:+ nl +:+ "}")
              ("int main() {" +:+ nl +:+ "  return 0;" +:+ nl +:+ "}") 2 eq_refl)
    as (outs & Hout & Hlen & Hnth).
  exists outs. split; [by rewrite <- Hout|].
  destruct (Hnth 1 "return 0;" eq_refl) as (lab & Hlab & ->).
  vm_compute in Hlab. by injection Hlab as <-.
Defined.
